(** * cache_detect: a shallow embedding of [cache_detect.c]

    The development follows the source file top to bottom: the xorshift
    generator, the order builders, the chase graph, the size generator,
    the measurement loop and the boundary detector.

    Conventions.
    - [size_t] and [uint64_t] are 64-bit: a value is a [Z] in [0, 2^64) and
      every operation that can wrap in C has its [mod 2^64] written out.
    - [double] is IEEE-754 binary64, modelled by Rocq's primitive floats.
    - An array that the C code fills front to back ([out[count++] = v]) is
      the list of the values written, in order.
    - An unbounded C loop is a structurally recursive function on a fuel
      argument returning [option]; [None] means the fuel ran out.  The
      rejection loop of [rng_uniform] is bounded by [2^64] draws, which is
      more than it can take. *)

From Stdlib Require Import ZArith Lia List Bool Znumtheory.
From Stdlib Require Import Floats.PrimFloat Floats.SpecFloat Floats.FloatOps.
From stdpp Require Import base list gmap sorting strings.

Local Open Scope Z_scope.
#[local] Set Warnings "-inexact-float".


(** ** Machine integers *)

Module Word.

Definition width : Z := 64.
Definition modulus : Z := 2 ^ 64.
Definition SIZE_MAX : Z := 2 ^ 64 - 1.

Definition wrap (x : Z) : Z := x mod modulus.
Definition shl (x k : Z) : Z := wrap (Z.shiftl x k).
Definition shr (x k : Z) : Z := Z.shiftr x k.
Definition add (x y : Z) : Z := wrap (x + y).
Definition sub (x y : Z) : Z := wrap (x - y).
Definition mul (x y : Z) : Z := wrap (x * y).

Definition in_range (x : Z) : Prop := 0 <= x < modulus.

(** The cast [(int)x] of a [size_t]: the low 32 bits, read as signed. *)
Definition to_int (x : Z) : Z :=
  let y := x mod 2 ^ 32 in if y <? 2 ^ 31 then y else y - 2 ^ 32.

End Word.

(** ** Doubles *)

Module Dbl.

(** [(double)x] for an unsigned 64-bit [x]: round to nearest, ties to even. *)
Definition of_Z (x : Z) : float :=
  SF2Prim (binary_normalize 53 1024 x 0 false).

Definition gt (a b : float) : bool := PrimFloat.ltb b a.
Definition lt (a b : float) : bool := PrimFloat.ltb a b.

End Dbl.

(** ** PRNG *)

(** The three xorshift steps of [rng_next], in source order. *)
Definition xorshift (s : Z) : Z :=
  let x := s in
  let x := Z.lxor x (Word.shr x 12) in
  let x := Z.lxor x (Word.shl x 25) in
  let x := Z.lxor x (Word.shr x 27) in
  x.

(** [rng_next r]: the value returned and the new [r->state]. *)
Definition rng_next (state : Z) : Z * Z :=
  let x := xorshift state in
  (Word.mul x 2685821657736338717, x).

Definition uniform_threshold (n : Z) : Z := Word.SIZE_MAX mod n.

(** The test inside the rejection loop, on one draw [x]. *)
Definition uniform_accept (n x : Z) : option Z :=
  if uniform_threshold n <=? x then Some (x mod n) else None.

(** One round of the rejection loop of [rng_uniform]: the accepted value and
    the new state, or the new state alone after a rejected draw. *)
Definition draw (state n : Z) : (Z * Z) + Z :=
  let '(x, state') := rng_next state in
  match uniform_accept n x with
  | Some v => inl (v, state')
  | None => inr state'
  end.

(** Up to [p] rounds, stopping at the first accepted draw. *)
Fixpoint uniform_draws (p : positive) (state n : Z) : (Z * Z) + Z :=
  match p with
  | xH => draw state n
  | xO p' =>
      match uniform_draws p' state n with
      | inl r => inl r
      | inr s => uniform_draws p' s n
      end
  | xI p' =>
      match draw state n with
      | inl r => inl r
      | inr s =>
          match uniform_draws p' s n with
          | inl r => inl r
          | inr s' => uniform_draws p' s' n
          end
      end
  end.

Definition draw_bound : positive := 18446744073709551616.

(** [rng_uniform r n]: the [for (;;)] loop.  The model gives up, with [None],
    after [2^64] rejected draws in a row; from a nonzero state that does not
    happen ([rng_uniform_returns]). *)
Definition rng_uniform (state n : Z) : option (Z * Z) :=
  match uniform_draws draw_bound state n with
  | inl r => Some r
  | inr _ => None
  end.

(** The seeding in [main]; [raw] is the xor of clock, stack address and pid. *)
Definition main_seed (raw : Z) : Z :=
  if raw =? 0 then 0x123456789abcdef else raw.

(** One step [x ^= x >> k] and one step [x ^= x << k] on a 64-bit word. *)
Definition xsr (k x : Z) : Z := Z.lxor x (Word.shr x k).
Definition xsl (k x : Z) : Z := Z.lxor x (Word.shl x k).

(** Undoing the three steps of [xorshift], last step first: each step is
    undone by repeating it with the shift doubled until the shift leaves
    the word. *)
Definition unxorshift (y : Z) : Z :=
  let x := y in
  let x := xsr 54 (xsr 27 x) in
  let x := xsl 50 (xsl 25 x) in
  let x := xsr 48 (xsr 24 (xsr 12 x)) in
  x.

(** A call of the generator's interface. *)
Inductive PrngCall := CallNext | CallUniform (n : Z).

Definition run_call (c : PrngCall) (state : Z) : option Z :=
  match c with
  | CallNext => Some (snd (rng_next state))
  | CallUniform n => snd <$> rng_uniform state n
  end.

Fixpoint run_calls (cs : list PrngCall) (state : Z) : option Z :=
  match cs with
  | [] => Some state
  | c :: cs' => match run_call c state with
                | Some s' => run_calls cs' s'
                | None => None
                end
  end.

(** The inverse of the multiplier of [rng_next] modulo [2^64], by Newton
    iteration. *)
Definition mult_inverse : Z := Eval vm_compute in
  (let m := 2685821657736338717 in
   let step x := (x * (2 - m * x)) mod 2 ^ 64 in
   step (step (step (step (step (step m)))))).

(** The state whose successor has output 1. *)
Definition state_drawing_one : Z := Eval vm_compute in unxorshift mult_inverse.

(** The state whose output is the largest word, [2^64 - 1]. *)
Definition top_state : Z := Eval vm_compute in Word.mul Word.SIZE_MAX mult_inverse.

(** Arguments of [CallUniform] for which the C call is defined. *)
Definition call_ok (c : PrngCall) : Prop :=
  match c with
  | CallNext => True
  | CallUniform n => 0 < n
  end.

(** *** The xorshift update as a linear map

    A linear map on 64-bit words over GF(2), given by the images of the
    bits: column [i] is the image of [2^i]. *)

Fixpoint lin_apply (cols : list Z) (s : Z) : Z :=
  match cols with
  | [] => 0
  | c :: cols' => Z.lxor (if Z.odd s then c else 0) (lin_apply cols' (Z.div2 s))
  end.

Definition lin_compose (A B : list Z) : list Z := map (lin_apply A) B.

Fixpoint lin_pow (A : list Z) (p : positive) : list Z :=
  match p with
  | xH => A
  | xO p' => let B := lin_pow A p' in lin_compose B B
  | xI p' => let B := lin_pow A p' in lin_compose A (lin_compose B B)
  end.

Definition lin_id : list Z := Eval vm_compute in map (fun i => 2 ^ i) (seqZ 0 64).

Definition xorshift_matrix : list Z := Eval vm_compute in map xorshift lin_id.

(** The state after [k] updates. *)
Definition orbit (k : nat) (s : Z) : Z := Nat.iter k xorshift s.

(** [2^64 - 1], its prime factors, and its quotients by them. *)
Definition period : positive := 18446744073709551615.
Definition period_primes : list Z := [3; 5; 17; 257; 641; 65537; 6700417].
Definition period_quotients : list positive :=
  Eval vm_compute in map (fun p => Z.to_pos (Z.pos period / p)) period_primes.

(** No [d] with [2 <= d < k] divides [p]. *)
Definition no_divisor_below (p k : Z) : bool :=
  forallb (fun d => negb (p mod d =? 0)) (seqZ 2 (k - 2)).

(** ** Order builders *)

(** [for (i = lo; ...; ++i) body] run for [todo] iterations. *)
Fixpoint for_loop {S : Type} (todo : nat) (i : Z) (body : Z -> S -> S) (s : S) : S :=
  match todo with
  | O => s
  | S todo' => for_loop todo' (i + 1) body (body i s)
  end.

(** [for (i = 0; i < n; ++i) body]. *)
Definition for_upto {S : Type} (n : Z) (body : Z -> S -> S) (s : S) : S :=
  for_loop (Z.to_nat n) 0 body s.

Definition build_order_sequential (num_nodes : Z) : list Z :=
  for_upto num_nodes (fun i order => order ++ [i]) [].

Definition build_order_reverse (num_nodes : Z) : list Z :=
  for_upto num_nodes
    (fun i order => order ++ [Word.sub (Word.sub num_nodes 1) i]) [].

Definition build_order_interleave (num_nodes : Z) : list Z :=
  let half := num_nodes / 2 in
  let order := for_upto half (fun i order => order ++ [i; Word.add i half]) [] in
  if negb (Z.land num_nodes 1 =? 0) then order ++ [Word.sub num_nodes 1] else order.

(** [while ((m << 1) > m && (m << 1) <= bound) m <<= 1;] *)
Fixpoint pow2_floor_loop (fuel : nat) (m bound : Z) : option Z :=
  if (m <? Word.shl m 1) && (Word.shl m 1 <=? bound) then
    match fuel with
    | O => None
    | S fuel' => pow2_floor_loop fuel' (Word.shl m 1) bound
    end
  else Some m.

Definition loop_fuel : nat := 64.

Definition build_order_gray (num_nodes : Z) : option (list Z) :=
  if num_nodes =? 0 then Some []
  else
    m ← pow2_floor_loop loop_fuel 1 num_nodes;
    let order := for_upto m (fun i order => order ++ [Z.lxor i (Word.shr i 1)]) [] in
    Some (for_loop (Z.to_nat (num_nodes - m)) m (fun i order => order ++ [i]) order).

(** The body [r = (r << 1) | ((x >> i) & 1u)] of the loop below. *)
Definition rbl_body (x : Z) : Z -> Z -> Z :=
  fun i r => Z.lor (Word.shl r 1) (Z.land (Word.shr x i) 1).

(** [for (i = 0; i < bits; ++i) r = (r << 1) | ((x >> i) & 1u);] *)
Definition reverse_bits_limited (x bits : Z) : Z :=
  for_upto bits (rbl_body x) 0.

(** [while (tmp > 0) { bits++; tmp >>= 1; }] *)
Fixpoint bit_count_loop (fuel : nat) (bits tmp : Z) : option Z :=
  if 0 <? tmp then
    match fuel with
    | O => None
    | S fuel' => bit_count_loop fuel' (bits + 1) (Word.shr tmp 1)
    end
  else Some bits.

(** The loop of [build_order_bitrev], with its [break] once [out == num_nodes]. *)
Fixpoint bitrev_loop (todo : nat) (i num_nodes bits : Z) (order : list Z) : list Z :=
  match todo with
  | O => order
  | S todo' =>
      let rev := reverse_bits_limited i bits in
      let order' := if rev <? num_nodes then order ++ [rev] else order in
      if Z.of_nat (length order') =? num_nodes then order'
      else bitrev_loop todo' (i + 1) num_nodes bits order'
  end.

Definition build_order_bitrev (num_nodes : Z) : option (list Z) :=
  if num_nodes =? 0 then Some []
  else
    bits ← bit_count_loop loop_fuel 0 (Word.sub num_nodes 1);
    let limit := Word.shl 1 bits in
    Some (bitrev_loop (Z.to_nat limit) 0 num_nodes bits []).

(** [visited[i]] for the [calloc]ed byte array; [None] is a read outside it. *)
Definition visited_at (visited : list bool) (i : Z) : option bool :=
  visited !! Z.to_nat i.

(** [while (!visited[i]) { order[count++] = i; visited[i] = 1; i = (i + k) % n; }] *)
Fixpoint stride_orbit (fuel : nat) (num_nodes k i : Z)
    (order : list Z) (visited : list bool) : option (list Z * list bool) :=
  match visited_at visited i with
  | None => None
  | Some true => Some (order, visited)
  | Some false =>
      match fuel with
      | O => None
      | S fuel' =>
          stride_orbit fuel' num_nodes k (Word.add i k mod num_nodes)
            (order ++ [i]) (<[Z.to_nat i := true]> visited)
      end
  end.

(** [while (start < num_nodes && visited[start]) start++;] *)
Fixpoint stride_skip (fuel : nat) (num_nodes start : Z) (visited : list bool) : option Z :=
  if start <? num_nodes then
    match visited_at visited start with
    | None => None
    | Some false => Some start
    | Some true =>
        match fuel with
        | O => None
        | S fuel' => stride_skip fuel' num_nodes (start + 1) visited
        end
    end
  else Some start.

(** [while (count < num_nodes) { ... }]; [count] is the length of [order]. *)
Fixpoint stride_outer (fuel : nat) (num_nodes k start : Z)
    (order : list Z) (visited : list bool) : option (list Z) :=
  if Z.of_nat (length order) <? num_nodes then
    match fuel with
    | O => None
    | S fuel' =>
        '(order', visited') ← stride_orbit (Z.to_nat num_nodes) num_nodes k start order visited;
        if Z.of_nat (length order') <? num_nodes then
          start' ← stride_skip (Z.to_nat num_nodes) num_nodes start visited';
          if num_nodes <=? start' then Some order'
          else stride_outer fuel' num_nodes k start' order' visited'
        else stride_outer fuel' num_nodes k start order' visited'
    end
  else Some order.

(** [calloc_ok] tells whether the [calloc] of the visited array succeeded. *)
Definition build_order_stride (calloc_ok : bool) (num_nodes k : Z) : option (list Z) :=
  if num_nodes =? 0 then Some []
  else
    let k := if k =? 0 then 1 else k in
    if calloc_ok then
      stride_outer (Z.to_nat num_nodes) num_nodes k 0 []
        (replicate (Z.to_nat num_nodes) false)
    else Some (build_order_sequential num_nodes).

Definition order_at (order : list Z) (i : Z) : Z := default 0 (order !! Z.to_nat i).

(** The shuffle loop [for (i = n - 1; i > 0; --i)], [todo] iterations left. *)
Fixpoint shuffle_loop (todo : nat) (i : Z) (order : list Z) (state : Z)
    : option (list Z * Z) :=
  match todo with
  | O => Some (order, state)
  | S todo' =>
      '(j, state') ← rng_uniform state (Word.add i 1);
      let tmp := order_at order i in
      let order := <[Z.to_nat i := order_at order j]> order in
      let order := <[Z.to_nat j := tmp]> order in
      shuffle_loop todo' (i - 1) order state'
  end.

Definition build_order_random (num_nodes : Z) (state : Z) : option (list Z * Z) :=
  let order := for_upto num_nodes (fun i order => order ++ [i]) [] in
  let i0 := Word.sub num_nodes 1 in
  shuffle_loop (Z.to_nat i0) i0 order state.

(** [enum Pattern]: a C enum holds any [int]. *)
Definition Pattern := Z.
Definition PATTERN_RANDOM : Pattern := 0.
Definition PATTERN_SEQUENTIAL : Pattern := 1.
Definition PATTERN_REVERSE : Pattern := 2.
Definition PATTERN_STRIDE : Pattern := 3.
Definition PATTERN_INTERLEAVE : Pattern := 4.
Definition PATTERN_GRAY : Pattern := 5.
Definition PATTERN_BITREVERSE : Pattern := 6.

(** What the order builders take from their environment: the generator
    state and whether [calloc] succeeds. *)
Record Env := mkEnv {
  rng_state : Z;
  calloc_ok : bool
}.

Definition with_state (e : Env) (s : Z) : Env := mkEnv s (calloc_ok e).

(** The generator state of an environment is a nonzero 64-bit word. *)
Definition env_ok (e : Env) : Prop :=
  Word.in_range (rng_state e) /\ rng_state e <> 0.

(** The [switch] of [build_cycle_pattern]: the order array and the
    environment after the call. *)
Definition build_order (p : Pattern) (pattern_arg num_nodes : Z) (e : Env)
    : option (list Z * Env) :=
  let random :=
    '(order, s) ← build_order_random num_nodes (rng_state e);
    Some (order, with_state e s) in
  if p =? PATTERN_RANDOM then random
  else if p =? PATTERN_SEQUENTIAL then Some (build_order_sequential num_nodes, e)
  else if p =? PATTERN_REVERSE then Some (build_order_reverse num_nodes, e)
  else if p =? PATTERN_STRIDE then
    order ← build_order_stride (calloc_ok e) num_nodes
               (if pattern_arg =? 0 then 1 else pattern_arg);
    Some (order, e)
  else if p =? PATTERN_INTERLEAVE then Some (build_order_interleave num_nodes, e)
  else if p =? PATTERN_GRAY then order ← build_order_gray num_nodes; Some (order, e)
  else if p =? PATTERN_BITREVERSE then order ← build_order_bitrev num_nodes; Some (order, e)
  else random.

Definition is_random (p : Pattern) : bool :=
  negb ((1 <=? p) && (p <=? 6)).

(** *** The stride ordering, as the specification words it

    Start from index 0 and repeatedly advance by [k] modulo [n], marking
    visited; when the orbit closes, restart from the first unvisited index.
    [nxt] is the advance. *)

Fixpoint first_unvisited_from (todo : nat) (j : Z) (acc : list Z) : Z :=
  match todo with
  | O => j
  | S todo' => if decide (j ∈ acc) then first_unvisited_from todo' (j + 1) acc else j
  end.

Definition first_unvisited (acc : list Z) (n : Z) : Z :=
  first_unvisited_from (Z.to_nat n) 0 acc.

Fixpoint stride_walk (todo : nat) (nxt : Z -> Z) (n i : Z) (acc : list Z) : list Z :=
  match todo with
  | O => acc
  | S todo' =>
      let acc' := acc ++ [i] in
      let c := nxt i in
      stride_walk todo' nxt n (if decide (c ∈ acc') then first_unvisited acc' n else c) acc'
  end.

Definition stride_spec (n k : Z) : list Z :=
  stride_walk (Z.to_nat n) (fun i => (i + k) mod n) n 0 [].

(** What the loops of [build_order_stride] keep true of the order written
    so far and the [visited] array. *)
Definition stride_inv (n : Z) (order : list Z) (visited : list bool) : Prop :=
  length visited = Z.to_nat n
  /\ NoDup order
  /\ (forall x, x ∈ order -> 0 <= x < n)
  /\ (forall j, 0 <= j < n -> visited_at visited j = Some (bool_decide (j ∈ order))).

Definition witness_env : Env := mkEnv (main_seed 0) true.

(** ** Chase graph *)

(** Memory holds one pointer-sized word per address that was written. *)
Definition node_addr (base node_stride idx : Z) : Z :=
  Word.add base (Word.mul idx node_stride).

Definition build_cycle_from_order (base num_nodes node_stride : Z) (order : list Z)
    (mem : gmap Z Z) : gmap Z Z :=
  for_upto num_nodes
    (fun i mem =>
       let from := order_at order i in
       let to := order_at order (Word.add i 1 mod num_nodes) in
       <[node_addr base node_stride from := node_addr base node_stride to]> mem)
    mem.

(** [chase head steps]: [steps] dependent loads; [None] is a load from an
    address that was never written. *)
Fixpoint chase (mem : gmap Z Z) (head : Z) (steps : nat) : option Z :=
  match steps with
  | O => Some head
  | S steps' => p ← mem !! head; chase mem p steps'
  end.


(** ** Size generator *)

(** [if (cond) { if (count < out_cap) out[count++] = v; }] *)
Definition emit (out_cap : Z) (cond : bool) (v : Z) (out : list Z) : list Z :=
  if cond then
    if Z.of_nat (length out) <? out_cap then out ++ [v] else out
  else out.

Definition in_bounds (min_bytes max_bytes v : Z) : bool :=
  (min_bytes <=? v) && (v <=? max_bytes).

(** The body of the [for (; p <= max_bytes; p <<= 1)] loop. *)
Definition sizes_body (min_bytes max_bytes out_cap p : Z) (out : list Z) : list Z :=
  let out := emit out_cap (min_bytes <=? p) p out in
  let v15 := Word.add p (p / 2) in
  let out := emit out_cap (in_bounds min_bytes max_bytes v15) v15 out in
  let out :=
    if p <=? 2 ^ 20 then
      let v125 := Word.add p (p / 4) in
      let v175 := Word.add p (Word.mul p 3 / 4) in
      let out := emit out_cap (in_bounds min_bytes max_bytes v125) v125 out in
      emit out_cap (in_bounds min_bytes max_bytes v175) v175 out
    else out in
  if p <=? 128 * 2 ^ 10 then
    let v1125 := Word.add p (p / 8) in
    let v1375 := Word.add p (Word.mul p 3 / 8) in
    let v1625 := Word.add p (Word.mul p 5 / 8) in
    let v1875 := Word.add p (Word.mul p 7 / 8) in
    let out := emit out_cap (in_bounds min_bytes max_bytes v1125) v1125 out in
    let out := emit out_cap (in_bounds min_bytes max_bytes v1375) v1375 out in
    let out := emit out_cap (in_bounds min_bytes max_bytes v1625) v1625 out in
    emit out_cap (in_bounds min_bytes max_bytes v1875) v1875 out
  else out.

Fixpoint sizes_loop (fuel : nat) (min_bytes max_bytes out_cap p : Z) (out : list Z)
    : option (list Z) :=
  if p <=? max_bytes then
    match fuel with
    | O => None
    | S fuel' =>
        let out := sizes_body min_bytes max_bytes out_cap p out in
        if Word.shr Word.SIZE_MAX 1 <? p then Some out
        else sizes_loop fuel' min_bytes max_bytes out_cap (Word.shl p 1) out
    end
  else Some out.

(** [qsort] with [cmp_size_t]: ascending order. *)
Definition qsort (out : list Z) : list Z := merge_sort Z.le out.

(** [generate_sizes]: the entries of [out] in their final order; the
    returned count is the length of the list. *)
Definition generate_sizes (min_bytes max_bytes out_cap : Z) : option (list Z) :=
  p ← pow2_floor_loop loop_fuel 1 min_bytes;
  let p := if p <? 1024 then 1024 else p in
  out ← sizes_loop loop_fuel min_bytes max_bytes out_cap p [];
  Some (qsort out).

Definition max_samples : Z := 1024.

(** Within one round of the loop, at [p = 8 * q], every value written is
    [p + j * q] for a [j] not used before in the round; [J] lists the [j]
    used so far. *)
Definition stage_inv (min_bytes max_bytes p q : Z) (J : list Z) (out : list Z) : Prop :=
  NoDup out
  /\ forall v, v ∈ out ->
       min_bytes <= v <= max_bytes /\ (v < p \/ exists j, j ∈ J /\ v = p + j * q).

(** What holds when the loop is about to test [p = 2^e]; [2^e0] is the
    first [p]. *)
Definition sizes_inv (min_bytes max_bytes out_cap e0 e : Z) (out : list Z) : Prop :=
  NoDup out
  /\ (forall v, v ∈ out -> min_bytes <= v <= max_bytes /\ v < 2 ^ e)
  /\ Z.of_nat (length out) <= 8 * (e - e0)
  /\ (0 <= out_cap -> Z.of_nat (length out) <= out_cap)
  /\ (Z.of_nat (length out) < out_cap ->
      forall e', e0 <= e' < e -> min_bytes <= 2 ^ e' -> 2 ^ e' ∈ out).

(** What holds of the array when the loop is left. *)
Definition sizes_post (min_bytes max_bytes out_cap e0 : Z) (out : list Z) : Prop :=
  NoDup out
  /\ (forall v, v ∈ out -> min_bytes <= v <= max_bytes)
  /\ Z.of_nat (length out) <= 8 * (64 - e0)
  /\ (0 <= out_cap -> Z.of_nat (length out) <= out_cap)
  /\ (Z.of_nat (length out) < out_cap ->
      forall e', e0 <= e' -> min_bytes <= 2 ^ e' <= max_bytes -> 2 ^ e' ∈ out).

(** ** Measurer *)

Record Sample := mkSample {
  working_set_bytes : Z;
  ns_per_access : float
}.

Record Options := mkOptions {
  min_bytes : Z;
  max_bytes : Z;
  node_stride : Z;
  warmup_iters : Z;
  target_ms : Z;
  repeats : Z;
  print_table : bool;
  pattern : Pattern;
  pattern_arg : Z
}.


(** What a measurement does that can be observed: a warm-up chase, a timed
    chase of the adaptive loop with the elapsed time it saw, and the timed
    chase of a repeat. *)
Inductive Event :=
  | EvWarmup (steps : Z)
  | EvProbe (steps dt : Z)
  | EvMeasure (steps dt : Z).

(** The clock is the environment: [clock k] is what the [k]-th call of
    [now_ns] returns.  The world counts the calls and keeps the trace. *)
Record World := mkWorld {
  clock_reads : nat;
  trace : list Event
}.

Definition now_ns (clock : nat -> Z) (w : World) : Z * World :=
  (Word.wrap (clock (clock_reads w)), mkWorld (S (clock_reads w)) (trace w)).

Definition log_event (ev : Event) (w : World) : World :=
  mkWorld (clock_reads w) (trace w ++ [ev]).

(** [t0 = now_ns(); chase(head, steps); t1 = now_ns(); dt = t1 - t0]. *)
Definition timed_chase (clock : nat -> Z) (w : World) : Z * World :=
  let '(t0, w) := now_ns clock w in
  let '(t1, w) := now_ns clock w in
  (Word.sub t1 t0, w).

Definition steps_cap : Z := 2 ^ 62.

(** The inner [for (;;)] of [measure_ns_per_access]. *)
Fixpoint adapt_steps (fuel : nat) (clock : nat -> Z) (target_ns steps : Z) (w : World)
    : option Z * World :=
  match fuel with
  | O => (None, w)
  | S fuel' =>
      let '(dt, w) := timed_chase clock w in
      let w := log_event (EvProbe steps dt) w in
      if (target_ns / 2 <=? dt) || (steps_cap <? steps) then (Some steps, w)
      else adapt_steps fuel' clock target_ns (Word.mul steps 2) w
  end.

Definition sentinel : float := 1e300%float.

(** [for (r = 0; r < opt->repeats; ++r)], [todo] rounds left. *)
Fixpoint repeat_loop (todo : nat) (clock : nat -> Z) (target_ns steps : Z)
    (best_ns_per : float) (w : World) : option float * World :=
  match todo with
  | O => (Some best_ns_per, w)
  | S todo' =>
      match adapt_steps loop_fuel clock target_ns steps w with
      | (None, w) => (None, w)
      | (Some steps, w) =>
          let '(dt, w) := timed_chase clock w in
          let w := log_event (EvMeasure steps dt) w in
          let ns_per := PrimFloat.div (Dbl.of_Z dt) (Dbl.of_Z steps) in
          let best := if Dbl.lt ns_per best_ns_per then ns_per else best_ns_per in
          repeat_loop todo' clock target_ns steps best w
      end
  end.

Definition measure_nodes (working_set_bytes node_stride : Z) : Z :=
  let nodes := working_set_bytes / node_stride in
  if nodes <? 2 then 2 else nodes.

Definition initial_steps (nodes : Z) : Z :=
  let steps := Word.mul nodes 16 in
  if steps <? 1000 then 1000 else steps.

(** Lines 404-435 of [measure_ns_per_access]: warm-up, adaptive run length
    and the repeats, once the graph is built.  The chases touch only the
    buffer and the sink, which nothing here reads. *)
Definition measure_timing (clock : nat -> Z) (nodes : Z) (opt : Options) (w : World)
    : option float * World :=
  let w := for_upto (warmup_iters opt) (fun _ w => log_event (EvWarmup nodes) w) w in
  let target_ns := Word.mul (target_ms opt) 1000000 in
  repeat_loop (Z.to_nat (repeats opt)) clock target_ns (initial_steps nodes) sentinel w.





Definition event_timed_steps (ev : Event) : option Z :=
  match ev with
  | EvWarmup _ => None
  | EvProbe s _ | EvMeasure s _ => Some s
  end.

Definition timed_steps (evs : list Event) : list Z := omap event_timed_steps evs.

Definition default_options : Options :=
  mkOptions (4 * 1024) (256 * 1024 * 1024) 256 3 80 3 true PATTERN_RANDOM 1.

Definition frozen_clock : nat -> Z := fun _ => 0.
Definition fresh_world : World := mkWorld 0 [].



(** ** Boundary detector *)

Record Boundary := mkBoundary {
  approx_size_bytes : Z;
  ratio : float
}.

Definition default_sample : Sample := mkSample 0 0%float.

Definition sample_at (samples : list Sample) (i : Z) : Sample :=
  nth (Z.to_nat i) samples default_sample.

Definition jump_threshold : float := 1.25%float.
Definition min_plateau_points : Z := 2.

(** The local variables of [detect_boundaries] that live across iterations. *)
Record DetectState := mkDetect {
  plateau_sum : float;
  plateau_count : Z;
  plateau_avg : float;
  last_boundary_idx : Z;
  found : Z;
  out : list Boundary
}.

(** One iteration of the loop body at index [i]. *)
Definition detect_step (samples : list Sample) (n out_cap : Z)
    (i : Z) (st : DetectState) : DetectState :=
  let r := PrimFloat.div (ns_per_access (sample_at samples i)) (plateau_avg st) in
  let sustained :=
    if Dbl.gt r jump_threshold &&
       (min_plateau_points <=? Word.to_int (Word.sub i (last_boundary_idx st)))
    then
      if i + 1 <? n then
        let ratio_next :=
          PrimFloat.div (ns_per_access (sample_at samples (i + 1))) (plateau_avg st) in
        Dbl.gt ratio_next (PrimFloat.mul jump_threshold 0.95%float)
      else true
    else false in
  if sustained then
    let out' :=
      if found st <? out_cap
      then out st ++ [mkBoundary (working_set_bytes (sample_at samples (i - 1))) r]
      else out st in
    let s := ns_per_access (sample_at samples i) in
    mkDetect s 1 (PrimFloat.div s (Dbl.of_Z 1)) i (found st + 1) out'
  else
    let s := PrimFloat.add (plateau_sum st) (ns_per_access (sample_at samples i)) in
    let c := plateau_count st + 1 in
    mkDetect s c (PrimFloat.div s (Dbl.of_Z c)) (last_boundary_idx st) (found st) (out st).

(** [for (i = 1; i < n; ++i)]: [todo] iterations are left, the next is [i]. *)
Fixpoint detect_loop (samples : list Sample) (n out_cap : Z)
    (todo : nat) (i : Z) (st : DetectState) : DetectState :=
  match todo with
  | O => st
  | S todo' =>
      detect_loop samples n out_cap todo' (i + 1) (detect_step samples n out_cap i st)
  end.

(** [detect_boundaries samples n out out_cap]: the returned count and the
    entries of [out] that were written, in order.  [n] is the length of
    [samples]. *)
Definition detect_boundaries (samples : list Sample) (out_cap : Z)
    : Z * list Boundary :=
  let n := Z.of_nat (length samples) in
  if n =? 0 then (0, [])
  else
    let s0 := ns_per_access (sample_at samples 0) in
    let st0 := mkDetect s0 1 (PrimFloat.div s0 (Dbl.of_Z 1)) 0 0 [] in
    let st := detect_loop samples n out_cap (Z.to_nat (n - 1)) 1 st0 in
    (found st, out st).

(** The summary loop of [main]: it reads [bounds[i]] for every [i < nb],
    where [bounds] has 8 slots.  [None] marks a read outside the entries
    that [detect_boundaries] wrote. *)
Definition main_bounds_cap : Z := 8.

Definition main_summary_reads (samples : list Sample) : list (option Boundary) :=
  let '(nb, bounds) := detect_boundaries samples main_bounds_cap in
  map (fun i : nat => nth_error bounds i) (seq 0 (Z.to_nat nb)).

Definition KiB : Z := 1024.
Definition MiB : Z := 1024 * 1024.

Definition synthetic_curve : list Sample :=
  [ mkSample (4 * KiB) 1.0%float; mkSample (8 * KiB) 1.0%float;
    mkSample (16 * KiB) 1.0%float; mkSample (32 * KiB) 1.0%float;
    mkSample (64 * KiB) 2.5%float; mkSample (128 * KiB) 2.6%float;
    mkSample (256 * KiB) 2.7%float; mkSample (1 * MiB) 8.0%float;
    mkSample (4 * MiB) 8.2%float ].

(** Ten plateaus of two points each, every plateau twice as slow as the
    one before: nine upward steps. *)
Definition staircase : list Sample :=
  map (fun k : nat =>
         mkSample (4 * KiB * 2 ^ Z.of_nat k)
                  (Dbl.of_Z (2 ^ Z.of_nat (Nat.div k 2))))
      (seq 0 20).


(** ** Helpers the program defines and does not call *)

(** [rotl64]: [(x << k) | (x >> (64 - k))], defined in C for [0 < k < 64]. *)
Definition rotl64 (x k : Z) : Z := Z.lor (Word.shl x k) (Word.shr x (64 - k)).

(** [build_cycle]: the shuffle of [build_order_random] and the stores of
    [build_cycle_from_order], written out in one function.  The result is
    the array [perm], the generator state and the memory. *)
Definition build_cycle (base num_nodes node_stride : Z) (state : Z) (mem : gmap Z Z)
    : option (list Z * Z * gmap Z Z) :=
  let perm := for_upto num_nodes (fun i perm => perm ++ [i]) [] in
  let i0 := Word.sub num_nodes 1 in
  '(perm, state') ← shuffle_loop (Z.to_nat i0) i0 perm state;
  let mem :=
    for_upto num_nodes
      (fun i mem =>
         let from := order_at perm i in
         let to := order_at perm (Word.add i 1 mod num_nodes) in
         <[node_addr base node_stride from := node_addr base node_stride to]> mem)
      mem in
  Some (perm, state', mem).

(** ** Command line *)

Definition clamp_size (v lo hi : Z) : Z :=
  if v <? lo then lo else if hi <? v then hi else v.

(** [strcmp(a, b) == 0]. *)
Definition streq (a b : string) : bool := String.eqb a b.

Definition pattern_name (p : Pattern) : string :=
  if p =? PATTERN_RANDOM then "random"
  else if p =? PATTERN_SEQUENTIAL then "seq"
  else if p =? PATTERN_REVERSE then "reverse"
  else if p =? PATTERN_STRIDE then "stride"
  else if p =? PATTERN_INTERLEAVE then "interleave"
  else if p =? PATTERN_GRAY then "gray"
  else if p =? PATTERN_BITREVERSE then "bitrev"
  else "random".

Definition parse_pattern (s : string) : Pattern :=
  if streq s "random" then PATTERN_RANDOM
  else if streq s "seq" || streq s "sequential" then PATTERN_SEQUENTIAL
  else if streq s "reverse" then PATTERN_REVERSE
  else if streq s "stride" then PATTERN_STRIDE
  else if streq s "interleave" then PATTERN_INTERLEAVE
  else if streq s "gray" || streq s "graycode" then PATTERN_GRAY
  else if streq s "bitrev" || streq s "bitreverse" then PATTERN_BITREVERSE
  else PATTERN_RANDOM.

(** [(unsigned)v] for an [unsigned long] [v]. *)
Definition to_unsigned (v : Z) : Z := v mod 2 ^ 32.

(** The test [strcmp(argv[i], name) == 0 && i + 1 < argc] of [parse_args]:
    the argument that follows, when the test holds. *)
Definition flag_value (a name : string) (next : option string) : option string :=
  if streq a name then next else None.

Definition set_min_bytes (v : Z) (o : Options) : Options :=
  mkOptions v (max_bytes o) (node_stride o) (warmup_iters o) (target_ms o) (repeats o)
    (print_table o) (pattern o) (pattern_arg o).
Definition set_max_bytes (v : Z) (o : Options) : Options :=
  mkOptions (min_bytes o) v (node_stride o) (warmup_iters o) (target_ms o) (repeats o)
    (print_table o) (pattern o) (pattern_arg o).
Definition set_node_stride (v : Z) (o : Options) : Options :=
  mkOptions (min_bytes o) (max_bytes o) v (warmup_iters o) (target_ms o) (repeats o)
    (print_table o) (pattern o) (pattern_arg o).
Definition set_target_ms (v : Z) (o : Options) : Options :=
  mkOptions (min_bytes o) (max_bytes o) (node_stride o) (warmup_iters o) v (repeats o)
    (print_table o) (pattern o) (pattern_arg o).
Definition set_repeats (v : Z) (o : Options) : Options :=
  mkOptions (min_bytes o) (max_bytes o) (node_stride o) (warmup_iters o) (target_ms o) v
    (print_table o) (pattern o) (pattern_arg o).
Definition set_print_table (v : bool) (o : Options) : Options :=
  mkOptions (min_bytes o) (max_bytes o) (node_stride o) (warmup_iters o) (target_ms o)
    (repeats o) v (pattern o) (pattern_arg o).
Definition set_pattern (v : Pattern) (o : Options) : Options :=
  mkOptions (min_bytes o) (max_bytes o) (node_stride o) (warmup_iters o) (target_ms o)
    (repeats o) (print_table o) v (pattern_arg o).
Definition set_pattern_arg (v : Z) (o : Options) : Options :=
  mkOptions (min_bytes o) (max_bytes o) (node_stride o) (warmup_iters o) (target_ms o)
    (repeats o) (print_table o) (pattern o) v.

Section ParseArgs.

(** [strtoull(s, NULL, 0)] and [strtoul(s, NULL, 0)], which the C library
    provides. *)
Variable strtoull : string -> Z.
Variable strtoul : string -> Z.

(** The body of the argument loop at [argv[i] = a]; [next] is [argv[i + 1]]
    when [i + 1 < argc].  The result is the options and whether [next] was
    taken as a value, or the exit status after [--help]. *)
Definition parse_flag (a : string) (next : option string) (o : Options)
    : (Options * bool) + Z :=
  match flag_value a "--min-bytes" next with
  | Some s =>
      let v := strtoull s in
      let v := if Word.SIZE_MAX <? v then Word.SIZE_MAX else v in
      inl (set_min_bytes v o, true)
  | None =>
  match flag_value a "--max-bytes" next with
  | Some s =>
      let v := strtoull s in
      let v := if Word.SIZE_MAX <? v then Word.SIZE_MAX else v in
      inl (set_max_bytes v o, true)
  | None =>
  match flag_value a "--node-stride" next with
  | Some s => inl (set_node_stride (strtoull s) o, true)
  | None =>
  match flag_value a "--target-ms" next with
  | Some s => inl (set_target_ms (to_unsigned (strtoul s)) o, true)
  | None =>
  match flag_value a "--repeats" next with
  | Some s => inl (set_repeats (to_unsigned (strtoul s)) o, true)
  | None =>
  match (if streq a "--pattern" || streq a "-p" then next else None) with
  | Some s => inl (set_pattern (parse_pattern s) o, true)
  | None =>
  match flag_value a "--pattern-arg" next with
  | Some s => inl (set_pattern_arg (strtoull s) o, true)
  | None =>
      if streq a "--no-table" then inl (set_print_table false o, false)
      else if streq a "-h" || streq a "--help" then inr 0
      else inl (o, false)
  end end end end end end end.

(** [for (int i = 1; i < argc; ++i)] over the arguments from [argv[i]] on. *)
Fixpoint parse_loop (args : list string) (o : Options) : Options + Z :=
  match args with
  | [] => inl o
  | a :: rest =>
      match parse_flag a (head rest) o with
      | inr status => inr status
      | inl (o, taken) =>
          match rest with
          | _ :: after => if taken then parse_loop after o else parse_loop rest o
          | [] => inl o
          end
      end
  end.

Definition GiB4 : Z := 4 * 1024 * 1024 * 1024.

(** The sanity bounds at the end of [parse_args]. *)
Definition sanity_bounds (o : Options) : Options :=
  let o := set_min_bytes
             (clamp_size (min_bytes o) (Word.mul (node_stride o) 2) (max_bytes o)) o in
  let hi := if Word.SIZE_MAX <? GiB4 then Word.SIZE_MAX else GiB4 in
  set_max_bytes (clamp_size (max_bytes o) (min_bytes o) hi) o.

(** [parse_args]: the options, or the status of [exit]. *)
Definition parse_args (argv : list string) : Options + Z :=
  match parse_loop (tail argv) default_options with
  | inl o => inl (sanity_bounds o)
  | inr status => inr status
  end.

End ParseArgs.

(** [cmp_size_t] on the two values pointed to. *)
Definition cmp_size_t (a b : Z) : Z :=
  if a <? b then -1 else if b <? a then 1 else 0.

(** ** Allocation in [main] *)

(** The loop that retries [posix_memalign] with the next smaller size.
    [memalign_ok k size] tells whether the call number [k] of
    [posix_memalign], for [size] bytes, gives a buffer; [ok] is the outcome of
    the last call made and [calls] the number of calls made. *)
Fixpoint alloc_retry (memalign_ok : nat -> Z -> bool) (sizes : list Z)
    (alloc_idx : nat) (calls : nat) (ok : bool) : nat * bool :=
  if ok then (alloc_idx, ok)
  else
    match alloc_idx with
    | O => (alloc_idx, ok)
    | S idx => alloc_retry memalign_ok sizes idx (S calls)
                 (memalign_ok calls (nth idx sizes 0))
    end.

(** [while (num_sizes > 0 && sizes[num_sizes - 1] > alloc_bytes) num_sizes--;] *)
Fixpoint trim_sizes (sizes : list Z) (num_sizes : nat) (alloc_bytes : Z) : nat :=
  match num_sizes with
  | O => O
  | S k =>
      if alloc_bytes <? nth k sizes 0 then trim_sizes sizes k alloc_bytes
      else num_sizes
  end.

(** Lines 501-531 of [main]: the buffer size, the sizes kept and the length
    of the [perm] array; [None] where [main] returns 1. *)
Definition main_alloc (memalign_ok : nat -> Z -> bool) (node_stride : Z) (sizes : list Z)
    : option (Z * list Z * Z) :=
  let num_sizes := length sizes in
  if Nat.eqb num_sizes 0 then None
  else
    let alloc_idx := (num_sizes - 1)%nat in
    let '(alloc_idx, ok) :=
      alloc_retry memalign_ok sizes alloc_idx 1 (memalign_ok 0%nat (nth alloc_idx sizes 0)) in
    if ok then
      let alloc_bytes := nth alloc_idx sizes 0 in
      let num_sizes := trim_sizes sizes num_sizes alloc_bytes in
      Some (alloc_bytes, take num_sizes sizes, alloc_bytes / node_stride)
    else None.

(** ** What the boundary detector keeps true *)

(** [b] is what the detector writes for a jump found at index [j]. *)
Definition boundary_at (samples : list Sample) (j : Z) (b : Boundary) : Prop :=
  approx_size_bytes b = working_set_bytes (sample_at samples (j - 1))
  /\ Dbl.gt (ratio b) jump_threshold = true.

(** Every index is at least two past the one before it; [prev] comes before
    the first. *)
Fixpoint spaced (prev : Z) (idxs : list Z) : Prop :=
  match idxs with
  | [] => True
  | j :: idxs' => prev + 2 <= j /\ spaced j idxs'
  end.

(** The state of the loop of [detect_boundaries] before index [i], when the
    jumps found so far are at [idxs]. *)
Definition detect_inv (samples : list Sample) (out_cap i : Z) (st : DetectState)
    (idxs : list Z) : Prop :=
  found st = Z.of_nat (length idxs)
  /\ last_boundary_idx st = default 0 (last idxs)
  /\ spaced 0 idxs
  /\ Forall (fun j => j < i) idxs
  /\ Forall2 (boundary_at samples) (take (Z.to_nat out_cap) idxs) (out st).

(** ** The stride order in closed form *)

(** Entry [t] of the stride order: with [m = n / gcd(n, k)] the length of an
    orbit, orbit number [t / m] starts at the index [t / m], and the entry is
    [t mod m] steps of [k] further on. *)
Definition stride_entry (n k t : Z) : Z :=
  let m := n / Z.gcd n k in
  (t / m + (t mod m) * k) mod n.

(** The ranges of the fields that [parse_args] fills. *)
Definition options_in_range (o : Options) : Prop :=
  Word.in_range (min_bytes o) /\ Word.in_range (max_bytes o)
  /\ Word.in_range (node_stride o) /\ warmup_iters o = 3
  /\ 0 <= target_ms o < 2 ^ 32 /\ 0 <= repeats o < 2 ^ 32
  /\ 0 <= pattern o <= 6 /\ Word.in_range (pattern_arg o).

(** ** The sizes that the generator tries *)

(** At the power of two [2^e] the generator tries [2^e (8 + j) / 8]: [j = 0]
    and [j = 4] always, [j = 2] and [j = 6] up to 1 MiB, the odd [j] up to
    128 KiB. *)
Definition size_choice (e j : Z) : Prop :=
  j = 0 \/ j = 4 \/ ((j = 2 \/ j = 6) /\ e <= 20)
  \/ ((j = 1 \/ j = 3 \/ j = 5 \/ j = 7) /\ e <= 17).

Definition size_value (e j : Z) : Z := 2 ^ e + j * 2 ^ (e - 3).

(** The options after the argument loop for
    [--min-bytes 16384 --max-bytes 4096 --node-stride 4096]. *)
Definition small_max_options : Options :=
  set_node_stride 4096 (set_max_bytes 4096 (set_min_bytes 16384 default_options)).

(** A run of [emit]s, first to last: each entry is the condition and the
    value of one. *)
Fixpoint emit_all (out_cap : Z) (tries : list (bool * Z)) (out : list Z) : list Z :=
  match tries with
  | [] => out
  | (cond, v) :: tries' => emit_all out_cap tries' (emit out_cap cond v out)
  end.

(** ** Reading a trace of the Measurer *)

Definition is_probe (ev : Event) : bool :=
  match ev with EvProbe _ _ => true | _ => false end.

Definition is_measure (ev : Event) : bool :=
  match ev with EvMeasure _ _ => true | _ => false end.

(** [ns_per] of a measured chase: [(double)dt / (double)steps]. *)
Definition measured_ns (ev : Event) : option float :=
  match ev with
  | EvMeasure steps dt => Some (PrimFloat.div (Dbl.of_Z dt) (Dbl.of_Z steps))
  | _ => None
  end.

(** The number of events of a trace that [f] selects. *)
Definition count_events (f : Event -> bool) (evs : list Event) : nat :=
  length (List.filter f evs).


(** * Proofs *)

(** ** PRNG *)


Lemma wrap_range x : Word.in_range (Word.wrap x).
Proof. unfold Word.in_range, Word.wrap, Word.modulus. apply Z.mod_pos_bound. lia. Qed.

Lemma wrap_small x : Word.in_range x -> Word.wrap x = x.
Proof. unfold Word.in_range, Word.wrap. intros. by apply Z.mod_small. Qed.

Lemma wrap_lxor a b : Word.wrap (Z.lxor a b) = Z.lxor (Word.wrap a) (Word.wrap b).
Proof.
  unfold Word.wrap, Word.modulus. apply Z.bits_inj'. intros i Hi.
  rewrite Z.lxor_spec, !Z.testbit_mod_pow2 by lia.
  rewrite Z.lxor_spec. by destruct (i <? 64).
Qed.

Lemma lxor_range a b : Word.in_range a -> Word.in_range b -> Word.in_range (Z.lxor a b).
Proof.
  intros Ha Hb. rewrite <- (wrap_small a Ha), <- (wrap_small b Hb), <- wrap_lxor.
  apply wrap_range.
Qed.

Lemma shr_range a k : 0 <= k -> Word.in_range a -> Word.in_range (Word.shr a k).
Proof.
  unfold Word.in_range, Word.shr. intros Hk [H0 H1]. rewrite Z.shiftr_div_pow2 by done.
  split; [apply Z.div_pos; lia|].
  apply Z.le_lt_trans with a; [|done]. apply Z.div_le_upper_bound; [lia|]. nia.
Qed.

Lemma xorshift_range s : Word.in_range s -> Word.in_range (xorshift s).
Proof.
  intros Hs. unfold xorshift.
  repeat first [apply lxor_range | apply shr_range | apply wrap_range | done | lia].
Qed.

Lemma xorshift_steps s : xorshift s = xsr 27 (xsl 25 (xsr 12 s)).
Proof. reflexivity. Qed.

Lemma testbit_shl x k i : 0 <= k -> Z.testbit (Z.shiftl x k) i = Z.testbit x (i - k).
Proof.
  intros Hk. destruct (Z.lt_ge_cases i 0) as [Hi|Hi].
  - rewrite !Z.testbit_neg_r; [done|lia|lia].
  - by apply Z.shiftl_spec.
Qed.

Lemma testbit_wrap x i : Z.testbit (Word.wrap x) i = (i <? 64) && Z.testbit x i.
Proof. unfold Word.wrap, Word.modulus. by rewrite Z.testbit_mod_pow2. Qed.

Lemma testbit_high x i : Word.in_range x -> 64 <= i -> Z.testbit x i = false.
Proof.
  intros Hx Hi. rewrite <- (wrap_small x Hx), testbit_wrap.
  by replace (i <? 64) with false by lia.
Qed.

Lemma testbit_xsr k x i : 0 <= i -> Z.testbit (xsr k x) i = xorb (Z.testbit x i) (Z.testbit x (i + k)).
Proof. intros. unfold xsr, Word.shr. by rewrite Z.lxor_spec, Z.shiftr_spec. Qed.

Lemma testbit_xsl k x i :
  0 <= k -> Z.testbit (xsl k x) i = xorb (Z.testbit x i) ((i <? 64) && Z.testbit x (i - k)).
Proof. intros. unfold xsl, Word.shl. by rewrite Z.lxor_spec, testbit_wrap, testbit_shl. Qed.

Lemma xsr_xsr k x : 0 <= k -> xsr k (xsr k x) = xsr (2 * k) x.
Proof.
  intros Hk. apply Z.bits_inj'. intros i Hi.
  rewrite !testbit_xsr by lia. replace (i + k + k) with (i + 2 * k) by lia.
  by destruct (Z.testbit x i), (Z.testbit x (i + k)), (Z.testbit x (i + 2 * k)).
Qed.

Lemma xsr_comm j k x : 0 <= j -> 0 <= k -> xsr j (xsr k x) = xsr k (xsr j x).
Proof.
  intros Hj Hk. apply Z.bits_inj'. intros i Hi.
  rewrite !testbit_xsr by lia. replace (i + k + j) with (i + j + k) by lia.
  by destruct (Z.testbit x i), (Z.testbit x (i + k)), (Z.testbit x (i + j)),
    (Z.testbit x (i + j + k)).
Qed.

Lemma xsr_big k x : Word.in_range x -> 64 <= k -> xsr k x = x.
Proof.
  intros Hx Hk. apply Z.bits_inj'. intros i Hi.
  rewrite testbit_xsr, (testbit_high x (i + k)) by (done || lia).
  by destruct (Z.testbit x i).
Qed.

Lemma xsl_xsl k x : 0 <= k -> xsl k (xsl k x) = xsl (2 * k) x.
Proof.
  intros Hk. apply Z.bits_inj'. intros i Hi.
  rewrite !testbit_xsl by lia. replace (i - k - k) with (i - 2 * k) by lia.
  destruct (Z.ltb_spec i 64); simpl; [|by rewrite !xorb_false_r].
  replace (i - k <? 64) with true by lia. simpl.
  by destruct (Z.testbit x i), (Z.testbit x (i - k)), (Z.testbit x (i - 2 * k)).
Qed.

Lemma xsl_comm j k x : 0 <= j -> 0 <= k -> xsl j (xsl k x) = xsl k (xsl j x).
Proof.
  intros Hj Hk. apply Z.bits_inj'. intros i Hi.
  rewrite !testbit_xsl by lia. replace (i - k - j) with (i - j - k) by lia.
  destruct (Z.ltb_spec i 64); simpl; [|by rewrite !xorb_false_r].
  replace (i - k <? 64) with true by lia. replace (i - j <? 64) with true by lia. simpl.
  by destruct (Z.testbit x i), (Z.testbit x (i - k)), (Z.testbit x (i - j)),
    (Z.testbit x (i - j - k)).
Qed.

Lemma xsl_big k x : Word.in_range x -> 64 <= k -> xsl k x = x.
Proof.
  intros Hx Hk. apply Z.bits_inj'. intros i Hi.
  rewrite testbit_xsl by lia.
  destruct (Z.ltb_spec i 64); simpl; [|by rewrite xorb_false_r].
  rewrite (Z.testbit_neg_r x (i - k)) by lia. by rewrite xorb_false_r.
Qed.

Lemma xsr_range k x : 0 <= k -> Word.in_range x -> Word.in_range (xsr k x).
Proof. intros. apply lxor_range; [done|by apply shr_range]. Qed.

Lemma xsl_range k x : Word.in_range x -> Word.in_range (xsl k x).
Proof. intros. apply lxor_range; [done|apply wrap_range]. Qed.

Lemma unxorshift_range y : Word.in_range y -> Word.in_range (unxorshift y).
Proof.
  intros Hy. unfold unxorshift.
  repeat first [apply xsr_range | apply xsl_range | done | lia].
Qed.

Lemma unxorshift_xorshift s : Word.in_range s -> unxorshift (xorshift s) = s.
Proof.
  intros Hs. rewrite xorshift_steps. unfold unxorshift.
  rewrite (xsr_xsr 27) by lia. rewrite (xsr_xsr 54) by lia.
  rewrite (xsr_big (2 * 54)) by (repeat first [apply xsr_range | apply xsl_range | done | lia]).
  rewrite (xsl_xsl 25) by lia. rewrite (xsl_xsl 50) by lia.
  rewrite (xsl_big (2 * 50)) by (repeat first [apply xsr_range | apply xsl_range | done | lia]).
  rewrite (xsr_xsr 12) by lia. rewrite (xsr_xsr 24) by lia. rewrite (xsr_xsr 48) by lia.
  by apply xsr_big; [|lia].
Qed.

Lemma xorshift_unxorshift y : Word.in_range y -> xorshift (unxorshift y) = y.
Proof.
  intros Hy. rewrite xorshift_steps. unfold unxorshift.
  set (a := xsl 50 _).
  assert (Ha : Word.in_range a) by (subst a; repeat first [apply xsr_range | apply xsl_range | done | lia]).
  rewrite (xsr_comm 12 48), (xsr_comm 12 24), (xsr_xsr 12), (xsr_xsr 24), (xsr_xsr 48) by lia.
  rewrite (xsr_big (2 * 48)) by (done || lia). subst a.
  set (b := xsr 54 _).
  assert (Hb : Word.in_range b) by (subst b; repeat first [apply xsr_range | apply xsl_range | done | lia]).
  rewrite (xsl_comm 25 50), (xsl_xsl 25), (xsl_xsl 50) by lia.
  rewrite (xsl_big (2 * 50)) by (done || lia). subst b.
  rewrite (xsr_comm 27 54), (xsr_xsr 27), (xsr_xsr 54) by lia.
  by apply xsr_big; [|lia].
Qed.

Lemma xorshift_zero : xorshift 0 = 0.
Proof. reflexivity. Qed.

Lemma xorshift_inj s1 s2 :
  Word.in_range s1 -> Word.in_range s2 -> xorshift s1 = xorshift s2 -> s1 = s2.
Proof.
  intros H1 H2 E. rewrite <- (unxorshift_xorshift s1 H1), <- (unxorshift_xorshift s2 H2).
  by rewrite E.
Qed.

Lemma xorshift_nonzero s : Word.in_range s -> s <> 0 -> xorshift s <> 0.
Proof.
  intros Hs Hne E. apply Hne. apply xorshift_inj; [done|unfold Word.in_range, Word.modulus; lia|].
  by rewrite xorshift_zero.
Qed.


Ltac word_lia :=
  unfold Word.in_range, Word.modulus, Word.SIZE_MAX in *;
  first [lia | Z.div_mod_to_equations; lia].

(** *** Loops that append *)

Lemma seqZ_succ i (t : nat) : seqZ i (Z.of_nat (S t)) = i :: seqZ (i + 1) (Z.of_nat t).
Proof.
  rewrite seqZ_cons by lia. f_equal. f_equal; lia.
Qed.

Lemma for_loop_snoc (f : Z -> Z) todo : forall i acc,
  for_loop todo i (fun i order => order ++ [f i]) acc = acc ++ (f <$> seqZ i (Z.of_nat todo)).
Proof.
  induction todo as [|t IH]; intros i acc.
  - simpl. by rewrite app_nil_r.
  - rewrite seqZ_succ. simpl. rewrite IH. by rewrite <- app_assoc.
Qed.

Lemma for_loop_snoc2 (f g : Z -> Z) todo : forall i acc,
  for_loop todo i (fun i order => order ++ [f i; g i]) acc
  = acc ++ (seqZ i (Z.of_nat todo) ≫= fun i => [f i; g i]).
Proof.
  induction todo as [|t IH]; intros i acc.
  - simpl. by rewrite app_nil_r.
  - rewrite seqZ_succ. simpl. rewrite IH. by rewrite <- app_assoc.
Qed.

Lemma bind_pair_perm (f g : Z -> Z) (l : list Z) :
  (l ≫= fun i => [f i; g i]) ≡ₚ (f <$> l) ++ (g <$> l).
Proof.
  induction l as [|a l IH]; [done|]. simpl.
  rewrite IH. by rewrite <- Permutation_middle.
Qed.

Lemma fmap_seqZ_ext (f g : Z -> Z) m n :
  (forall x, m <= x < m + n -> f x = g x) -> f <$> seqZ m n = g <$> seqZ m n.
Proof.
  intros H. apply list_fmap_ext. intros i x Hx.
  apply lookup_seqZ in Hx. apply H. lia.
Qed.

(** *** Permutations of [0, n) *)

Lemma perm_range (l : list Z) n :
  NoDup l -> (forall x, x ∈ l -> 0 <= x < n) -> n <= Z.of_nat (length l) -> l ≡ₚ seqZ 0 n.
Proof.
  intros Hnd Hr Hlen. apply submseteq_length_Permutation.
  - apply NoDup_submseteq; [done|]. intros x Hx. apply elem_of_seqZ. specialize (Hr x Hx). lia.
  - rewrite length_seqZ. lia.
Qed.

Lemma perm_fmap_range (f : Z -> Z) n :
  (forall x, 0 <= x < n -> 0 <= f x < n) ->
  (forall x y, 0 <= x < n -> 0 <= y < n -> f x = f y -> x = y) ->
  f <$> seqZ 0 n ≡ₚ seqZ 0 n.
Proof.
  intros Hr Hinj. apply perm_range.
  - apply NoDup_fmap_2_strong; [|apply NoDup_seqZ].
    intros x y Hx Hy. apply elem_of_seqZ in Hx, Hy. apply Hinj; lia.
  - intros y Hy. apply list_elem_of_fmap in Hy as (x & -> & Hx).
    apply elem_of_seqZ in Hx. apply Hr. lia.
  - rewrite length_fmap, length_seqZ. lia.
Qed.

Lemma sub_small a b : Word.in_range a -> 0 <= b <= a -> Word.sub a b = a - b.
Proof. unfold Word.in_range, Word.sub, Word.wrap. intros. apply Z.mod_small. lia. Qed.

Lemma add_small a b : 0 <= a -> 0 <= b -> a + b < Word.modulus -> Word.add a b = a + b.
Proof. unfold Word.add, Word.wrap. intros. apply Z.mod_small. lia. Qed.

Lemma build_order_sequential_eq n : build_order_sequential n = seqZ 0 n.
Proof.
  unfold build_order_sequential, for_upto.
  rewrite (for_loop_snoc (fun i => i)). simpl. rewrite list_fmap_id.
  destruct (Z.le_gt_cases 0 n).
  - by rewrite Z2Nat.id.
  - replace (Z.to_nat n) with 0%nat by lia. simpl. by rewrite (seqZ_nil 0 n) by lia.
Qed.

Lemma build_order_reverse_perm n :
  Word.in_range n -> build_order_reverse n ≡ₚ seqZ 0 n.
Proof.
  intros Hn. unfold build_order_reverse, for_upto. rewrite for_loop_snoc. simpl.
  rewrite Z2Nat.id by word_lia.
  rewrite (fmap_seqZ_ext _ (fun i => n - 1 - i)).
  - apply perm_fmap_range; intros; lia.
  - intros x Hx. rewrite (sub_small n 1) by word_lia.
    apply sub_small; word_lia.
Qed.

Lemma build_order_interleave_perm n :
  Word.in_range n -> build_order_interleave n ≡ₚ seqZ 0 n.
Proof.
  intros Hn. unfold build_order_interleave, for_upto.
  rewrite (for_loop_snoc2 (fun i => i)). simpl.
  assert (Hh : 0 <= n / 2) by (apply Z.div_pos; word_lia).
  rewrite Z2Nat.id by done.
  assert (Hbody : (seqZ 0 (n / 2) ≫= fun i => [i; Word.add i (n / 2)]) ≡ₚ seqZ 0 (2 * (n / 2))).
  { rewrite (bind_pair_perm (fun i => i)). rewrite list_fmap_id.
    rewrite (fmap_seqZ_ext _ (Z.add (n / 2))).
    - rewrite fmap_add_seqZ. replace (2 * (n / 2)) with (n / 2 + n / 2) by lia.
      rewrite seqZ_app by lia. by rewrite !Z.add_0_r.
    - intros x Hx. rewrite add_small; word_lia. }
  replace (Z.land n 1) with (n mod 2) by (symmetry; apply (Z.land_ones n 1); lia).
  pose proof (Z.div_mod n 2 ltac:(lia)) as E.
  pose proof (Z.mod_pos_bound n 2 ltac:(lia)) as B.
  destruct (Z.eqb_spec (n mod 2) 0) as [E0|E0]; simpl.
  - rewrite Hbody. by replace (2 * (n / 2)) with n by lia.
  - rewrite Hbody. rewrite sub_small by (word_lia).
    replace n with (2 * (n / 2) + 1) at 3 by lia.
    rewrite seqZ_app by lia. simpl.
    by replace (n - 1) with (0 + 2 * (n / 2)) by lia.
Qed.

(** *** Gray code *)

Lemma mod_pow2_lxor a b e :
  0 <= e -> (Z.lxor a b) mod 2 ^ e = Z.lxor (a mod 2 ^ e) (b mod 2 ^ e).
Proof.
  intros He. apply Z.bits_inj'. intros i Hi.
  rewrite Z.lxor_spec, !Z.testbit_mod_pow2 by lia.
  rewrite Z.lxor_spec. by destruct (i <? e).
Qed.

Lemma lxor_lt_pow2 a b e :
  0 <= e -> 0 <= a < 2 ^ e -> 0 <= b < 2 ^ e -> 0 <= Z.lxor a b < 2 ^ e.
Proof.
  intros He Ha Hb.
  rewrite <- (Z.mod_small a (2 ^ e)), <- (Z.mod_small b (2 ^ e)) by done.
  rewrite <- mod_pow2_lxor by done. apply Z.mod_pos_bound. lia.
Qed.

Lemma shr1_bound a e : 0 <= a < 2 ^ e -> 0 <= Word.shr a 1 < 2 ^ e.
Proof.
  intros Ha. unfold Word.shr. rewrite Z.shiftr_div_pow2 by lia.
  change (2 ^ 1) with 2. split; [apply Z.div_pos; lia|].
  apply Z.div_lt_upper_bound; lia.
Qed.

Lemma gray_inj x y : 0 <= x -> 0 <= y -> xsr 1 x = xsr 1 y -> x = y.
Proof.
  intros Hx Hy E. apply Z.lxor_eq.
  assert (Hd : 0 <= Z.lxor x y) by (apply Z.lxor_nonneg; lia).
  assert (E2 : Z.lxor x y = Z.shiftr (Z.lxor x y) 1).
  { apply Z.lxor_eq. rewrite Z.shiftr_lxor.
    transitivity (Z.lxor (xsr 1 x) (xsr 1 y)); [|rewrite E; apply Z.lxor_nilpotent].
    unfold xsr, Word.shr. apply Z.bits_inj'. intros i Hi. rewrite !Z.lxor_spec.
    by destruct (Z.testbit x i), (Z.testbit y i), (Z.testbit (Z.shiftr x 1) i),
      (Z.testbit (Z.shiftr y 1) i). }
  rewrite Z.shiftr_div_pow2 in E2 by lia. change (2 ^ 1) with 2 in E2. word_lia.
Qed.

Lemma shl1_pow2 e : 0 <= e < 63 -> Word.shl (2 ^ e) 1 = 2 ^ (e + 1).
Proof.
  intros He. unfold Word.shl, Word.wrap, Word.modulus.
  rewrite Z.shiftl_mul_pow2 by lia. rewrite <- Z.pow_add_r by lia.
  apply Z.mod_small. split; [lia|]. apply Z.pow_lt_mono_r; lia.
Qed.

Lemma shl1_pow2_top : Word.shl (2 ^ 63) 1 = 0.
Proof. reflexivity. Qed.

(** The loop stops, within [63 - e] rounds from [2^e], at the largest power
    of two that is at most [bound] (or at [2^63]). *)
Lemma pow2_floor_loop_eq fuel m bound :
  pow2_floor_loop fuel m bound =
  if (m <? Word.shl m 1) && (Word.shl m 1 <=? bound) then
    match fuel with
    | O => None
    | S fuel' => pow2_floor_loop fuel' (Word.shl m 1) bound
    end
  else Some m.
Proof. by destruct fuel. Qed.

Lemma pow2_floor_loop_spec fuel : forall e bound,
  0 <= e <= 63 -> (63 - e <= Z.of_nat fuel) -> 2 ^ e <= bound ->
  exists e', pow2_floor_loop fuel (2 ^ e) bound = Some (2 ^ e')
             /\ e <= e' <= 63 /\ 2 ^ e' <= bound /\ (e' = 63 \/ bound < 2 ^ (e' + 1)).
Proof.
  induction fuel as [|fuel IH]; intros e bound He Hf Hb; rewrite pow2_floor_loop_eq.
  - assert (e = 63) as -> by lia. exists 63. rewrite shl1_pow2_top.
    replace (2 ^ 63 <? 0) with false by lia. simpl. repeat split; (done || lia).
  - destruct (Z.eq_dec e 63) as [->|Hne].
    + exists 63. rewrite shl1_pow2_top.
      replace (2 ^ 63 <? 0) with false by lia. simpl. repeat split; (done || lia).
    + rewrite shl1_pow2 by lia.
      assert (2 ^ e < 2 ^ (e + 1)) by (apply Z.pow_lt_mono_r; lia).
      replace (2 ^ e <? 2 ^ (e + 1)) with true by lia. simpl.
      destruct (Z.leb_spec (2 ^ (e + 1)) bound).
      * destruct (IH (e + 1) bound) as (e' & E & ? & ? & ?); [lia|lia|done|].
        exists e'. repeat split; (done || lia).
      * exists e. repeat split; (done || lia).
Qed.

Lemma build_order_gray_perm n :
  0 < n < Word.modulus -> exists order, build_order_gray n = Some order /\ order ≡ₚ seqZ 0 n.
Proof.
  intros Hn. unfold build_order_gray. replace (n =? 0) with false by lia.
  destruct (pow2_floor_loop_spec loop_fuel 0 n) as (e & E & He & Hle & _);
    [lia|unfold loop_fuel; lia|simpl; lia|].
  change (2 ^ 0) with 1 in E. rewrite E. simpl. eexists. split; [done|].
  unfold for_upto. rewrite (for_loop_snoc (fun i => i)), for_loop_snoc. simpl.
  rewrite list_fmap_id.
  assert (0 < 2 ^ e) by (apply Z.pow_pos_nonneg; lia).
  rewrite !Z2Nat.id by lia.
  rewrite (perm_fmap_range (fun i => Z.lxor i (Word.shr i 1))).
  - replace n with (2 ^ e + (n - 2 ^ e)) at 2 by lia.
    rewrite (seqZ_app 0) by lia. by rewrite Z.add_0_l.
  - intros x Hx. apply lxor_lt_pow2; [lia|done|by apply shr1_bound].
  - intros x y Hx Hy. apply gray_inj; lia.
Qed.

(** *** Bit reversal *)

Lemma testbit_one j : 0 <= j -> Z.testbit 1 j = (j =? 0).
Proof.
  intros Hj. destruct (Z.eqb_spec j 0) as [->|Hne]; [done|].
  apply Z.bits_above_log2; simpl; lia.
Qed.

Lemma testbit_mod_small x e j : 0 <= x < 2 ^ e -> e <= j -> Z.testbit x j = false.
Proof.
  intros Hx Hj. rewrite <- (Z.mod_small x (2 ^ e)) by done.
  destruct (Z.lt_ge_cases e 0); [|rewrite Z.testbit_mod_pow2 by lia].
  - rewrite Z.pow_neg_r in Hx; lia.
  - by replace (j <? e) with false by lia.
Qed.

Lemma lt_pow2_of_bits y e :
  0 <= e -> (forall j, 0 <= j -> Z.testbit y j = (j <? e) && Z.testbit y j) -> 0 <= y < 2 ^ e.
Proof.
  intros He H. replace y with (y mod 2 ^ e); [apply Z.mod_pos_bound; lia|].
  apply Z.bits_inj'. intros j Hj. rewrite Z.testbit_mod_pow2 by lia. by rewrite <- H.
Qed.

Lemma rbl_loop_bits x todo : forall i r,
  0 <= i -> i + Z.of_nat todo <= 64 ->
  (forall j, 0 <= j -> Z.testbit r j = (j <? i) && Z.testbit x (i - 1 - j)) ->
  forall j, 0 <= j ->
    Z.testbit (for_loop todo i (rbl_body x) r) j
    = (j <? i + Z.of_nat todo) && Z.testbit x (i + Z.of_nat todo - 1 - j).
Proof.
  induction todo as [|t IH]; intros i r Hi Hle Hr j Hj.
  - simpl. rewrite Z.add_0_r. by apply Hr.
  - simpl for_loop. rewrite IH; [|lia|lia| |done].
    + by replace (i + 1 + Z.of_nat t) with (i + Z.of_nat (S t)) by lia.
    + clear j Hj. intros j Hj. unfold rbl_body.
      rewrite Z.lor_spec, Z.land_spec. unfold Word.shl, Word.shr.
      rewrite testbit_wrap, testbit_shl, Z.shiftr_spec, testbit_one by lia.
      destruct (Z.eqb_spec j 0) as [->|Hne].
      * rewrite (Z.testbit_neg_r r) by lia. simpl.
        replace (0 <? i + 1) with true by lia. simpl.
        rewrite andb_true_r. f_equal. lia.
      * rewrite andb_false_r, orb_false_r. rewrite Hr by lia.
        replace (i - 1 - (j - 1)) with (i + 1 - 1 - j) by lia.
        destruct (Z.ltb_spec (j - 1) i), (Z.ltb_spec j (i + 1)), (Z.ltb_spec j 64);
          simpl; (done || lia).
Qed.

Lemma rbl_bits x bits j :
  0 <= bits <= 64 -> 0 <= j ->
  Z.testbit (reverse_bits_limited x bits) j = (j <? bits) && Z.testbit x (bits - 1 - j).
Proof.
  intros Hb Hj. unfold reverse_bits_limited, for_upto.
  rewrite (rbl_loop_bits x (Z.to_nat bits) 0 0); [|lia|lia| |done].
  - rewrite Z2Nat.id by lia. by rewrite !Z.add_0_l.
  - intros k Hk. rewrite Z.bits_0. by replace (k <? 0) with false by lia.
Qed.

Lemma rbl_range x bits : 0 <= bits <= 64 -> 0 <= reverse_bits_limited x bits < 2 ^ bits.
Proof.
  intros Hb. apply lt_pow2_of_bits; [lia|]. intros j Hj.
  rewrite rbl_bits by done. by destruct (j <? bits).
Qed.

Lemma rbl_involutive x bits :
  0 <= bits <= 64 -> 0 <= x < 2 ^ bits ->
  reverse_bits_limited (reverse_bits_limited x bits) bits = x.
Proof.
  intros Hb Hx. apply Z.bits_inj'. intros j Hj. rewrite rbl_bits by done.
  destruct (Z.ltb_spec j bits); simpl.
  - rewrite rbl_bits by lia. replace (bits - 1 - j <? bits) with true by lia. simpl.
    f_equal. lia.
  - symmetry. by apply (testbit_mod_small x bits).
Qed.

Lemma bit_count_loop_eq fuel bits tmp :
  bit_count_loop fuel bits tmp =
  if 0 <? tmp then
    match fuel with
    | O => None
    | S fuel' => bit_count_loop fuel' (bits + 1) (Word.shr tmp 1)
    end
  else Some bits.
Proof. by destruct fuel. Qed.

Lemma bit_count_loop_spec fuel : forall k bits tmp,
  0 <= k <= Z.of_nat fuel -> 0 <= tmp < 2 ^ k ->
  exists b, bit_count_loop fuel bits tmp = Some (bits + b) /\ 0 <= b <= k /\ tmp < 2 ^ b.
Proof.
  induction fuel as [|fuel IH]; intros k bits tmp Hk Ht; rewrite bit_count_loop_eq.
  - assert (k = 0) as -> by lia. change (2 ^ 0) with 1 in Ht.
    replace (0 <? tmp) with false by lia. exists 0. rewrite Z.add_0_r.
    split; [done|]. simpl. lia.
  - destruct (Z.ltb_spec 0 tmp).
    + assert (k <> 0) by (intros ->; change (2 ^ 0) with 1 in Ht; lia).
      assert (E : 2 ^ k = 2 * 2 ^ (k - 1)).
      { rewrite <- Z.pow_succ_r by lia. f_equal. lia. }
      destruct (IH (k - 1) (bits + 1) (Word.shr tmp 1)) as (b & Eb & Hb & Hlt); [lia| |].
      * unfold Word.shr. rewrite Z.shiftr_div_pow2 by lia. change (2 ^ 1) with 2.
        split; [apply Z.div_pos; lia|]. apply Z.div_lt_upper_bound; lia.
      * exists (b + 1). rewrite Eb. split; [f_equal; lia|]. split; [lia|].
        unfold Word.shr in Hlt. rewrite Z.shiftr_div_pow2 in Hlt by lia.
        change (2 ^ 1) with 2 in Hlt. rewrite Z.pow_add_r by lia. change (2 ^ 1) with 2.
        word_lia.
    + exists 0. rewrite Z.add_0_r. split; [done|]. simpl. lia.
Qed.

Lemma bitrev_loop_take n bits todo : forall i order,
  Z.of_nat (length order) < n ->
  bitrev_loop todo i n bits order
  = order ++ take (Z.to_nat n - length order)
               (filter (fun y => y < n)
                  ((fun x => reverse_bits_limited x bits) <$> seqZ i (Z.of_nat todo))).
Proof.
  induction todo as [|t IH]; intros i order Hlen.
  - simpl. rewrite filter_nil, take_nil. by rewrite app_nil_r.
  - rewrite seqZ_succ. simpl bitrev_loop. rewrite fmap_cons, filter_cons.
    destruct (Z.ltb_spec (reverse_bits_limited i bits) n).
    + rewrite decide_True by done.
      destruct (Z.eqb_spec (Z.of_nat (length (order ++ [reverse_bits_limited i bits]))) n)
        as [E|E]; rewrite length_app in E; simpl in E.
      * replace (Z.to_nat n - length order)%nat with 1%nat by lia. simpl. by rewrite take_0.
      * rewrite IH by (rewrite length_app; simpl; lia).
        rewrite length_app. simpl. rewrite <- app_assoc. simpl.
        replace (Z.to_nat n - length order)%nat
          with (S (Z.to_nat n - (length order + 1)))%nat by lia.
        done.
    + rewrite decide_False by lia.
      replace (Z.of_nat (length order) =? n) with false by lia. by apply IH.
Qed.

Lemma filter_lt_seqZ n L : 0 <= n <= L -> filter (fun y => y < n) (seqZ 0 L) ≡ₚ seqZ 0 n.
Proof.
  intros H. apply NoDup_Permutation.
  - apply NoDup_filter, NoDup_seqZ.
  - apply NoDup_seqZ.
  - intros x. rewrite list_elem_of_filter, !elem_of_seqZ. lia.
Qed.

Lemma build_order_bitrev_perm n :
  0 < n <= 2 ^ 63 -> exists order, build_order_bitrev n = Some order /\ order ≡ₚ seqZ 0 n.
Proof.
  intros Hn. unfold build_order_bitrev. replace (n =? 0) with false by lia.
  rewrite sub_small by word_lia.
  destruct (bit_count_loop_spec loop_fuel 63 0 (n - 1)) as (b & E & Hb & Hlt);
    [unfold loop_fuel; lia|lia|].
  rewrite Z.add_0_l in E. rewrite E. cbn [mbind option_bind]. eexists. split; [done|].
  assert (Hlim : Word.shl 1 b = 2 ^ b).
  { unfold Word.shl, Word.wrap, Word.modulus. rewrite Z.shiftl_1_l.
    apply Z.mod_small. split; [lia|]. apply Z.pow_lt_mono_r; lia. }
  rewrite Hlim. assert (0 < 2 ^ b) by (apply Z.pow_pos_nonneg; lia).
  rewrite bitrev_loop_take by (simpl; lia). simpl. rewrite Z2Nat.id by lia.
  assert (P : filter (fun y => y < n) ((fun x => reverse_bits_limited x b) <$> seqZ 0 (2 ^ b))
              ≡ₚ seqZ 0 n).
  { rewrite perm_fmap_range.
    - apply filter_lt_seqZ. lia.
    - intros x Hx. apply rbl_range. lia.
    - intros x y Hx Hy Exy. rewrite <- (rbl_involutive x b), <- (rbl_involutive y b) by lia.
      by rewrite Exy. }
  rewrite Nat.sub_0_r. rewrite take_ge; [done|].
  rewrite (Permutation_length P), length_seqZ. lia.
Qed.

(** *** Stride *)

Lemma range_nodup_length (l : list Z) n :
  NoDup l -> (forall x, x ∈ l -> 0 <= x < n) -> (length l <= Z.to_nat n)%nat.
Proof.
  intros Hnd Hr. rewrite <- (length_seqZ 0 n). apply submseteq_length.
  apply NoDup_submseteq; [done|]. intros x Hx. apply elem_of_seqZ. specialize (Hr x Hx). lia.
Qed.

Lemma range_covered_length (l : list Z) n :
  (forall j, 0 <= j < n -> j ∈ l) -> (Z.to_nat n <= length l)%nat.
Proof.
  intros H. rewrite <- (length_seqZ 0 n). apply submseteq_length.
  apply NoDup_submseteq; [apply NoDup_seqZ|]. intros x Hx. apply elem_of_seqZ in Hx.
  apply H. lia.
Qed.

Lemma first_unvisited_from_spec acc todo : forall j,
  let r := first_unvisited_from todo j acc in
  j <= r <= j + Z.of_nat todo
  /\ (forall x, j <= x < r -> x ∈ acc)
  /\ (r < j + Z.of_nat todo -> r ∉ acc).
Proof.
  induction todo as [|t IH]; intros j; simpl.
  - split; [lia|]. split; intros; lia.
  - destruct (decide (j ∈ acc)) as [Hin|Hnin].
    + destruct (IH (j + 1)) as (H1 & H2 & H3). split; [lia|]. split.
      * intros x Hx. destruct (Z.eq_dec x j) as [->|]; [done|]. apply H2. lia.
      * intros Hlt. apply H3. lia.
    + split; [lia|]. split; [intros; lia|done].
Qed.

Lemma first_unvisited_from_skip acc m : forall (d : nat) j,
  (forall x, j <= x < j + Z.of_nat d -> x ∈ acc) ->
  first_unvisited_from (d + m) j acc = first_unvisited_from m (j + Z.of_nat d) acc.
Proof.
  induction d as [|d IH]; intros j H.
  - simpl. f_equal. lia.
  - simpl first_unvisited_from. rewrite decide_True by (apply H; lia).
    rewrite IH by (intros; apply H; lia). f_equal. lia.
Qed.

Lemma first_unvisited_shift acc n start :
  0 <= start <= n -> (forall x, 0 <= x < start -> x ∈ acc) ->
  first_unvisited acc n = first_unvisited_from (Z.to_nat (n - start)) start acc.
Proof.
  intros Hs H. unfold first_unvisited.
  replace (Z.to_nat n) with (Z.to_nat start + Z.to_nat (n - start))%nat by lia.
  rewrite first_unvisited_from_skip by (intros; apply H; lia). f_equal. lia.
Qed.

Lemma first_unvisited_spec acc n :
  0 <= n ->
  let r := first_unvisited acc n in
  0 <= r <= n /\ (forall x, 0 <= x < r -> x ∈ acc) /\ (r < n -> r ∉ acc).
Proof.
  intros Hn. destruct (first_unvisited_from_spec acc (Z.to_nat n) 0) as (H1 & H2 & H3).
  unfold first_unvisited. simpl. split; [lia|]. split; [done|]. intros. apply H3. lia.
Qed.

Lemma first_unvisited_lt acc n :
  0 <= n -> (length acc < Z.to_nat n)%nat ->
  0 <= first_unvisited acc n < n /\ first_unvisited acc n ∉ acc.
Proof.
  intros Hn Hlen. destruct (first_unvisited_spec acc n Hn) as (H1 & H2 & H3).
  destruct (Z.eq_dec (first_unvisited acc n) n) as [E|E].
  - rewrite E in H2. pose proof (range_covered_length acc n H2). lia.
  - split; [lia|]. apply H3. lia.
Qed.

Section Stride.

Variables (n k : Z) (nxt : Z -> Z).
Hypothesis n_pos : 0 < n.
Hypothesis nxt_code : forall i, 0 <= i < n -> Word.add i k mod n = nxt i.

Lemma nxt_range i : 0 <= i < n -> 0 <= nxt i < n.
Proof. intros Hi. rewrite <- nxt_code by done. apply Z.mod_pos_bound. lia. Qed.

Lemma stride_inv_snoc order visited i :
  stride_inv n order visited -> 0 <= i < n -> i ∉ order ->
  stride_inv n (order ++ [i]) (<[Z.to_nat i := true]> visited).
Proof.
  intros (Hl & Hnd & Hr & Hv) Hi Hni. split; [by rewrite length_insert|]. split; [|split].
  - apply NoDup_app. split; [done|]. split; [|apply NoDup_singleton].
    intros x Hx ->%list_elem_of_singleton. done.
  - intros x [Hx| ->%list_elem_of_singleton]%elem_of_app; [by apply Hr|done].
  - intros j Hj. unfold visited_at. destruct (Z.eq_dec j i) as [->|Hne].
    + rewrite list_lookup_insert_eq by lia. f_equal. symmetry. apply bool_decide_eq_true.
      apply elem_of_app. right. by apply list_elem_of_singleton.
    + rewrite list_lookup_insert_ne by lia. fold (visited_at visited j). rewrite Hv by done.
      f_equal. apply bool_decide_ext. rewrite elem_of_app, list_elem_of_singleton. tauto.
Qed.

Lemma stride_orbit_eq fuel i order visited :
  stride_orbit fuel n k i order visited =
  match visited_at visited i with
  | None => None
  | Some true => Some (order, visited)
  | Some false =>
      match fuel with
      | O => None
      | S fuel' =>
          stride_orbit fuel' n k (Word.add i k mod n)
            (order ++ [i]) (<[Z.to_nat i := true]> visited)
      end
  end.
Proof. by destruct fuel. Qed.

Lemma stride_orbit_sim fuel : forall i order visited,
  stride_inv n order visited -> 0 <= i < n -> i ∉ order ->
  (Z.to_nat n - length order <= fuel)%nat ->
  exists order' visited',
    stride_orbit fuel n k i order visited = Some (order', visited')
    /\ stride_inv n order' visited'
    /\ (length order < length order')%nat
    /\ (forall x, x ∈ order -> x ∈ order')
    /\ forall T, (length order' - length order <= T)%nat ->
         stride_walk T nxt n i order
         = stride_walk (T - (length order' - length order)) nxt n
             (first_unvisited order' n) order'.
Proof.
  induction fuel as [|fuel IH]; intros i order visited Hinv Hi Hni Hfuel.
  - destruct Hinv as (_ & Hnd & Hr & _).
    assert (length (order ++ [i]) <= Z.to_nat n)%nat.
    { apply range_nodup_length.
      - apply NoDup_app. split; [done|]. split; [|apply NoDup_singleton].
        intros x Hx ->%list_elem_of_singleton. done.
      - intros x [Hx| ->%list_elem_of_singleton]%elem_of_app; [by apply Hr|done]. }
    rewrite length_app in *. simpl in *. lia.
  - rewrite stride_orbit_eq.
    pose proof Hinv as (_ & _ & _ & Hv). rewrite Hv by done.
    rewrite bool_decide_eq_false_2 by done.
    pose proof (stride_inv_snoc _ _ _ Hinv Hi Hni) as Hinv1.
    rewrite nxt_code by done. pose proof (nxt_range i Hi) as Hc.
    destruct (decide (nxt i ∈ order ++ [i])) as [Hin|Hnin].
    + rewrite stride_orbit_eq. destruct Hinv1 as (? & ? & ? & Hv1).
      rewrite Hv1 by done. rewrite bool_decide_eq_true_2 by done.
      eexists _, _. split; [done|]. split; [done|].
      rewrite length_app. simpl. split; [lia|]. split.
      * intros x Hx. apply elem_of_app. by left.
      * intros T HT. destruct T as [|T]; [lia|]. simpl stride_walk.
        rewrite decide_True by done. f_equal. lia.
    + destruct (IH (nxt i) (order ++ [i]) _ Hinv1 Hc Hnin) as
        (order' & visited' & E & Hinv' & Hlen & Hsub & Hwalk).
      { rewrite length_app. simpl. lia. }
      exists order', visited'. split; [done|]. split; [done|].
      rewrite length_app in Hlen, Hwalk. simpl in Hlen, Hwalk. split; [lia|]. split.
      * intros x Hx. apply Hsub, elem_of_app. by left.
      * intros T HT. destruct T as [|T]; [lia|]. simpl stride_walk.
        rewrite decide_False by done. rewrite Hwalk by lia. f_equal. lia.
Qed.

Lemma stride_skip_eq fuel start visited :
  stride_skip fuel n start visited =
  if start <? n then
    match visited_at visited start with
    | None => None
    | Some false => Some start
    | Some true =>
        match fuel with
        | O => None
        | S fuel' => stride_skip fuel' n (start + 1) visited
        end
    end
  else Some start.
Proof. by destruct fuel. Qed.

Lemma stride_skip_spec order visited fuel : forall start,
  stride_inv n order visited -> 0 <= start <= n -> (Z.to_nat (n - start) <= fuel)%nat ->
  stride_skip fuel n start visited
  = Some (first_unvisited_from (Z.to_nat (n - start)) start order).
Proof.
  induction fuel as [|fuel IH]; intros start Hinv Hs Hfuel; rewrite stride_skip_eq.
  - assert (start = n) as -> by lia. rewrite Z.ltb_irrefl. by rewrite Z.sub_diag.
  - destruct (Z.ltb_spec start n).
    + destruct Hinv as (? & ? & ? & Hv). rewrite Hv by lia.
      replace (Z.to_nat (n - start)) with (S (Z.to_nat (n - (start + 1)))) by lia.
      simpl first_unvisited_from. destruct (decide (start ∈ order)).
      * rewrite bool_decide_eq_true_2 by done. apply IH; [done|lia|lia].
      * by rewrite bool_decide_eq_false_2 by done.
    + assert (start = n) as -> by lia. by rewrite Z.sub_diag.
Qed.

Lemma stride_outer_eq fuel start order visited :
  stride_outer fuel n k start order visited =
  if Z.of_nat (length order) <? n then
    match fuel with
    | O => None
    | S fuel' =>
        '(order', visited') ← stride_orbit (Z.to_nat n) n k start order visited;
        if Z.of_nat (length order') <? n then
          start' ← stride_skip (Z.to_nat n) n start visited';
          if n <=? start' then Some order'
          else stride_outer fuel' n k start' order' visited'
        else stride_outer fuel' n k start order' visited'
    end
  else Some order.
Proof. by destruct fuel. Qed.

Lemma stride_outer_sim fuel : forall start order visited,
  stride_inv n order visited -> (length order < Z.to_nat n)%nat ->
  start = first_unvisited order n -> (Z.to_nat n - length order <= fuel)%nat ->
  stride_outer fuel n k start order visited
  = Some (stride_walk (Z.to_nat n - length order) nxt n start order).
Proof.
  induction fuel as [|fuel IH]; intros start order visited Hinv Hlen Hstart Hfuel; [lia|].
  rewrite stride_outer_eq. replace (Z.of_nat (length order) <? n) with true by lia.
  destruct (first_unvisited_lt order n ltac:(lia) Hlen) as [Hs Hns].
  rewrite <- Hstart in Hs, Hns.
  destruct (stride_orbit_sim (Z.to_nat n) start order visited Hinv Hs Hns ltac:(lia))
    as (order' & visited' & E & Hinv' & Hlt & Hsub & Hwalk).
  rewrite E. cbn [mbind option_bind].
  pose proof Hinv' as (_ & Hnd' & Hr' & _).
  pose proof (range_nodup_length order' n Hnd' Hr') as Hle.
  rewrite (Hwalk (Z.to_nat n - length order)%nat) by lia.
  replace (Z.to_nat n - length order - (length order' - length order))%nat
    with (Z.to_nat n - length order')%nat by lia.
  destruct (Z.ltb_spec (Z.of_nat (length order')) n) as [Hlt'|Hge'].
  - rewrite (stride_skip_spec order') by (done || lia).
    rewrite <- first_unvisited_shift.
    + destruct (first_unvisited_lt order' n ltac:(lia) ltac:(lia)) as [Hs' _].
      cbn [mbind option_bind]. replace (n <=? first_unvisited order' n) with false by lia.
      apply IH; [done|lia|done|lia].
    + lia.
    + intros x Hx. apply Hsub. rewrite Hstart in Hx.
      destruct (first_unvisited_spec order n ltac:(lia)) as (_ & H2 & _). by apply H2.
  - rewrite stride_outer_eq. replace (Z.of_nat (length order') <? n) with false by lia.
    by replace (Z.to_nat n - length order')%nat with 0%nat by lia.
Qed.

Lemma stride_walk_perm T : forall i acc,
  NoDup acc -> (forall x, x ∈ acc -> 0 <= x < n) ->
  (length acc + T = Z.to_nat n)%nat ->
  ((0 < T)%nat -> 0 <= i < n /\ i ∉ acc) ->
  stride_walk T nxt n i acc ≡ₚ seqZ 0 n.
Proof.
  induction T as [|T IH]; intros i acc Hnd Hr Hlen Hi.
  - simpl. apply perm_range; [done|done|lia].
  - destruct Hi as [Hi Hni]; [lia|]. simpl. apply IH.
    + apply NoDup_app. split; [done|]. split; [|apply NoDup_singleton].
      intros x Hx ->%list_elem_of_singleton. done.
    + intros x [Hx| ->%list_elem_of_singleton]%elem_of_app; [by apply Hr|done].
    + rewrite length_app. simpl. lia.
    + intros HT. destruct (decide (nxt i ∈ acc ++ [i])) as [Hin|Hnin].
      * apply first_unvisited_lt; [lia|]. rewrite length_app. simpl. lia.
      * split; [by apply nxt_range|done].
Qed.

Lemma stride_outer_run :
  stride_outer (Z.to_nat n) n k 0 [] (replicate (Z.to_nat n) false)
  = Some (stride_walk (Z.to_nat n) nxt n 0 []).
Proof.
  rewrite (stride_outer_sim (Z.to_nat n) 0 [] (replicate (Z.to_nat n) false)).
  - simpl. by rewrite Nat.sub_0_r.
  - split; [by rewrite length_replicate|]. split; [apply NoDup_nil_2|].
    split; [by intros x ?%elem_of_nil|].
    intros j Hj. unfold visited_at. rewrite lookup_replicate_2 by lia.
    done.
  - simpl. lia.
  - unfold first_unvisited. by destruct (Z.to_nat n) eqn:E; [lia|].
  - simpl. lia.
Qed.

End Stride.

Lemma build_order_stride_perm ok n k :
  0 < n -> exists order, build_order_stride ok n k = Some order /\ order ≡ₚ seqZ 0 n.
Proof.
  intros Hn. unfold build_order_stride. replace (n =? 0) with false by lia.
  destruct ok.
  - set (k' := if k =? 0 then 1 else k).
    rewrite (stride_outer_run n k' (fun i => Word.add i k' mod n)) by done.
    eexists. split; [done|].
    apply (stride_walk_perm n k' _ Hn); try done.
    + apply NoDup_nil_2.
    + by intros x ?%elem_of_nil.
    + intros _. split; [lia|apply not_elem_of_nil].
  - eexists. split; [done|]. by rewrite build_order_sequential_eq.
Qed.

Lemma build_order_stride_spec n k :
  0 < n -> 0 < k -> n + k <= Word.modulus ->
  build_order_stride true n k = Some (stride_spec n k).
Proof.
  intros Hn Hk Hov. unfold build_order_stride, stride_spec.
  replace (n =? 0) with false by lia. replace (k =? 0) with false by lia.
  apply stride_outer_run; [done|].
  intros i Hi. rewrite add_small; [done|lia|lia|lia].
Qed.

(** ** The generator again *)

(** *** Linear maps *)

Lemma lin_apply_zero cols : lin_apply cols 0 = 0.
Proof. induction cols as [|c cols IH]; [done|]. simpl. by rewrite IH. Qed.

Lemma lxor_swap_mid a b c d : Z.lxor (Z.lxor a b) (Z.lxor c d) = Z.lxor (Z.lxor a c) (Z.lxor b d).
Proof.
  apply Z.bits_inj'. intros i Hi. rewrite !Z.lxor_spec.
  by destruct (Z.testbit a i), (Z.testbit b i), (Z.testbit c i), (Z.testbit d i).
Qed.

Lemma odd_lxor a b : Z.odd (Z.lxor a b) = xorb (Z.odd a) (Z.odd b).
Proof. by rewrite <- !Z.bit0_odd, Z.lxor_spec. Qed.

Lemma div2_lxor a b : Z.div2 (Z.lxor a b) = Z.lxor (Z.div2 a) (Z.div2 b).
Proof. by rewrite !Z.div2_spec, Z.shiftr_lxor. Qed.

Lemma lin_apply_lxor cols : forall a b,
  lin_apply cols (Z.lxor a b) = Z.lxor (lin_apply cols a) (lin_apply cols b).
Proof.
  induction cols as [|c cols IH]; intros a b; [done|]. simpl.
  rewrite div2_lxor, IH, odd_lxor, <- lxor_swap_mid. f_equal.
  destruct (Z.odd a), (Z.odd b); simpl;
    by rewrite ?Z.lxor_nilpotent, ?Z.lxor_0_r, ?Z.lxor_0_l.
Qed.

Section Linear.

Variable f : Z -> Z.
Hypothesis f_zero : f 0 = 0.
Hypothesis f_lxor : forall a b, f (Z.lxor a b) = Z.lxor (f a) (f b).

Lemma linear_apply cols : forall s, f (lin_apply cols s) = lin_apply (map f cols) s.
Proof.
  induction cols as [|c cols IH]; intros s; simpl; [done|].
  rewrite f_lxor, IH. f_equal. by destruct (Z.odd s).
Qed.

End Linear.

Lemma lin_compose_apply A B s :
  lin_apply (lin_compose A B) s = lin_apply A (lin_apply B s).
Proof.
  unfold lin_compose. symmetry. apply linear_apply.
  - apply lin_apply_zero.
  - apply lin_apply_lxor.
Qed.

Lemma lin_pow_apply A p : forall s, lin_apply (lin_pow A p) s = Pos.iter (lin_apply A) s p.
Proof.
  induction p as [p IH|p IH|]; intros s; simpl; [| |done].
  - by rewrite !lin_compose_apply, !IH.
  - by rewrite lin_compose_apply, !IH.
Qed.

Lemma lin_apply_pow2_bits k : forall i s j,
  0 <= i -> 0 <= j ->
  Z.testbit (lin_apply (map (fun i => 2 ^ i) (seqZ i (Z.of_nat k))) s) j
  = ((i <=? j) && (j <? i + Z.of_nat k)) && Z.testbit s (j - i).
Proof.
  induction k as [|k IH]; intros i s j Hi Hj.
  - simpl. rewrite Z.bits_0. change (Z.of_nat 0) with 0.
    destruct (Z.leb_spec i j), (Z.ltb_spec j (i + 0)); simpl; (done || lia).
  - rewrite seqZ_succ. simpl lin_apply. rewrite Z.lxor_spec, IH by lia.
    rewrite Nat2Z.inj_succ. unfold Z.succ.
    replace (Z.testbit (if Z.odd s then 2 ^ i else 0) j) with (Z.odd s && (i =? j)).
    2:{ destruct (Z.odd s); simpl; [by rewrite Z.pow2_bits_eqb|by rewrite Z.bits_0]. }
    destruct (Z.eqb_spec i j) as [->|Hne].
    + rewrite Z.sub_diag, Z.bit0_odd.
      replace (j + 1 <=? j) with false by lia. replace (j <=? j) with true by lia.
      replace (j <? j + (Z.of_nat k + 1)) with true by (symmetry; apply Z.ltb_lt; lia). simpl.
      by rewrite andb_true_r, xorb_false_r.
    + rewrite andb_false_r. simpl.
      destruct (Z.leb_spec (i + 1) j), (Z.leb_spec i j); simpl; try lia; try done.
      replace (i + 1 + Z.of_nat k) with (i + (Z.of_nat k + 1)) by lia.
      destruct (j <? i + (Z.of_nat k + 1)); simpl; [|done].
      rewrite Z.div2_spec, Z.shiftr_spec by lia. f_equal. lia.
Qed.

Lemma lin_id_apply s : Word.in_range s -> lin_apply lin_id s = s.
Proof.
  intros Hs. apply Z.bits_inj'. intros j Hj.
  change lin_id with (map (fun i => 2 ^ i) (seqZ 0 (Z.of_nat 64))).
  rewrite lin_apply_pow2_bits by lia. rewrite Z.sub_0_r.
  replace (0 <=? j) with true by lia. change (0 + Z.of_nat 64) with 64.
  destruct (Z.ltb_spec j 64); simpl; [done|]. symmetry. by apply testbit_high.
Qed.

Lemma xsr_lxor k a b : xsr k (Z.lxor a b) = Z.lxor (xsr k a) (xsr k b).
Proof. unfold xsr, Word.shr. rewrite Z.shiftr_lxor. apply lxor_swap_mid. Qed.

Lemma xsl_lxor k a b : xsl k (Z.lxor a b) = Z.lxor (xsl k a) (xsl k b).
Proof. unfold xsl, Word.shl. rewrite Z.shiftl_lxor, wrap_lxor. apply lxor_swap_mid. Qed.

Lemma xorshift_lxor a b : xorshift (Z.lxor a b) = Z.lxor (xorshift a) (xorshift b).
Proof. by rewrite !xorshift_steps, xsr_lxor, xsl_lxor, xsr_lxor. Qed.

Lemma xorshift_matrix_apply s : Word.in_range s -> lin_apply xorshift_matrix s = xorshift s.
Proof.
  intros Hs. change xorshift_matrix with (map xorshift lin_id).
  rewrite <- linear_apply; [by rewrite lin_id_apply|apply xorshift_zero|apply xorshift_lxor].
Qed.

(** *** Iterating the update *)

Lemma orbit_range k s : Word.in_range s -> Word.in_range (orbit k s).
Proof. intros Hs. induction k as [|k IH]; [done|]. simpl. by apply xorshift_range. Qed.

Lemma orbit_add a b s : orbit (a + b) s = orbit a (orbit b s).
Proof. apply Nat.iter_add. Qed.

Lemma iter_agree (f g : Z -> Z) (n : nat) (s : Z) :
  (forall x, Word.in_range x -> f x = g x) ->
  (forall x, Word.in_range x -> Word.in_range (f x)) ->
  Word.in_range s -> Nat.iter n f s = Nat.iter n g s /\ Word.in_range (Nat.iter n f s).
Proof.
  intros Hfg Hf Hs. induction n as [|n [IH IHr]]; [done|].
  rewrite !Nat.iter_succ, <- IH. split; [by apply Hfg|by apply Hf].
Qed.

Lemma orbit_pos p s :
  Word.in_range s -> orbit (Pos.to_nat p) s = lin_apply (lin_pow xorshift_matrix p) s.
Proof.
  intros Hs. rewrite lin_pow_apply, Pos2Nat.inj_iter. unfold orbit.
  apply (iter_agree xorshift (lin_apply xorshift_matrix)); [|apply xorshift_range|done].
  intros x Hx. symmetry. by apply xorshift_matrix_apply.
Qed.

Lemma orbit_inj k : forall s1 s2,
  Word.in_range s1 -> Word.in_range s2 -> orbit k s1 = orbit k s2 -> s1 = s2.
Proof.
  induction k as [|k IH]; intros s1 s2 H1 H2; [done|]. unfold orbit.
  rewrite !Nat.iter_succ. fold (orbit k s1) (orbit k s2). intros E. apply xorshift_inj in E; [|by apply (orbit_range k)..]. by apply IH.
Qed.

(** *** The period of the update *)

Lemma one_in_range : Word.in_range 1.
Proof. unfold Word.in_range, Word.modulus. lia. Qed.

Lemma orbit_period_one : orbit (Pos.to_nat period) 1 = 1.
Proof. rewrite orbit_pos by apply one_in_range. vm_compute. reflexivity. Qed.

Lemma orbit_quotient_one q : q ∈ period_quotients -> orbit (Pos.to_nat q) 1 <> 1.
Proof.
  unfold period_quotients. rewrite !elem_of_cons, elem_of_nil.
  intros [->|[->|[->|[->|[->|[->|[->|[]]]]]]]]; rewrite orbit_pos by apply one_in_range;
    vm_compute; discriminate.
Qed.

Lemma prime_by_trial p k :
  1 < p -> 0 <= k -> p < k * k -> no_divisor_below p k = true -> Z.prime p.
Proof.
  intros Hp Hk Hkk Hcheck. split; [done|]. intros n Hn [c Hc].
  unfold no_divisor_below in Hcheck. rewrite forallb_forall in Hcheck.
  assert (Hsmall : forall d, 2 <= d < k -> p mod d <> 0).
  { intros d Hd. specialize (Hcheck d). rewrite <- list_elem_of_In, elem_of_seqZ in Hcheck.
    specialize (Hcheck ltac:(lia)). apply negb_true_iff in Hcheck. lia. }
  assert (1 < c < p) by nia.
  destruct (Z.lt_ge_cases n k) as [Hnk|Hnk].
  - apply (Hsmall n); [lia|]. subst p. apply Z.mod_mul. lia.
  - assert (c < k) by nia. apply (Hsmall c); [lia|]. subst p.
    rewrite Z.mul_comm. apply Z.mod_mul. lia.
Qed.

Lemma period_primes_prime p : p ∈ period_primes -> Z.prime p.
Proof.
  unfold period_primes. rewrite !elem_of_cons, elem_of_nil.
  intros [->|[->|[->|[->|[->|[->|[->|[]]]]]]]].
  - by apply (prime_by_trial 3 2).
  - by apply (prime_by_trial 5 3).
  - by apply (prime_by_trial 17 5).
  - apply (prime_by_trial 257 17); [lia|lia|lia|vm_compute; reflexivity].
  - apply (prime_by_trial 641 26); [lia|lia|lia|vm_compute; reflexivity].
  - apply (prime_by_trial 65537 257); [lia|lia|lia|vm_compute; reflexivity].
  - apply (prime_by_trial 6700417 2589); [lia|lia|lia|vm_compute; reflexivity].
Qed.

Lemma divisor_among (h : Z) (l : list Z) :
  (exists p, p ∈ l /\ (p | h)) \/ (forall p, p ∈ l -> ~ (p | h)).
Proof.
  induction l as [|a l [(p & Hp & Hd)|Hno]].
  - right. by intros p ?%elem_of_nil.
  - left. exists p. split; [by apply elem_of_cons; right|done].
  - destruct (Z.BoolSpec_divide a h) as [Hd|Hd].
    + left. exists a. split; [by apply elem_of_cons; left|done].
    + right. intros p [->|Hp]%elem_of_cons; [done|by apply Hno].
Qed.

Lemma period_prime_factor h :
  1 < h -> (h | Z.pos period) -> exists p, p ∈ period_primes /\ (p | h).
Proof.
  intros Hh Hdiv.
  destruct (divisor_among h period_primes) as [Hex|Hno]; [done|]. exfalso.
  -
    assert (Hco : forall p, p ∈ period_primes -> Z.coprime p h).
    { intros p Hp. apply Z.coprime_prime_l; [by apply period_primes_prime|by apply Hno]. }
    assert (Hall : Z.coprime (Z.pos period) h).
    { change (Z.pos period) with (3 * (5 * (17 * (257 * (641 * (65537 * 6700417)))))).
      repeat (apply Z.coprime_mul_l;
              [apply Hco; unfold period_primes; rewrite !elem_of_cons; tauto|]).
      apply Hco. unfold period_primes. rewrite !elem_of_cons. tauto. }
    unfold Z.coprime in Hall. rewrite Z.gcd_comm in Hall.
    rewrite (proj1 (Z.divide_gcd_iff h (Z.pos period) ltac:(lia)) Hdiv) in Hall. lia.
Qed.

Lemma period_quotient_of p :
  p ∈ period_primes ->
  exists q, q ∈ period_quotients /\ Z.pos period = p * Z.pos q.
Proof.
  unfold period_primes. rewrite !elem_of_cons, elem_of_nil.
  intros Hp. exists (Z.to_pos (Z.pos period / p)).
  destruct Hp as [->|[->|[->|[->|[->|[->|[->|[]]]]]]]];
    (split; [|vm_compute; reflexivity]);
    unfold period_quotients; rewrite !elem_of_cons;
    repeat first [left; vm_compute; reflexivity | right].
Qed.

Lemma orbit_multiple d m : orbit d 1 = 1 -> orbit (m * d) 1 = 1.
Proof.
  intros Hd. induction m as [|m IH]; [done|].
  replace (S m * d)%nat with (m * d + d)%nat by lia. by rewrite orbit_add, Hd.
Qed.

Lemma orbit_gcd a b :
  (0 < a)%nat -> orbit a 1 = 1 -> orbit b 1 = 1 -> orbit (Nat.gcd a b) 1 = 1.
Proof.
  intros Ha Pa Pb. destruct (Nat.gcd_bezout_pos a b Ha) as (u & v & E).
  pose proof (orbit_multiple a u Pa) as H. rewrite E in H.
  by rewrite orbit_add, (orbit_multiple b v Pb) in H.
Qed.

Lemma orbit_no_short_period d :
  (0 < d < Pos.to_nat period)%nat -> orbit d 1 <> 1.
Proof.
  intros Hd Pd.
  pose proof (orbit_gcd d (Pos.to_nat period) ltac:(lia) Pd orbit_period_one) as Pg.
  set (g := Nat.gcd d (Pos.to_nat period)) in *.
  assert (Hgd : (g | d)%nat) by apply Nat.gcd_divide_l.
  assert (Hgn : (g | Pos.to_nat period)%nat) by apply Nat.gcd_divide_r.
  assert (Hg0 : (0 < g)%nat).
  { destruct (Nat.eq_dec g 0%nat) as [E|]; [|lia].
    apply Nat.gcd_eq_0_l in E. lia. }
  assert (Hgle : (g <= d)%nat) by (apply Nat.divide_pos_le; [lia|done]).
  destruct Hgn as [c Hc].
  assert (Hz : Z.pos period = Z.of_nat c * Z.of_nat g).
  { rewrite <- positive_nat_Z, Hc. apply Nat2Z.inj_mul. }
  assert (Hc1 : 1 < Z.of_nat c) by nia.
  destruct (period_prime_factor (Z.of_nat c)) as (p & Hp & [c' Hc']); [done|by exists (Z.of_nat g); lia|].
  destruct (period_quotient_of p Hp) as (q & Hq & Eq).
  pose proof (period_primes_prime p Hp) as [Hp1 _].
  assert (Hq' : Z.pos q = c' * Z.of_nat g) by nia.
  assert (0 <= c') by nia.
  apply (orbit_quotient_one q Hq).
  replace (Pos.to_nat q) with (Z.to_nat c' * g)%nat; [by apply orbit_multiple|].
  apply Nat2Z.inj. rewrite positive_nat_Z, Nat2Z.inj_mul, Z2Nat.id by done. lia.
Qed.

Lemma orbit_nonzero k s : Word.in_range s -> s <> 0 -> orbit k s <> 0.
Proof.
  intros Hs Hne. induction k as [|k IH]; [done|]. unfold orbit. rewrite Nat.iter_succ.
  apply xorshift_nonzero; [by apply (orbit_range k)|done].
Qed.

Lemma orbit_distinct i j :
  (i < j < Pos.to_nat period)%nat -> orbit i 1 <> orbit j 1.
Proof.
  intros Hij E. replace j with (i + (j - i))%nat in E by lia. rewrite orbit_add in E.
  apply orbit_inj in E; [|apply one_in_range|apply orbit_range, one_in_range].
  apply (orbit_no_short_period (j - i)); [lia|done].
Qed.

Lemma orbit_covers u :
  Word.in_range u -> u <> 0 -> exists k, (k < Pos.to_nat period)%nat /\ orbit k 1 = u.
Proof.
  intros Hu Hne.
  assert (Hperm : (fun k => orbit (Z.to_nat k) 1 - 1) <$> seqZ 0 (Z.pos period)
                  ≡ₚ seqZ 0 (Z.pos period)).
  { apply perm_range.
    - apply NoDup_fmap_2_strong; [|apply NoDup_seqZ].
      intros x y Hx Hy Exy. apply elem_of_seqZ in Hx, Hy.
      destruct (Z.lt_trichotomy x y) as [Hlt|[->|Hlt]]; [|done|]; exfalso.
      + apply (orbit_distinct (Z.to_nat x) (Z.to_nat y)); lia.
      + apply (orbit_distinct (Z.to_nat y) (Z.to_nat x)); lia.
    - intros y [x [-> Hx]]%list_elem_of_fmap.
      pose proof (orbit_range (Z.to_nat x) 1 one_in_range) as Hr.
      pose proof (orbit_nonzero (Z.to_nat x) 1 one_in_range ltac:(lia)).
      unfold Word.in_range, Word.modulus in Hr. unfold period. lia.
    - rewrite length_fmap, length_seqZ. lia. }
  assert (Hin : u - 1 ∈ seqZ 0 (Z.pos period)).
  { apply elem_of_seqZ. unfold Word.in_range, Word.modulus in Hu. unfold period. lia. }
  rewrite <- Hperm in Hin. apply list_elem_of_fmap in Hin as (k & Ek & Hk).
  apply elem_of_seqZ in Hk. exists (Z.to_nat k). split; lia.
Qed.

Lemma orbit_reaches s u :
  Word.in_range s -> s <> 0 -> Word.in_range u -> u <> 0 ->
  exists k, (1 <= k <= Pos.to_nat period)%nat /\ orbit k s = u.
Proof.
  intros Hs Hs0 Hu Hu0.
  destruct (orbit_covers s Hs Hs0) as (j & Hj & <-).
  destruct (orbit_covers u Hu Hu0) as (i & Hi & <-).
  destruct (Nat.lt_ge_cases j i).
  - exists (i - j)%nat. split; [lia|]. rewrite <- orbit_add. f_equal. lia.
  - exists (Pos.to_nat period - j + i)%nat. split; [lia|]. rewrite <- orbit_add.
    replace (Pos.to_nat period - j + i + j)%nat with (i + Pos.to_nat period)%nat by lia.
    by rewrite orbit_add, orbit_period_one.
Qed.

(** *** The rejection loop returns *)

Lemma draw_rejected s n s' :
  draw s n = inr s' -> s' = orbit 1 s /\ uniform_accept n (fst (rng_next s)) = None.
Proof.
  unfold draw. destruct (rng_next s) as [x s1] eqn:E. simpl.
  destruct (uniform_accept n x); [done|]. intros [= <-]. split; [|done].
  by injection E as _ <-.
Qed.

Lemma draw_accepted s n v s' :
  draw s n = inl (v, s') -> s' = orbit 1 s /\ uniform_accept n (fst (rng_next s)) = Some v.
Proof.
  unfold draw. destruct (rng_next s) as [x s1] eqn:E. simpl.
  destruct (uniform_accept n x); [|done]. intros [= <- <-]. split; [|done].
  by injection E as _ <-.
Qed.

Lemma orbit_succ_r k s : orbit (S k) s = orbit k (orbit 1 s).
Proof. replace (S k) with (k + 1)%nat by lia. apply orbit_add. Qed.

(** The draw of round [k], counted from 1, from state [s]. *)
Lemma uniform_draws_rejected n p : forall s s',
  uniform_draws p s n = inr s' ->
  s' = orbit (Pos.to_nat p) s
  /\ forall k, (k < Pos.to_nat p)%nat -> uniform_accept n (fst (rng_next (orbit k s))) = None.
Proof.
  induction p as [p IH|p IH|]; intros s s'; cbn [uniform_draws].
  - destruct (draw s n) as [r|s1] eqn:E1; [done|].
    destruct (uniform_draws p s1 n) as [r|s2] eqn:E2; [done|]. intros E3.
    apply draw_rejected in E1 as [-> H1].
    apply IH in E2 as [-> H2]. apply IH in E3 as [-> H3].
    rewrite Pos2Nat.inj_xI. split.
    + rewrite <- !orbit_add. f_equal. lia.
    + intros k Hk. destruct k as [|k]; [done|]. rewrite orbit_succ_r.
      destruct (Nat.lt_ge_cases k (Pos.to_nat p)) as [Hlt|Hge]; [by apply H2|].
      replace k with ((k - Pos.to_nat p) + Pos.to_nat p)%nat by lia.
      rewrite orbit_add. apply H3. lia.
  - destruct (uniform_draws p s n) as [r|s1] eqn:E1; [done|]. intros E2.
    apply IH in E1 as [-> H1]. apply IH in E2 as [-> H2].
    rewrite Pos2Nat.inj_xO. split.
    + rewrite <- orbit_add. f_equal. lia.
    + intros k Hk.
      destruct (Nat.lt_ge_cases k (Pos.to_nat p)) as [Hlt|Hge]; [by apply H1|].
      replace k with ((k - Pos.to_nat p) + Pos.to_nat p)%nat by lia.
      rewrite orbit_add. apply H2. lia.
  - intros [-> H]%draw_rejected. split; [done|]. intros k Hk.
    by replace k with 0%nat by lia.
Qed.

Lemma uniform_draws_accepted n p : forall s v s',
  uniform_draws p s n = inl (v, s') ->
  exists k, s' = orbit (S k) s /\ uniform_accept n (fst (rng_next (orbit k s))) = Some v.
Proof.
  induction p as [p IH|p IH|]; intros s v s'; cbn [uniform_draws].
  - destruct (draw s n) as [[v1 s1]|s1] eqn:E1.
    { intros [= <- <-]. apply draw_accepted in E1 as [-> H]. by exists 0%nat. }
    apply draw_rejected in E1 as [-> _].
    destruct (uniform_draws p (orbit 1 s) n) as [[v2 s2]|s2] eqn:E2.
    { intros [= <- <-]. apply IH in E2 as (k & -> & H). exists (S k).
      split; [by rewrite <- orbit_succ_r|by rewrite orbit_succ_r]. }
    apply uniform_draws_rejected in E2 as [-> _]. intros E3.
    apply IH in E3 as (k & -> & H). exists (k + Pos.to_nat p + 1)%nat. split.
    + rewrite <- !orbit_add. f_equal; lia.
    + by rewrite !orbit_add.
  - destruct (uniform_draws p s n) as [[v1 s1]|s1] eqn:E1.
    { intros [= <- <-]. by apply IH in E1. }
    apply uniform_draws_rejected in E1 as [-> _]. intros E2.
    apply IH in E2 as (k & -> & H). exists (k + Pos.to_nat p)%nat. split.
    + by rewrite <- !orbit_add.
    + by rewrite orbit_add.
  - intros [-> H]%draw_accepted. by exists 0%nat.
Qed.

Lemma uniform_accept_value n x v : 0 < n -> uniform_accept n x = Some v -> 0 <= v < n.
Proof.
  intros Hn. unfold uniform_accept. destruct (_ <=? _); [|done].
  intros [= <-]. by apply Z.mod_pos_bound.
Qed.

Lemma uniform_accept_top n : 0 < n -> uniform_accept n Word.SIZE_MAX <> None.
Proof.
  intros Hn. unfold uniform_accept, uniform_threshold.
  pose proof (Z.mod_pos_bound Word.SIZE_MAX n Hn).
  assert (Word.SIZE_MAX mod n <= Word.SIZE_MAX).
  { apply Z.mod_le; [unfold Word.SIZE_MAX; lia|done]. }
  by replace (Word.SIZE_MAX mod n <=? Word.SIZE_MAX) with true by lia.
Qed.

Lemma top_state_output :
  Word.in_range top_state /\ top_state <> 0 /\ Word.mul top_state 2685821657736338717 = Word.SIZE_MAX.
Proof.
  split; [unfold Word.in_range; vm_compute; split; [discriminate|reflexivity]|].
  split; [vm_compute; discriminate|vm_compute; reflexivity].
Qed.

Lemma rng_uniform_returns s n :
  Word.in_range s -> s <> 0 -> 0 < n ->
  exists v s', rng_uniform s n = Some (v, s')
               /\ 0 <= v < n /\ Word.in_range s' /\ s' <> 0.
Proof.
  intros Hs Hs0 Hn. unfold rng_uniform.
  destruct (uniform_draws draw_bound s n) as [[v s']|s'] eqn:E.
  - apply uniform_draws_accepted in E as (k & -> & H).
    exists v, (orbit (S k) s). split; [done|]. split; [by eapply uniform_accept_value|].
    split; [by apply orbit_range|by apply orbit_nonzero].
  - exfalso. apply uniform_draws_rejected in E as [_ H].
    destruct top_state_output as (Ht & Ht0 & Hout).
    destruct (orbit_reaches s top_state Hs Hs0 Ht Ht0) as (k & Hk & Ek).
    destruct k as [|k]; [lia|].
    specialize (H k). unfold orbit in Ek. rewrite Nat.iter_succ in Ek. fold (orbit k s) in Ek.
    unfold rng_next in H. simpl in H. rewrite Ek, Hout in H.
    apply (uniform_accept_top n Hn). apply H. unfold draw_bound, period in *. lia.
Qed.

(** From here on the rejection loop is used through the lemmas above. *)
Arguments uniform_draws : simpl never.
Arguments rng_uniform : simpl never.

Lemma rng_next_state s : snd (rng_next s) = xorshift s.
Proof. reflexivity. Qed.

Lemma rng_uniform_state s n v s' :
  Word.in_range s -> s <> 0 -> rng_uniform s n = Some (v, s') ->
  Word.in_range s' /\ s' <> 0.
Proof.
  intros Hs Hs0. unfold rng_uniform.
  destruct (uniform_draws draw_bound s n) as [[v1 s1]|s1] eqn:E; [|done].
  intros [= <- <-]. apply uniform_draws_accepted in E as (k & -> & _).
  split; [by apply orbit_range|by apply orbit_nonzero].
Qed.

Lemma rng_uniform_value s n v s' :
  0 < n -> rng_uniform s n = Some (v, s') -> 0 <= v < n.
Proof.
  intros Hn. unfold rng_uniform.
  destruct (uniform_draws draw_bound s n) as [[v1 s1]|s1] eqn:E; [|done].
  intros [= <- <-]. apply uniform_draws_accepted in E as (k & _ & H).
  by eapply uniform_accept_value.
Qed.

Lemma run_call_state c s s' :
  Word.in_range s -> s <> 0 -> run_call c s = Some s' -> Word.in_range s' /\ s' <> 0.
Proof.
  intros Hs Hne. destruct c as [|n]; cbn [run_call].
  - intros [= <-]. split; [by apply xorshift_range|by apply xorshift_nonzero].
  - destruct (rng_uniform s n) as [[v s'']|] eqn:E; [|done].
    intros [= <-]. by eapply rng_uniform_state.
Qed.

Lemma run_call_returns c s :
  Word.in_range s -> s <> 0 -> call_ok c -> exists s', run_call c s = Some s'.
Proof.
  intros Hs Hne Hc. destruct c as [|n]; cbn [run_call]; [by eexists|].
  destruct (rng_uniform_returns s n Hs Hne Hc) as (v & s' & -> & _). by eexists.
Qed.

Lemma run_calls_state cs : forall s s',
  Word.in_range s -> s <> 0 -> run_calls cs s = Some s' -> Word.in_range s' /\ s' <> 0.
Proof.
  induction cs as [|c cs IH]; intros s s' Hs Hne; cbn [run_calls].
  - by intros [= <-].
  - destruct (run_call c s) as [s1|] eqn:E; [|done].
    destruct (run_call_state _ _ _ Hs Hne E). by apply IH.
Qed.

Lemma run_calls_returns cs : forall s,
  Word.in_range s -> s <> 0 -> Forall call_ok cs -> exists s', run_calls cs s = Some s'.
Proof.
  induction cs as [|c cs IH]; intros s Hs Hne Hall; cbn [run_calls]; [by eexists|].
  apply Forall_cons in Hall as [Hc Hall].
  destruct (run_call_returns c s Hs Hne Hc) as [s1 E]. rewrite E.
  destruct (run_call_state _ _ _ Hs Hne E). by apply IH.
Qed.

Lemma main_seed_state raw : Word.in_range raw -> Word.in_range (main_seed raw) /\ main_seed raw <> 0.
Proof.
  intros Hr. unfold main_seed. destruct (Z.eqb_spec raw 0).
  - split; [unfold Word.in_range, Word.modulus; lia|lia].
  - done.
Qed.

Lemma uniform_accepted_count n :
  2 <= n -> (Word.modulus - uniform_threshold n) mod n = 1.
Proof.
  intros Hn. unfold uniform_threshold, Word.SIZE_MAX, Word.modulus.
  pose proof (Z.div_mod (2 ^ 64 - 1) n ltac:(lia)) as E.
  replace (2 ^ 64 - (2 ^ 64 - 1) mod n) with (1 + (2 ^ 64 - 1) / n * n) by lia.
  rewrite Z.mod_add by lia. apply Z.mod_small. lia.
Qed.

(** C10: the xorshift update of [rng_next] is a bijection of the 64-bit
    words ([unxorshift] is its inverse on both sides) that sends 0 to 0 and
    nothing else to 0; [main] never seeds with 0; hence every sequence of
    calls of [rng_next] and [rng_uniform] returns, and the state is a
    nonzero 64-bit word after it. *)
Theorem rng_state_never_zero (raw : Z) (calls : list PrngCall) :
  Word.in_range raw ->
  (forall s, Word.in_range s ->
     Word.in_range (snd (rng_next s)) /\ Word.in_range (unxorshift s)
     /\ unxorshift (snd (rng_next s)) = s /\ snd (rng_next (unxorshift s)) = s
     /\ (snd (rng_next s) = 0 <-> s = 0))
  /\ Word.in_range (main_seed raw) /\ main_seed raw <> 0
  /\ (forall s', run_calls calls (main_seed raw) = Some s' -> Word.in_range s' /\ s' <> 0)
  /\ (Forall call_ok calls -> exists s', run_calls calls (main_seed raw) = Some s').
Proof.
  intros Hraw. destruct (main_seed_state raw Hraw) as [Hs Hs0].
  split; [|split; [|split; [|split]]]; [|done|done| |].
  - intros s Hr. rewrite !rng_next_state.
    split; [by apply xorshift_range|]. split; [by apply unxorshift_range|].
    split; [by apply unxorshift_xorshift|]. split; [by apply xorshift_unxorshift|].
    split; [|by intros ->].
    intros E. destruct (Z.eq_dec s 0) as [|Hne]; [done|]. by destruct (xorshift_nonzero s Hr Hne).
  - intros s'. by apply run_calls_state.
  - by apply run_calls_returns.
Qed.

Lemma rng_state_never_zero_witness :
  exists s', run_calls [CallNext; CallUniform 7; CallNext] (main_seed 0) = Some s'
             /\ Word.in_range s' /\ s' <> 0.
Proof.
  assert (H : Word.in_range 0) by (unfold Word.in_range, Word.modulus; lia).
  eexists. split; [vm_compute; reflexivity|].
  apply (proj1 (proj2 (proj2 (proj2 (rng_state_never_zero 0 [CallNext; CallUniform 7; CallNext] H))))).
  vm_compute. reflexivity.
Defined.

(** C2 (evaluation at the failing input [n = 7]): the threshold computed
    is [(2^64 - 1) mod 7 = 1] where unbiased rejection needs
    [2^64 mod 7 = 2]; the draw 1 is accepted, and a state is exhibited from
    which [rng_uniform] returns on that draw; so [2^64 - 1] draws are
    accepted, one more than a multiple of 7.  For every [n >= 2] the number
    of accepted draws is 1 modulo [n].  The range part holds: from a
    nonzero state [rng_uniform] returns, with a value in [0, n). *)
Theorem rng_uniform_threshold_off_by_one :
  uniform_threshold 7 = 1
  /\ Word.modulus mod 7 = 2
  /\ uniform_accept 7 1 = Some 1
  /\ Word.in_range state_drawing_one
  /\ fst (rng_next state_drawing_one) = 1
  /\ (exists s', rng_uniform state_drawing_one 7 = Some (1, s'))
  /\ (Word.modulus - uniform_threshold 7) mod 7 = 1
  /\ (forall n, 2 <= n -> (Word.modulus - uniform_threshold n) mod n = 1)
  /\ (forall s n, Word.in_range s -> s <> 0 -> 0 < n ->
        exists v s', rng_uniform s n = Some (v, s') /\ 0 <= v < n).
Proof.
  split; [reflexivity|]. split; [reflexivity|]. split; [reflexivity|].
  split; [unfold Word.in_range; vm_compute; split; [discriminate|reflexivity]|].
  split; [vm_compute; reflexivity|].
  split; [eexists; vm_compute; reflexivity|].
  split; [reflexivity|].
  split; [apply uniform_accepted_count|].
  intros s n Hs Hs0 Hn. destruct (rng_uniform_returns s n Hs Hs0 Hn) as (v & s' & E & Hv & _).
  by exists v, s'.
Qed.
(** *** Random *)

Lemma shuffle_loop_perm n todo : forall i order state,
  order ≡ₚ seqZ 0 n -> i = Z.of_nat todo -> i < n -> n < Word.modulus ->
  Word.in_range state -> state <> 0 ->
  exists order' state',
    shuffle_loop todo i order state = Some (order', state')
    /\ order' ≡ₚ seqZ 0 n /\ Word.in_range state' /\ state' <> 0.
Proof.
  induction todo as [|t IH]; intros i order state Hp Hi Hlt Hn Hs Hs0;
    cbn [shuffle_loop].
  - by exists order, state.
  - destruct (rng_uniform_returns state (Word.add i 1) Hs Hs0)
      as (j & s1 & E & Hj & Hs1 & Hs10); [rewrite add_small by word_lia; lia|].
    rewrite E. cbn [mbind option_bind].
    rewrite add_small in Hj by word_lia.
    assert (Hlen : length order = Z.to_nat n).
    { by rewrite (Permutation_length Hp), length_seqZ. }
    destruct (lookup_lt_is_Some_2 order (Z.to_nat i)) as [a Ha]; [lia|].
    destruct (lookup_lt_is_Some_2 order (Z.to_nat j)) as [b Hb]; [lia|].
    apply (IH (i - 1)); [|lia|lia|done|done|done].
    unfold order_at. rewrite Ha, Hb. cbn [default].
    by rewrite Permutation_insert_swap.
Qed.

Lemma build_order_random_perm n state :
  0 < n < Word.modulus -> Word.in_range state -> state <> 0 ->
  exists order state',
    build_order_random n state = Some (order, state')
    /\ order ≡ₚ seqZ 0 n /\ Word.in_range state' /\ state' <> 0.
Proof.
  intros Hn Hs Hs0. unfold build_order_random. fold (build_order_sequential n).
  rewrite build_order_sequential_eq. rewrite sub_small by word_lia.
  apply shuffle_loop_perm; [done|lia|lia|lia|done|done].
Qed.

Lemma is_random_false p :
  is_random p = false ->
  p = PATTERN_SEQUENTIAL \/ p = PATTERN_REVERSE \/ p = PATTERN_STRIDE
  \/ p = PATTERN_INTERLEAVE \/ p = PATTERN_GRAY \/ p = PATTERN_BITREVERSE.
Proof.
  unfold is_random, PATTERN_SEQUENTIAL, PATTERN_REVERSE, PATTERN_STRIDE,
    PATTERN_INTERLEAVE, PATTERN_GRAY, PATTERN_BITREVERSE.
  intros H. apply negb_false_iff, andb_true_iff in H. lia.
Qed.

Lemma build_order_deterministic p arg n e :
  2 <= n <= 2 ^ 63 -> is_random p = false ->
  exists order, build_order p arg n e = Some (order, e) /\ order ≡ₚ seqZ 0 n.
Proof.
  intros Hn Hp. assert (Hr : Word.in_range n) by word_lia.
  destruct (is_random_false p Hp) as [->|[->|[->|[->|[->| ->]]]]]; unfold build_order;
    cbn [Z.eqb PATTERN_RANDOM PATTERN_SEQUENTIAL PATTERN_REVERSE PATTERN_STRIDE
           PATTERN_INTERLEAVE PATTERN_GRAY PATTERN_BITREVERSE Pos.eqb].
  - eexists. split; [done|]. by rewrite build_order_sequential_eq.
  - eexists. split; [done|]. by apply build_order_reverse_perm.
  - destruct (build_order_stride_perm (calloc_ok e) n (if arg =? 0 then 1 else arg))
      as (order & -> & Hperm); [lia|].
    by exists order.
  - eexists. split; [done|]. by apply build_order_interleave_perm.
  - destruct (build_order_gray_perm n) as (order & -> & Hperm); [word_lia|]. by exists order.
  - destruct (build_order_bitrev_perm n) as (order & -> & Hperm); [lia|]. by exists order.
Qed.

Lemma build_order_random_case p arg n e :
  is_random p = true ->
  build_order p arg n e =
  ('(order, s) ← build_order_random n (rng_state e); Some (order, with_state e s)).
Proof.
  unfold is_random, build_order, PATTERN_RANDOM, PATTERN_SEQUENTIAL, PATTERN_REVERSE,
    PATTERN_STRIDE, PATTERN_INTERLEAVE, PATTERN_GRAY, PATTERN_BITREVERSE.
  intros H. apply negb_true_iff, andb_false_iff in H.
  destruct (Z.eqb_spec p 0); [done|].
  destruct (Z.eqb_spec p 1); [lia|]. destruct (Z.eqb_spec p 2); [lia|].
  destruct (Z.eqb_spec p 3); [lia|]. destruct (Z.eqb_spec p 4); [lia|].
  destruct (Z.eqb_spec p 5); [lia|]. destruct (Z.eqb_spec p 6); [lia|]. done.
Qed.

(** Every pattern returns a permutation, and the generator state stays a
    nonzero word. *)
Lemma build_order_total p arg n e :
  2 <= n <= 2 ^ 63 -> env_ok e ->
  exists order e',
    build_order p arg n e = Some (order, e') /\ order ≡ₚ seqZ 0 n
    /\ env_ok e' /\ calloc_ok e' = calloc_ok e.
Proof.
  intros Hn [Hs Hs0]. destruct (is_random p) eqn:Hp.
  - rewrite build_order_random_case by done.
    destruct (build_order_random_perm n (rng_state e)) as (order & s' & -> & Hperm & Hs' & Hs0');
      [word_lia|done|done|].
    exists order, (with_state e s'). split; [done|]. split; [done|].
    split; [split; [exact Hs'|exact Hs0']|done].
  - destruct (build_order_deterministic p arg n e Hn Hp) as (order & E & Hperm).
    exists order, e. split; [done|]. split; [done|]. split; [by split|done].
Qed.

(** C4: for [2 <= n <= 2^63] every pattern value returns a permutation of
    [0, n): each index exactly once.  The six deterministic patterns leave
    the environment as it was; random and every unknown pattern value run
    the Fisher-Yates shuffle, which returns from a generator state that is a
    nonzero 64-bit word (what [main]'s seeding gives and every call keeps). *)
Theorem build_order_permutation (p : Pattern) (pattern_arg n : Z) (e : Env) :
  2 <= n -> n <= 2 ^ 63 ->
  (is_random p = true -> Word.in_range (rng_state e) /\ rng_state e <> 0) ->
  exists order e',
    build_order p pattern_arg n e = Some (order, e')
    /\ order ≡ₚ seqZ 0 n
    /\ length order = Z.to_nat n /\ NoDup order
    /\ (forall x, x ∈ order <-> 0 <= x < n)
    /\ (is_random p = false -> e' = e)
    /\ (is_random p = true ->
        build_order p pattern_arg n e = build_order PATTERN_RANDOM pattern_arg n e).
Proof.
  intros Hn Hn' He.
  assert (exists order e', build_order p pattern_arg n e = Some (order, e')
                           /\ order ≡ₚ seqZ 0 n /\ (is_random p = false -> e' = e))
    as (order & e' & E & Hperm & Hdet).
  { destruct (is_random p) eqn:Hp.
    - destruct (build_order_total p pattern_arg n e) as (order & e' & E & Hperm & _);
        [lia|by apply He|].
      exists order, e'. by rewrite E.
    - destruct (build_order_deterministic p pattern_arg n e) as (order & E & Hperm);
        [lia|done|].
      exists order, e. by rewrite E. }
  exists order, e'. split; [done|]. split; [done|].
  split; [by rewrite (Permutation_length Hperm), length_seqZ|].
  split; [rewrite Hperm; apply NoDup_seqZ|].
  split; [intros x; rewrite Hperm, elem_of_seqZ; lia|].
  split; [done|].
  intros Hp. by rewrite !build_order_random_case.
Qed.

Lemma build_order_permutation_witness :
  exists order e', build_order PATTERN_RANDOM 1 8 witness_env = Some (order, e')
                   /\ order ≡ₚ seqZ 0 8.
Proof.
  assert (H : is_random PATTERN_RANDOM = true ->
              Word.in_range (rng_state witness_env) /\ rng_state witness_env <> 0).
  { intros _. unfold Word.in_range. vm_compute.
    split; [split; [discriminate|reflexivity]|discriminate]. }
  destruct (build_order_permutation PATTERN_RANDOM 1 8 witness_env
              ltac:(lia) ltac:(lia) H) as (order & e' & E & Hperm & _).
  exact (ex_intro _ order (ex_intro _ e' (conj E Hperm))).
Defined.

Lemma stride_walk_prefix nxt n T : forall i acc,
  exists rest, stride_walk T nxt n i acc = acc ++ rest.
Proof.
  induction T as [|T IH]; intros i acc; simpl.
  - exists []. by rewrite app_nil_r.
  - destruct (IH (if decide (nxt i ∈ acc ++ [i]) then first_unvisited (acc ++ [i]) n else nxt i)
                (acc ++ [i])) as [rest ->].
    exists (i :: rest). by rewrite <- app_assoc.
Qed.

(** C8, amended: when the visited array is allocated and [n + k] does not
    wrap, the code computes the stride walk of the specification (start at
    0, advance by [k] modulo [n], restart at the first unvisited index when
    the orbit closes), which starts at 0 and is a permutation; when the
    allocation fails it writes the identity; for [n = 8], [k = 3] the walk is
    [0,3,6,1,4,7,2,5]. *)
Theorem build_order_stride_walk (ok : bool) (n k : Z) :
  0 < n -> 0 < k -> n + k <= Word.modulus ->
  build_order_stride ok n k = Some (if ok then stride_spec n k else seqZ 0 n)
  /\ head (stride_spec n k) = Some 0
  /\ stride_spec n k ≡ₚ seqZ 0 n
  /\ build_order_stride true 8 3 = Some [0; 3; 6; 1; 4; 7; 2; 5].
Proof.
  intros Hn Hk Hov. split; [|split; [|split]].
  - destruct ok; [by apply build_order_stride_spec|].
    unfold build_order_stride. replace (n =? 0) with false by lia.
    by rewrite build_order_sequential_eq.
  - unfold stride_spec. destruct (Z.to_nat n) as [|T] eqn:E; [lia|]. simpl.
    match goal with |- head (stride_walk T ?f n ?i [0]) = _ =>
      destruct (stride_walk_prefix f n T i [0]) as [rest ->] end.
    done.
  - unfold stride_spec. apply (stride_walk_perm n k _ Hn).
    + intros i Hi. rewrite add_small; [done|lia|lia|lia].
    + apply NoDup_nil_2.
    + by intros x ?%elem_of_nil.
    + simpl. lia.
    + intros _. split; [lia|apply not_elem_of_nil].
  - vm_compute. reflexivity.
Qed.

Lemma build_order_stride_walk_witness :
  build_order_stride true 6 4 = Some (stride_spec 6 4)
  /\ stride_spec 6 4 = [0; 4; 2; 1; 5; 3].
Proof.
  split; [|vm_compute; reflexivity].
  apply (build_order_stride_walk true 6 4); unfold Word.modulus; lia.
Defined.

(** C8 as stated fails when [calloc] returns NULL: the code then writes the
    identity order, not the stride walk. *)
Lemma build_order_stride_calloc_failure :
  build_order_stride false 8 3 = Some [0; 1; 2; 3; 4; 5; 6; 7]
  /\ build_order_stride false 8 3 <> Some [0; 3; 6; 1; 4; 7; 2; 5].
Proof. split; [vm_compute; reflexivity|vm_compute; discriminate]. Qed.

(** The advance [(i + k) % num_nodes] is computed on 64-bit words: when
    [i + k] wraps, the order written is not the stride walk. *)
Lemma build_order_stride_wraps :
  build_order_stride true 5 (2 ^ 64 - 2) = Some [0; 4; 2; 1; 3]
  /\ stride_spec 5 (2 ^ 64 - 2) = [0; 4; 3; 2; 1].
Proof. split; vm_compute; reflexivity. Qed.

(** *** Chase graph *)

Section ChaseGraph.

Variables (base n node_stride : Z) (order : list Z).
Hypothesis n_ge : 2 <= n.
Hypothesis order_perm : order ≡ₚ seqZ 0 n.
Hypothesis stride_ge : 8 <= node_stride.
Hypothesis base_ge : 0 <= base.
Hypothesis buffer_fits : base + n * node_stride <= Word.modulus.

Local Abbreviation addr := (node_addr base node_stride).
Local Abbreviation P := (order_at order).

Lemma order_length : length order = Z.to_nat n.
Proof. by rewrite (Permutation_length order_perm), length_seqZ. Qed.

Lemma order_lookup i : 0 <= i < n -> order !! Z.to_nat i = Some (P i).
Proof.
  intros Hi. unfold order_at.
  destruct (lookup_lt_is_Some_2 order (Z.to_nat i)) as [a ->]; [rewrite order_length; lia|done].
Qed.

Lemma order_at_range i : 0 <= i < n -> 0 <= P i < n.
Proof.
  intros Hi. assert (H : P i ∈ order) by (eapply list_elem_of_lookup_2, order_lookup; done).
  revert H. generalize (P i). intros v H.
  rewrite order_perm in H. apply elem_of_seqZ in H. lia.
Qed.

Lemma order_at_inj i j : 0 <= i < n -> 0 <= j < n -> P i = P j -> i = j.
Proof.
  intros Hi Hj E. assert (Hnd : NoDup order) by (rewrite order_perm; apply NoDup_seqZ).
  pose proof (order_lookup i Hi) as H1. pose proof (order_lookup j Hj) as H2.
  rewrite E in H1. pose proof (NoDup_lookup _ _ _ _ Hnd H1 H2). lia.
Qed.

Lemma order_at_surj y : 0 <= y < n -> exists i, 0 <= i < n /\ P i = y.
Proof.
  intros Hy. assert (H : y ∈ order) by (rewrite order_perm; apply elem_of_seqZ; lia).
  apply list_elem_of_lookup in H as [i Hi]. exists (Z.of_nat i).
  pose proof (lookup_lt_Some _ _ _ Hi) as Hlt. rewrite order_length in Hlt.
  split; [lia|]. unfold order_at. by rewrite Nat2Z.id, Hi.
Qed.

Lemma node_addr_eq x : 0 <= x < n -> addr x = base + x * node_stride.
Proof.
  intros Hx. unfold node_addr, Word.add, Word.mul, Word.wrap.
  assert (0 <= x * node_stride <= (n - 1) * node_stride) by nia.
  rewrite (Z.mod_small (x * node_stride)) by nia. apply Z.mod_small. nia.
Qed.

Lemma node_addr_inj x y : 0 <= x < n -> 0 <= y < n -> addr x = addr y -> x = y.
Proof. intros Hx Hy. rewrite !node_addr_eq by done. nia. Qed.

Lemma succ_index i : 0 <= i < n -> Word.add i 1 mod n = (i + 1) mod n.
Proof. intros Hi. rewrite add_small; [done|lia|lia|]. unfold Word.modulus in *. nia. Qed.

Local Abbreviation body :=
  (fun i (mem : gmap Z Z) =>
     <[addr (P i) := addr (P (Word.add i 1 mod n))]> mem).

Lemma build_loop_spec todo : forall i (mem : gmap Z Z),
  0 <= i -> i + Z.of_nat todo <= n ->
  let mem' := for_loop todo i body mem in
  (forall j, i <= j < i + Z.of_nat todo ->
     mem' !! addr (P j) = Some (addr (P ((j + 1) mod n))))
  /\ (forall a, (forall j, i <= j < i + Z.of_nat todo -> a <> addr (P j)) ->
        mem' !! a = mem !! a).
Proof.
  induction todo as [|t IH]; intros i mem Hi Hle; simpl.
  - split; [intros; lia|done].
  - destruct (IH (i + 1) (body i mem)) as [H1 H2]; [lia|lia|]. split.
    + intros j Hj. destruct (Z.eq_dec j i) as [->|Hne].
      * rewrite H2.
        -- rewrite lookup_insert_eq. by rewrite succ_index by lia.
        -- intros j Hj' E. apply node_addr_inj in E; [|apply order_at_range; lia..].
           apply order_at_inj in E; lia.
      * apply H1. lia.
    + intros a Ha. rewrite H2 by (intros; apply Ha; lia).
      rewrite lookup_insert_ne; [done|]. intros E. by apply (Ha i); [lia|].
Qed.

Local Abbreviation graph mem := (build_cycle_from_order base n node_stride order mem).

Lemma graph_edge mem i :
  0 <= i < n -> graph mem !! addr (P i) = Some (addr (P ((i + 1) mod n))).
Proof.
  intros Hi. unfold build_cycle_from_order, for_upto.
  destruct (build_loop_spec (Z.to_nat n) 0 mem) as [H _]; [lia|lia|]. apply H. lia.
Qed.

Lemma chase_steps mem k : forall i,
  0 <= i < n -> chase (graph mem) (addr (P i)) k = Some (addr (P ((i + Z.of_nat k) mod n))).
Proof.
  induction k as [|k IH]; intros i Hi.
  - simpl. rewrite Z.add_0_r. by rewrite Z.mod_small.
  - cbn [chase]. rewrite graph_edge by done. simpl.
    rewrite IH by (apply Z.mod_pos_bound; lia).
    rewrite Zplus_mod_idemp_l. do 4 f_equal. lia.
Qed.

Lemma graph_single_cycle mem x :
  0 <= x < n ->
  chase (graph mem) (addr x) (Z.to_nat n) = Some (addr x)
  /\ (forall k, (0 < k < Z.to_nat n)%nat -> chase (graph mem) (addr x) k <> Some (addr x))
  /\ (forall y, 0 <= y < n ->
        exists k, (k < Z.to_nat n)%nat /\ chase (graph mem) (addr x) k = Some (addr y)).
Proof.
  intros Hx. destruct (order_at_surj x Hx) as (i & Hi & <-). split; [|split].
  - rewrite chase_steps by done. rewrite Z2Nat.id by lia.
    replace (i + n) with (i + 1 * n) by lia. rewrite Z.mod_add by lia.
    by rewrite Z.mod_small.
  - intros k Hk. rewrite chase_steps by done. intros [= E].
    apply node_addr_inj in E; [|apply order_at_range; (done || apply Z.mod_pos_bound; lia)..].
    apply order_at_inj in E; [|apply Z.mod_pos_bound; lia|done].
    destruct (Z.lt_ge_cases (i + Z.of_nat k) n).
    + rewrite Z.mod_small in E by lia. lia.
    + replace (i + Z.of_nat k) with (i + Z.of_nat k - n + 1 * n) in E by lia.
      rewrite Z.mod_add, Z.mod_small in E by lia. lia.
  - intros y Hy. destruct (order_at_surj y Hy) as (j & Hj & <-).
    exists (Z.to_nat ((j - i) mod n)).
    pose proof (Z.mod_pos_bound (j - i) n ltac:(lia)).
    split; [lia|]. rewrite chase_steps by done. rewrite Z2Nat.id by lia.
    rewrite Zplus_mod_idemp_r. replace (i + (j - i)) with j by lia.
    by rewrite Z.mod_small.
Qed.

Lemma graph_out_degree mem x :
  0 <= x < n ->
  exists y, 0 <= y < n /\ graph mem !! addr x = Some (addr y)
    /\ forall y', 0 <= y' < n -> graph mem !! addr x = Some (addr y') -> y' = y.
Proof.
  intros Hx. destruct (order_at_surj x Hx) as (i & Hi & <-).
  exists (P ((i + 1) mod n)).
  assert (0 <= P ((i + 1) mod n) < n) by (apply order_at_range, Z.mod_pos_bound; lia).
  split; [done|]. split; [by apply graph_edge|].
  intros y' Hy'. rewrite graph_edge by done. intros [= E]. by apply node_addr_inj in E.
Qed.

Lemma graph_in_degree mem y :
  0 <= y < n ->
  exists x, 0 <= x < n /\ graph mem !! addr x = Some (addr y)
    /\ forall x', 0 <= x' < n -> graph mem !! addr x' = Some (addr y) -> x' = x.
Proof.
  intros Hy. destruct (order_at_surj y Hy) as (j & Hj & <-).
  pose proof (Z.mod_pos_bound (j - 1) n ltac:(lia)) as Hm.
  assert (Hback : ((j - 1) mod n + 1) mod n = j).
  { rewrite Zplus_mod_idemp_l. replace (j - 1 + 1) with j by lia. by apply Z.mod_small. }
  exists (P ((j - 1) mod n)). split; [by apply order_at_range|]. split.
  - rewrite graph_edge by done. by rewrite Hback.
  - intros x' Hx'. destruct (order_at_surj x' Hx') as (i & Hi & <-).
    rewrite graph_edge by done. intros [= E].
    apply node_addr_inj in E; [|apply order_at_range; (done || apply Z.mod_pos_bound; lia)..].
    apply order_at_inj in E; [|apply Z.mod_pos_bound; lia|done].
    f_equal. rewrite <- E. rewrite Zminus_mod_idemp_l.
    replace (i + 1 - 1) with i by lia. by rewrite Z.mod_small.
Qed.

End ChaseGraph.

(** C5: for a permutation [order] of [0, n), [n >= 2], a stride of at least
    one pointer and a buffer inside the address space, the graph stores at
    node [order[i]] the address of node [order[(i+1) mod n]]; every node has
    exactly one successor and exactly one predecessor; and from every node
    the chase is back after exactly [n] steps, not earlier, having visited
    every node. *)
Theorem chase_graph_single_cycle (base n node_stride : Z) (order : list Z) (mem : gmap Z Z) :
  2 <= n -> order ≡ₚ seqZ 0 n ->
  8 <= node_stride -> 0 <= base -> base + n * node_stride <= Word.modulus ->
  let addr := node_addr base node_stride in
  let graph := build_cycle_from_order base n node_stride order mem in
  (forall i, 0 <= i < n ->
     graph !! addr (order_at order i) = Some (addr (order_at order ((i + 1) mod n))))
  /\ (forall x, 0 <= x < n ->
        exists y, 0 <= y < n /\ graph !! addr x = Some (addr y)
          /\ forall y', 0 <= y' < n -> graph !! addr x = Some (addr y') -> y' = y)
  /\ (forall y, 0 <= y < n ->
        exists x, 0 <= x < n /\ graph !! addr x = Some (addr y)
          /\ forall x', 0 <= x' < n -> graph !! addr x' = Some (addr y) -> x' = x)
  /\ (forall x, 0 <= x < n ->
        chase graph (addr x) (Z.to_nat n) = Some (addr x)
        /\ (forall k, (0 < k < Z.to_nat n)%nat -> chase graph (addr x) k <> Some (addr x))
        /\ (forall y, 0 <= y < n ->
              exists k, (k < Z.to_nat n)%nat /\ chase graph (addr x) k = Some (addr y))).
Proof.
  intros Hn Hp Hs Hb Hfit addr graph. split; [|split; [|split]].
  - intros i Hi. by apply graph_edge.
  - intros x Hx. by apply graph_out_degree.
  - intros y Hy. by apply graph_in_degree.
  - intros x Hx. by apply graph_single_cycle.
Qed.

Lemma chase_graph_single_cycle_witness :
  let graph := build_cycle_from_order 4096 3 256 [2; 0; 1] ∅ in
  graph !! (4096 + 2 * 256) = Some 4096
  /\ graph !! 4096 = Some (4096 + 256)
  /\ graph !! (4096 + 256) = Some (4096 + 2 * 256)
  /\ chase graph (4096 + 2 * 256) 3 = Some (4096 + 2 * 256).
Proof.
  assert (Hp : [2; 0; 1] ≡ₚ seqZ 0 3).
  { change (seqZ 0 3) with ([0; 1] ++ [2]). apply Permutation_cons_append. }
  pose proof (chase_graph_single_cycle 4096 3 256 [2; 0; 1] ∅
                ltac:(lia) Hp ltac:(lia) ltac:(lia) ltac:(unfold Word.modulus; lia))
    as (Hedge & _ & _ & Hcyc).
  intros graph. split; [exact (Hedge 0 ltac:(lia))|].
  split; [exact (Hedge 1 ltac:(lia))|]. split; [exact (Hedge 2 ltac:(lia))|].
  exact (proj1 (Hcyc 2 ltac:(lia))).
Defined.

(** *** Size generator *)

Lemma emit_elem cap c v out x :
  x ∈ emit cap c v out -> x ∈ out \/ (x = v /\ c = true).
Proof.
  unfold emit. destruct c; [|by left]. destruct (_ <? _); [|by left].
  intros [?| ->%list_elem_of_singleton]%elem_of_app; [by left|by right].
Qed.

Lemma emit_sub cap c v out x : x ∈ out -> x ∈ emit cap c v out.
Proof.
  intros Hx. unfold emit. destruct c; [|done]. destruct (_ <? _); [|done].
  apply elem_of_app. by left.
Qed.

Lemma emit_length cap c v out :
  (length out <= length (emit cap c v out) <= length out + 1)%nat.
Proof.
  unfold emit. destruct c; [|lia]. destruct (_ <? _); [|lia].
  rewrite length_app. simpl. lia.
Qed.

Lemma emit_cap cap c v out :
  Z.of_nat (length out) <= cap -> Z.of_nat (length (emit cap c v out)) <= cap.
Proof.
  unfold emit. destruct c; [|done]. destruct (Z.ltb_spec (Z.of_nat (length out)) cap); [|done].
  rewrite length_app. simpl. lia.
Qed.

Lemma emit_pushed cap v out :
  Z.of_nat (length (emit cap true v out)) < cap -> v ∈ emit cap true v out.
Proof.
  unfold emit. destruct (Z.ltb_spec (Z.of_nat (length out)) cap); [|lia].
  intros _. apply elem_of_app. right. by apply list_elem_of_singleton.
Qed.

Section SizeStage.

Variables (min_bytes max_bytes out_cap p q : Z).
Hypothesis p_eq : p = 8 * q.
Hypothesis q_pos : 0 < q.

Lemma stage_inv_emit J out c j :
  stage_inv min_bytes max_bytes p q J out -> j ∉ J -> 0 <= j ->
  (c = true -> min_bytes <= p + j * q <= max_bytes) ->
  stage_inv min_bytes max_bytes p q (j :: J) (emit out_cap c (p + j * q) out).
Proof.
  intros [Hnd Hall] Hj Hj0 Hc. split.
  - unfold emit. destruct c; [|done]. destruct (_ <? _); [|done].
    apply NoDup_app. split; [done|]. split; [|apply NoDup_singleton].
    intros x Hx ->%list_elem_of_singleton.
    destruct (Hall _ Hx) as [_ [Hlt|(j' & Hj' & E)]]; [nia|].
    assert (j' = j) by nia. by subst.
  - intros v [Hv|[-> ->]]%emit_elem.
    + destruct (Hall v Hv) as [? [?|(j' & ? & ?)]]; (split; [done|]); [by left|].
      right. exists j'. split; [|done]. by apply elem_of_cons; right.
    + split; [by apply Hc|]. right. exists j. split; [by apply elem_of_cons; left|done].
Qed.

Lemma stage_inv_done J out :
  stage_inv min_bytes max_bytes p q J out -> (forall j, j ∈ J -> j <= 7) ->
  NoDup out /\ forall v, v ∈ out -> min_bytes <= v <= max_bytes /\ v < 2 * p.
Proof.
  intros [Hnd Hall] HJ. split; [done|]. intros v Hv.
  destruct (Hall v Hv) as [? [?|(j & Hj & ->)]]; (split; [done|]); [lia|].
  specialize (HJ j Hj). nia.
Qed.

End SizeStage.

Lemma in_bounds_true lo hi v : in_bounds lo hi v = true -> lo <= v <= hi.
Proof. unfold in_bounds. intros H%andb_true_iff. lia. Qed.

Ltac emit_step :=
  apply stage_inv_emit;
  [ done | lia | | rewrite ?elem_of_cons, ?elem_of_nil; lia | lia
  | first [ apply in_bounds_true | intros; lia ] ].

Lemma sizes_body_spec min_bytes max_bytes out_cap p q out :
  p = 8 * q -> 128 <= q -> p <= 2 ^ 63 -> p <= max_bytes -> max_bytes < Word.modulus ->
  NoDup out -> (forall v, v ∈ out -> min_bytes <= v <= max_bytes /\ v < p) ->
  let out' := sizes_body min_bytes max_bytes out_cap p out in
  NoDup out'
  /\ (forall v, v ∈ out' -> min_bytes <= v <= max_bytes /\ v < 2 * p)
  /\ (forall v, v ∈ out -> v ∈ out')
  /\ (length out <= length out' <= length out + 8)%nat
  /\ (Z.of_nat (length out) <= out_cap -> Z.of_nat (length out') <= out_cap)
  /\ (min_bytes <= p -> Z.of_nat (length out') < out_cap -> p ∈ out').
Proof.
  intros Hp Hq Hp63 Hmax Hmod Hnd Hall out'.
  assert (Hinv0 : stage_inv min_bytes max_bytes p q [] out).
  { split; [done|]. intros v Hv. destruct (Hall v Hv). split; [done|by left]. }
  assert (E15 : Word.add p (p / 2) = p + 4 * q) by (rewrite add_small; word_lia).
  assert (E125 : Word.add p (p / 4) = p + 2 * q) by (rewrite add_small; word_lia).
  assert (E1125 : Word.add p (p / 8) = p + 1 * q) by (rewrite add_small; word_lia).
  assert (Emul : forall c, 0 <= c <= 7 -> p <= 2 ^ 20 -> Word.mul p c = p * c).
  { intros c Hc Hle. unfold Word.mul, Word.wrap, Word.modulus. apply Z.mod_small. nia. }
  subst out'. unfold sizes_body. rewrite E15, E125, E1125.
  set (o1 := emit out_cap (min_bytes <=? p) p out).
  assert (H1 : stage_inv min_bytes max_bytes p q [0] o1).
  { subst o1.
    replace (emit out_cap (min_bytes <=? p) p out)
      with (emit out_cap (min_bytes <=? p) (p + 0 * q) out) by (f_equal; lia).
    by emit_step. }
  assert (Hp1 : min_bytes <= p -> forall o, (forall v, v ∈ o1 -> v ∈ o) ->
                (length o1 <= length o)%nat -> Z.of_nat (length o) < out_cap -> p ∈ o).
  { intros Hmp o Hsub Hlen Hcap. apply Hsub. subst o1.
    replace (min_bytes <=? p) with true in * by lia. apply emit_pushed. lia. }
  set (o2 := emit out_cap _ (p + 4 * q) o1).
  assert (H2 : stage_inv min_bytes max_bytes p q [4; 0] o2).
  { subst o2. by emit_step. }
  pose proof (emit_length out_cap (min_bytes <=? p) p out) as L1. fold o1 in L1.
  pose proof (emit_length out_cap (in_bounds min_bytes max_bytes (p + 4 * q)) (p + 4 * q) o1)
    as L2. fold o2 in L2.
  assert (S1 : forall v, v ∈ out -> v ∈ o1) by (intros; by apply emit_sub).
  assert (S2 : forall v, v ∈ o1 -> v ∈ o2) by (intros; by apply emit_sub).
  assert (C1 : Z.of_nat (length out) <= out_cap -> Z.of_nat (length o1) <= out_cap)
    by apply emit_cap.
  assert (C2 : Z.of_nat (length o1) <= out_cap -> Z.of_nat (length o2) <= out_cap)
    by apply emit_cap.
  destruct (Z.leb_spec p (2 ^ 20)) as [Hs|Hs].
  - replace (Word.add p (Word.mul p 3 / 4)) with (p + 6 * q)
      by (rewrite Emul by lia; rewrite add_small; word_lia).
    set (o3 := emit out_cap _ (p + 2 * q) o2).
    set (o4 := emit out_cap _ (p + 6 * q) o3).
    assert (H4 : stage_inv min_bytes max_bytes p q [6; 2; 4; 0] o4).
    { subst o4 o3. by do 2 emit_step. }
    pose proof (emit_length out_cap (in_bounds min_bytes max_bytes (p + 2 * q)) (p + 2 * q) o2)
      as L3. fold o3 in L3.
    pose proof (emit_length out_cap (in_bounds min_bytes max_bytes (p + 6 * q)) (p + 6 * q) o3)
      as L4. fold o4 in L4.
    assert (S4 : forall v, v ∈ o2 -> v ∈ o4) by (intros; by do 2 apply emit_sub).
    assert (C4 : Z.of_nat (length o2) <= out_cap -> Z.of_nat (length o4) <= out_cap)
      by (intros; by do 2 apply emit_cap).
    destruct (Z.leb_spec p (128 * 2 ^ 10)) as [Ht|Ht].
    + replace (Word.add p (Word.mul p 3 / 8)) with (p + 3 * q)
        by (rewrite Emul by lia; rewrite add_small; word_lia).
      replace (Word.add p (Word.mul p 5 / 8)) with (p + 5 * q)
        by (rewrite Emul by lia; rewrite add_small; word_lia).
      replace (Word.add p (Word.mul p 7 / 8)) with (p + 7 * q)
        by (rewrite Emul by lia; rewrite add_small; word_lia).
      set (o5 := emit out_cap _ (p + 1 * q) o4).
      set (o6 := emit out_cap _ (p + 3 * q) o5).
      set (o7 := emit out_cap _ (p + 5 * q) o6).
      set (o8 := emit out_cap _ (p + 7 * q) o7).
      assert (H8 : stage_inv min_bytes max_bytes p q [7; 5; 3; 1; 6; 2; 4; 0] o8).
      { subst o8 o7 o6 o5. by do 4 emit_step. }
      pose proof (emit_length out_cap (in_bounds min_bytes max_bytes (p + 1 * q)) (p + 1 * q) o4)
        as L5. fold o5 in L5.
      pose proof (emit_length out_cap (in_bounds min_bytes max_bytes (p + 3 * q)) (p + 3 * q) o5)
        as L6. fold o6 in L6.
      pose proof (emit_length out_cap (in_bounds min_bytes max_bytes (p + 5 * q)) (p + 5 * q) o6)
        as L7. fold o7 in L7.
      pose proof (emit_length out_cap (in_bounds min_bytes max_bytes (p + 7 * q)) (p + 7 * q) o7)
        as L8. fold o8 in L8.
      assert (S8 : forall v, v ∈ o4 -> v ∈ o8) by (intros; by do 4 apply emit_sub).
      destruct (stage_inv_done _ _ _ _ Hp ltac:(lia) _ _ H8) as [N8 A8].
      { intros j. rewrite ?elem_of_cons, ?elem_of_nil. lia. }
      split; [done|]. split; [done|]. split; [by auto|]. split; [lia|]. split.
      * intros. by do 4 apply emit_cap; auto.
      * intros Hmp Hc. apply Hp1; [done|by auto|lia|done].
    + destruct (stage_inv_done _ _ _ _ Hp ltac:(lia) _ _ H4) as [N4 A4].
      { intros j. rewrite ?elem_of_cons, ?elem_of_nil. lia. }
      split; [done|]. split; [done|]. split; [by auto|]. split; [lia|]. split; [by auto|].
      intros Hmp Hc. apply Hp1; [done|by auto|lia|done].
  - replace (p <=? 128 * 2 ^ 10) with false by lia.
    destruct (stage_inv_done _ _ _ _ Hp ltac:(lia) _ _ H2) as [N2 A2].
    { intros j. rewrite ?elem_of_cons, ?elem_of_nil. lia. }
    split; [done|]. split; [done|]. split; [by auto|]. split; [lia|]. split; [by auto|].
    intros Hmp Hc. apply Hp1; [done|by auto|lia|done].
Qed.

Lemma pow2_le_inv a b : 0 <= a -> 0 <= b -> 2 ^ a <= 2 ^ b -> a <= b.
Proof.
  intros Ha Hb H. destruct (Z.le_gt_cases a b); [done|].
  assert (2 ^ b < 2 ^ a) by (apply Z.pow_lt_mono_r; lia). lia.
Qed.

Lemma sizes_loop_eq fuel min_bytes max_bytes out_cap p out :
  sizes_loop fuel min_bytes max_bytes out_cap p out =
  if p <=? max_bytes then
    match fuel with
    | O => None
    | S fuel' =>
        let out := sizes_body min_bytes max_bytes out_cap p out in
        if Word.shr Word.SIZE_MAX 1 <? p then Some out
        else sizes_loop fuel' min_bytes max_bytes out_cap (Word.shl p 1) out
    end
  else Some out.
Proof. by destruct fuel. Qed.

Section SizeLoop.

Variables (min_bytes max_bytes out_cap e0 : Z).
Hypothesis max_range : max_bytes < Word.modulus.
Hypothesis e0_ge : 10 <= e0.

Lemma sizes_loop_spec fuel : forall e out,
  e0 <= e <= 63 -> 64 - e <= Z.of_nat fuel -> sizes_inv min_bytes max_bytes out_cap e0 e out ->
  exists out', sizes_loop fuel min_bytes max_bytes out_cap (2 ^ e) out = Some out'
               /\ sizes_post min_bytes max_bytes out_cap e0 out'.
Proof.
  induction fuel as [|fuel IH]; intros e out He Hfuel (Hnd & Hall & Hlen & Hcap & Hpow);
    [lia|].
  rewrite sizes_loop_eq.
  destruct (Z.leb_spec (2 ^ e) max_bytes) as [Hle|Hgt].
  - assert (Hq : 2 ^ e = 8 * 2 ^ (e - 3)).
    { change 8 with (2 ^ 3). rewrite <- Z.pow_add_r by lia. f_equal. lia. }
    assert (128 <= 2 ^ (e - 3)).
    { change 128 with (2 ^ 7). apply Z.pow_le_mono_r; lia. }
    assert (2 ^ e <= 2 ^ 63) by (apply Z.pow_le_mono_r; lia).
    destruct (sizes_body_spec min_bytes max_bytes out_cap (2 ^ e) (2 ^ (e - 3)) out)
      as (Hnd1 & Hall1 & Hsub1 & Hlen1 & Hcap1 & Hp1); [done..|].
    cbv zeta. set (out1 := sizes_body _ _ _ _ _) in *.
    assert (E2 : 2 * 2 ^ e = 2 ^ (e + 1)) by (rewrite Z.pow_add_r by lia; lia).
    assert (Hpow1 : Z.of_nat (length out1) < out_cap ->
                    forall e', e0 <= e' < e + 1 -> min_bytes <= 2 ^ e' -> 2 ^ e' ∈ out1).
    { intros Hc e' He' Hm. destruct (Z.eq_dec e' e) as [->|Hne].
      - by apply Hp1.
      - apply Hsub1. apply Hpow; [lia|lia|done]. }
    change (Word.shr Word.SIZE_MAX 1) with (2 ^ 63 - 1).
    destruct (Z.ltb_spec (2 ^ 63 - 1) (2 ^ e)) as [Htop|Htop].
    + exists out1. split; [done|]. split; [done|]. split; [|split; [|split]].
      * intros v Hv. by destruct (Hall1 v Hv).
      * lia.
      * intros. apply Hcap1. by apply Hcap.
      * intros Hc e' He' [Hm HM]. apply Hpow1; [done| |done].
        assert (2 ^ e' < 2 ^ 64) by (unfold Word.modulus in *; lia).
        assert (63 <= e) by (apply pow2_le_inv; lia).
        assert (e' < 64); [|lia].
        destruct (Z.lt_ge_cases e' 64); [done|].
        assert (2 ^ 64 <= 2 ^ e') by (apply Z.pow_le_mono_r; lia). lia.
    + assert (e < 63).
      { destruct (Z.eq_dec e 63) as [->|]; [lia|lia]. }
      clear Htop.
      rewrite shl1_pow2 by lia. apply IH; [lia|lia|].
      split; [done|]. split; [|split; [|split]].
      * intros v Hv. rewrite <- E2. by apply Hall1.
      * lia.
      * intros. apply Hcap1. by apply Hcap.
      * done.
  - exists out. split; [done|]. split; [done|]. split; [|split; [|split]].
    + intros v Hv. by destruct (Hall v Hv).
    + lia.
    + done.
    + intros Hc e' He' [Hm HM]. apply Hpow; [done| |done]. split; [lia|].
      destruct (Z.lt_ge_cases e' e); [done|].
      assert (2 ^ e <= 2 ^ e') by (apply Z.pow_le_mono_r; lia). lia.
Qed.

End SizeLoop.

Lemma sorted_le_nodup_lt (l : list Z) :
  StronglySorted Z.le l -> NoDup l -> StronglySorted Z.lt l.
Proof.
  induction 1 as [|x l Hs IH Hx]; intros Hnd; [constructor|].
  apply NoDup_cons in Hnd as [Hnx Hnd]. constructor; [by apply IH|].
  rewrite Forall_forall in Hx |- *. intros y Hy. specialize (Hx y Hy).
  assert (x <> y) by (intros ->; done). lia.
Qed.

Lemma generate_sizes_start min_bytes :
  0 <= min_bytes < Word.modulus ->
  exists e1 e0,
    pow2_floor_loop loop_fuel 1 min_bytes = Some (2 ^ e1)
    /\ (if 2 ^ e1 <? 1024 then 1024 else 2 ^ e1) = 2 ^ e0
    /\ 10 <= e0 <= 63
    /\ forall e', 0 <= e' -> 1024 <= 2 ^ e' -> min_bytes <= 2 ^ e' -> e0 <= e'.
Proof.
  intros Hmin. destruct (Z.eq_dec min_bytes 0) as [->|Hne].
  - exists 0, 10. split; [reflexivity|]. split; [reflexivity|]. split; [lia|].
    intros e' He' H _. apply pow2_le_inv; [lia|done|done].
  - destruct (pow2_floor_loop_spec loop_fuel 0 min_bytes) as (e1 & E & He1 & Hle & Hhi);
      [lia|unfold loop_fuel; lia|simpl; lia|].
    change (2 ^ 0) with 1 in E.
    destruct (Z.ltb_spec (2 ^ e1) 1024) as [Hsmall|Hbig].
    + exists e1, 10. split; [done|]. replace (2 ^ e1 <? 1024) with true by lia.
      split; [reflexivity|]. split; [lia|].
      intros e' He' H _. apply pow2_le_inv; [lia|done|done].
    + exists e1, e1. split; [done|]. replace (2 ^ e1 <? 1024) with false by lia.
      split; [done|]. split.
      * split; [|lia]. apply pow2_le_inv; [lia|lia|done].
      * intros e' He' _ H. apply pow2_le_inv; [lia|done|lia].
Qed.

(** C7, amended: for [0 <= min_bytes <= max_bytes < 2^64] the list is
    strictly ascending, every value lies in [min_bytes, max_bytes], the
    length is at most the cap (and at most 432), and, when the cap is not
    reached, every power of two that is at least 1024 and lies in
    [min_bytes, max_bytes] is in the list. *)
Theorem generate_sizes_spec (min_bytes max_bytes out_cap : Z) :
  0 <= min_bytes <= max_bytes -> max_bytes < Word.modulus -> 0 <= out_cap ->
  exists sizes,
    generate_sizes min_bytes max_bytes out_cap = Some sizes
    /\ StronglySorted Z.lt sizes
    /\ (forall v, v ∈ sizes -> min_bytes <= v <= max_bytes)
    /\ Z.of_nat (length sizes) <= out_cap
    /\ Z.of_nat (length sizes) <= 432
    /\ (Z.of_nat (length sizes) < out_cap ->
        forall e, 0 <= e -> 1024 <= 2 ^ e -> min_bytes <= 2 ^ e <= max_bytes ->
                  2 ^ e ∈ sizes).
Proof.
  intros Hmin Hmax Hcap.
  destruct (generate_sizes_start min_bytes) as (e1 & e0 & E1 & Ep & He0 & Hfirst); [lia|].
  destruct (sizes_loop_spec min_bytes max_bytes out_cap e0 Hmax ltac:(lia) loop_fuel e0 [])
    as (out & Eloop & Hnd & Hall & Hlen & Hc & Hpow); [lia|unfold loop_fuel; lia| |].
  { split; [apply NoDup_nil_2|]. split; [by intros v ?%elem_of_nil|]. simpl.
    split; [lia|]. split; [done|]. intros _ e' He'. lia. }
  unfold generate_sizes. rewrite E1. cbn [mbind option_bind]. rewrite Ep, Eloop.
  cbn [mbind option_bind]. eexists. split; [done|].
  pose proof (merge_sort_Permutation Z.le out) as Hperm. fold (qsort out) in Hperm.
  split; [|split; [|split; [|split]]].
  - apply sorted_le_nodup_lt; [apply StronglySorted_merge_sort; apply _|by rewrite Hperm].
  - intros v Hv. rewrite Hperm in Hv. by apply Hall.
  - rewrite (Permutation_length Hperm). by apply Hc.
  - rewrite (Permutation_length Hperm). lia.
  - rewrite (Permutation_length Hperm). intros Hlt e He H1024 Hr.
    rewrite Hperm. apply Hpow; [done| |done]. apply Hfirst; [done|done|lia].
Qed.

Lemma generate_sizes_spec_witness :
  exists sizes,
    generate_sizes 4096 16384 max_samples = Some sizes
    /\ StronglySorted Z.lt sizes
    /\ (forall v, v ∈ sizes -> 4096 <= v <= 16384)
    /\ Z.of_nat (length sizes) <= max_samples
    /\ Z.of_nat (length sizes) <= 432
    /\ (Z.of_nat (length sizes) < max_samples ->
        forall e, 0 <= e -> 1024 <= 2 ^ e -> 4096 <= 2 ^ e <= 16384 -> 2 ^ e ∈ sizes).
Proof.
  apply (generate_sizes_spec 4096 16384 max_samples);
    unfold max_samples, Word.modulus; lia.
Defined.

(** C7 as stated fails below 1024: 512 is a power of two in [512, 2048],
    and the generator, which starts at 1024, does not emit it. *)
Lemma generate_sizes_misses_small_power :
  0 <= 512 <= 2048 /\ 512 = 2 ^ 9
  /\ exists sizes, generate_sizes 512 2048 max_samples = Some sizes
                   /\ Z.of_nat (length sizes) < max_samples /\ 512 ∉ sizes.
Proof.
  split; [lia|]. split; [reflexivity|].
  exists [1024; 1152; 1280; 1408; 1536; 1664; 1792; 1920; 2048].
  split; [vm_compute; reflexivity|]. split; [vm_compute; reflexivity|].
  rewrite !elem_of_cons, elem_of_nil. lia.
Qed.

(** *** Measurer *)


Lemma timed_chase_trace clock w :
  trace (snd (timed_chase clock w)) = trace w
  /\ clock_reads (snd (timed_chase clock w)) = S (S (clock_reads w)).
Proof. done. Qed.

Lemma mul2_small steps : 0 <= steps <= steps_cap -> Word.mul steps 2 = 2 * steps.
Proof.
  unfold steps_cap, Word.mul, Word.wrap, Word.modulus. intros H.
  rewrite Z.mod_small; lia.
Qed.



Lemma warmup_loop_spec nodes todo : forall (i : Z) w,
  let w' := for_loop todo i (fun _ w => log_event (EvWarmup nodes) w) w in
  clock_reads w' = clock_reads w
  /\ trace w' = trace w ++ replicate todo (EvWarmup nodes).
Proof.
  induction todo as [|todo IH]; intros i w; simpl.
  - by rewrite app_nil_r.
  - destruct (IH (i + 1) (log_event (EvWarmup nodes) w)) as [-> ->].
    split; [done|]. simpl. by rewrite <- app_assoc.
Qed.



Lemma initial_steps_eq nodes :
  0 <= nodes < 2 ^ 59 ->
  initial_steps nodes = Z.max 1000 (16 * nodes)
  /\ 1000 <= initial_steps nodes <= 2 * steps_cap.
Proof.
  intros Hn. unfold initial_steps, Word.mul, Word.wrap, Word.modulus, steps_cap.
  rewrite Z.mod_small by lia. destruct (Z.ltb_spec (nodes * 16) 1000); lia.
Qed.













(** *** Boundary detector *)

Lemma detect_step_written samples n out_cap i st :
  (length (out st) <= Z.to_nat (found st))%nat -> Z.of_nat (length (out st)) <= out_cap ->
  0 <= found st ->
  let st' := detect_step samples n out_cap i st in
  (length (out st') <= Z.to_nat (found st'))%nat /\ Z.of_nat (length (out st')) <= out_cap
  /\ 0 <= found st'.
Proof.
  intros H1 H2 H3. unfold detect_step.
  destruct (if Dbl.gt _ _ && _ then _ else _); simpl; [|done].
  destruct (Z.ltb_spec (found st) out_cap); rewrite ?length_app; simpl; lia.
Qed.

Lemma detect_loop_written samples n out_cap todo : forall i st,
  (length (out st) <= Z.to_nat (found st))%nat -> Z.of_nat (length (out st)) <= out_cap ->
  0 <= found st ->
  Z.of_nat (length (out (detect_loop samples n out_cap todo i st))) <= out_cap.
Proof.
  induction todo as [|todo IH]; intros i st H1 H2 H3; simpl; [done|].
  destruct (detect_step_written samples n out_cap i st H1 H2 H3) as (? & ? & ?).
  by apply IH.
Qed.

Lemma detect_boundaries_written_le_cap samples out_cap :
  0 <= out_cap -> Z.of_nat (length (snd (detect_boundaries samples out_cap))) <= out_cap.
Proof.
  intros Hc. unfold detect_boundaries. destruct (_ =? 0); simpl; [done|].
  apply detect_loop_written; simpl; lia.
Qed.

(** C6: on the synthetic nine-sample curve the detector returns exactly two
    boundaries; the first is at 32 KiB with ratio 2.5 and the second at
    256 KiB with a ratio between 3.0 and 3.1 (8.0 over the plateau mean 2.6);
    each size is that of the last sample before the step. *)
Theorem detect_boundaries_synthetic :
  exists r1 r2 : float,
    detect_boundaries synthetic_curve 8
      = (2, [mkBoundary (32 * KiB) r1; mkBoundary (256 * KiB) r2])
    /\ r1 = 2.5%float
    /\ Dbl.lt 3.0%float r2 = true /\ Dbl.lt r2 3.1%float = true
    /\ nth_error synthetic_curve 3 = Some (mkSample (32 * KiB) 1.0%float)
    /\ nth_error synthetic_curve 6 = Some (mkSample (256 * KiB) 2.7%float).
Proof.
  eexists _, _. split; [vm_compute; reflexivity|].
  repeat split; vm_compute; reflexivity.
Qed.

(** C1 (evaluation at the failing input): on the twenty-sample staircase
    the detector returns 9 although only 8 entries were written, and the
    summary loop of [main] then reads a ninth entry that was never written. *)
Theorem detect_boundaries_count_exceeds_cap :
  fst (detect_boundaries staircase main_bounds_cap) = 9
  /\ length (snd (detect_boundaries staircase main_bounds_cap)) = 8%nat
  /\ nth_error (main_summary_reads staircase) 8 = Some None.
Proof. vm_compute. repeat split. Qed.

(** * Further properties of the program *)

(** *** Boundary detector: where boundaries can be *)

Lemma to_int_small x : 0 <= x < 2 ^ 31 -> Word.to_int x = x.
Proof.
  intros Hx. unfold Word.to_int. rewrite Z.mod_small by lia.
  destruct (Z.ltb_spec x (2 ^ 31)); lia.
Qed.

Lemma last_cons_default (a d : Z) (l : list Z) :
  default d (last (a :: l)) = default a (last l).
Proof.
  destruct l as [|b l]; [done|]. rewrite last_cons_cons.
  destruct (last (b :: l)) eqn:E; [done|]. by apply last_None in E.
Qed.

Lemma spaced_snoc idxs : forall prev j,
  spaced prev idxs -> default prev (last idxs) + 2 <= j -> spaced prev (idxs ++ [j]).
Proof.
  induction idxs as [|a idxs IH]; intros prev j Hs Hj; [simpl in *; done|].
  rewrite last_cons_default in Hj. destruct Hs as [Ha Hs].
  split; [done|]. by apply IH.
Qed.

Lemma spaced_last idxs : forall prev,
  spaced prev idxs -> prev + 2 * Z.of_nat (length idxs) <= default prev (last idxs).
Proof.
  induction idxs as [|a idxs IH]; intros prev Hs; [simpl; lia|].
  rewrite last_cons_default. destruct Hs as [Ha Hs]. specialize (IH a Hs).
  cbn [length]. lia.
Qed.

Lemma last_default_mem (idxs : list Z) d :
  idxs <> [] -> default d (last idxs) ∈ idxs.
Proof.
  intros Hne. destruct (last idxs) as [x|] eqn:E.
  - simpl. apply last_Some in E as [l' ->]. set_solver.
  - apply last_None in E. done.
Qed.

Lemma detect_step_inv samples n out_cap i st idxs :
  1 <= i < n -> n < 2 ^ 31 -> 0 <= out_cap ->
  detect_inv samples out_cap i st idxs ->
  exists idxs',
    detect_inv samples out_cap (i + 1) (detect_step samples n out_cap i st) idxs'
    /\ (idxs' = idxs \/ idxs' = idxs ++ [i]).
Proof.
  intros Hi Hn Hcap (Hfound & Hlast & Hsp & Hlt & Hout).
  assert (Hl : 0 <= last_boundary_idx st < i).
  { rewrite Hlast. destruct (decide (idxs = [])) as [->|Hne]; [simpl; lia|].
    pose proof (last_default_mem idxs 0 Hne) as Hm.
    rewrite Forall_forall in Hlt. specialize (Hlt _ Hm).
    pose proof (spaced_last idxs 0 Hsp). lia. }
  unfold detect_step.
  set (r := PrimFloat.div (ns_per_access (sample_at samples i)) (plateau_avg st)).
  match goal with |- context [if ?c then _ else _] =>
    match c with (if _ then _ else false) => destruct c eqn:Esus end end.
  - assert (Hg : Dbl.gt r jump_threshold = true
                 /\ 2 <= i - last_boundary_idx st).
    { destruct (Dbl.gt r jump_threshold) eqn:Eg; [|done]. split; [done|].
      cbn [andb] in Esus.
      destruct (Z.leb_spec min_plateau_points
                  (Word.to_int (Word.sub i (last_boundary_idx st)))) as [H|H]; [|done].
      rewrite sub_small in H by word_lia. rewrite to_int_small in H by lia.
      unfold min_plateau_points in H. lia. }
    destruct Hg as [Hg Hgap].
    exists (idxs ++ [i]). split; [|by right].
    split; [|split; [|split; [|split]]]; cbn [found last_boundary_idx out].
    + rewrite length_app. simpl. lia.
    + by rewrite last_snoc.
    + apply spaced_snoc; [done|]. rewrite <- Hlast. lia.
    + apply Forall_app. split; [eapply Forall_impl; [exact Hlt|]; simpl; lia|].
      constructor; [lia|constructor].
    + assert (Hlen : length (out st) = length (take (Z.to_nat out_cap) idxs)).
      { symmetry. by eapply Forall2_length. }
      rewrite length_take in Hlen.
      destruct (Z.ltb_spec (found st) out_cap) as [Hc|Hc].
      * rewrite take_app_ge by lia.
        rewrite (take_ge idxs) in Hout by lia.
        replace (Z.to_nat out_cap - length idxs)%nat with (S (Z.to_nat out_cap - length idxs - 1))
          by lia.
        cbn [take]. rewrite take_nil. apply Forall2_app; [done|].
        constructor; [|constructor]. split; [done|exact Hg].
      * rewrite take_app_le by lia. done.
  - exists idxs. split; [|by left].
    split; [|split; [|split; [|split]]]; cbn [found last_boundary_idx out]; try done.
    eapply Forall_impl; [exact Hlt|]. simpl. lia.
Qed.

Lemma detect_loop_inv samples n out_cap todo : forall i st idxs,
  1 <= i -> i + Z.of_nat todo = n -> n < 2 ^ 31 -> 0 <= out_cap ->
  detect_inv samples out_cap i st idxs ->
  exists idxs',
    detect_inv samples out_cap n (detect_loop samples n out_cap todo i st) idxs'.
Proof.
  induction todo as [|todo IH]; intros i st idxs Hi Hn Hlt Hcap Hinv; cbn [detect_loop].
  - exists idxs. by replace n with i by lia.
  - destruct (detect_step_inv samples n out_cap i st idxs) as (idxs' & Hinv' & _);
      [lia|done|done|done|].
    apply (IH (i + 1) _ idxs'); [lia|lia|done|done|done].
Qed.

(** The jumps that [detect_boundaries] finds, for fewer than [2^31] samples. *)
Lemma detect_boundaries_inv samples out_cap :
  Z.of_nat (length samples) < 2 ^ 31 -> 0 <= out_cap ->
  exists idxs,
    fst (detect_boundaries samples out_cap) = Z.of_nat (length idxs)
    /\ spaced 0 idxs
    /\ Forall (fun j => j < Z.of_nat (length samples)) idxs
    /\ Forall2 (boundary_at samples) (take (Z.to_nat out_cap) idxs)
         (snd (detect_boundaries samples out_cap)).
Proof.
  intros Hn Hcap. unfold detect_boundaries.
  destruct (Z.eqb_spec (Z.of_nat (length samples)) 0) as [E|E].
  - exists []. simpl. rewrite take_nil. repeat split; constructor.
  - set (n := Z.of_nat (length samples)) in *.
    destruct (detect_loop_inv samples n out_cap (Z.to_nat (n - 1)) 1
                (mkDetect (ns_per_access (sample_at samples 0)) 1
                   (PrimFloat.div (ns_per_access (sample_at samples 0)) (Dbl.of_Z 1)) 0 0 [])
                []) as (idxs & Hf & _ & Hsp & Hlt & Hout); [lia|lia|done|done| |].
    { split; [done|]. split; [done|]. split; [done|]. split; [constructor|].
      rewrite take_nil. constructor. }
    exists idxs. cbn [fst snd]. done.
Qed.

Lemma spaced_in_range idxs n :
  spaced 0 idxs -> Forall (fun j => j < n) idxs -> 2 * Z.of_nat (length idxs) <= Z.max 0 (n - 1).
Proof.
  intros Hsp Hlt. destruct (decide (idxs = [])) as [->|Hne]; [simpl; lia|].
  pose proof (spaced_last idxs 0 Hsp) as Hl.
  pose proof (last_default_mem idxs 0 Hne) as Hm.
  rewrite Forall_forall in Hlt. specialize (Hlt _ Hm). lia.
Qed.

Lemma spaced_ge idxs : forall prev, spaced prev idxs -> Forall (fun j => prev + 2 <= j) idxs.
Proof.
  induction idxs as [|a idxs IH]; intros prev Hs; [constructor|].
  destruct Hs as [Ha Hs]. constructor; [done|].
  eapply Forall_impl; [exact (IH a Hs)|]. simpl. lia.
Qed.

(** X1: for fewer than [2^31] samples, the count that [detect_boundaries]
    returns is at most [(n - 1) / 2], whatever the latencies are: no boundary
    is found at index 0 or 1 and two boundaries are at least two samples
    apart.  The number of entries written is the smaller of the count and
    the capacity. *)
Theorem detect_boundaries_count_bound (samples : list Sample) (out_cap : Z) :
  Z.of_nat (length samples) < 2 ^ 31 -> 0 <= out_cap ->
  let nb := fst (detect_boundaries samples out_cap) in
  0 <= nb
  /\ 2 * nb <= Z.max 0 (Z.of_nat (length samples) - 1)
  /\ Z.of_nat (length (snd (detect_boundaries samples out_cap))) = Z.min nb out_cap.
Proof.
  intros Hn Hcap nb. subst nb.
  destruct (detect_boundaries_inv samples out_cap Hn Hcap) as (idxs & -> & Hsp & Hlt & Hout).
  split; [lia|]. split; [by apply spaced_in_range|].
  apply Forall2_length in Hout. rewrite <- Hout, length_take. lia.
Qed.

Lemma detect_boundaries_count_bound_witness :
  2 * fst (detect_boundaries synthetic_curve 8) <= 8.
Proof.
  assert (H1 : Z.of_nat (length synthetic_curve) < 2 ^ 31) by (vm_compute; reflexivity).
  assert (H2 : 0 <= 8) by lia.
  exact (proj1 (proj2 (detect_boundaries_count_bound synthetic_curve 8 H1 H2))).
Defined.

(** X2: every boundary that [detect_boundaries] writes comes from a jump at
    some index [j] with [2 <= j < n]: its size is the size of sample [j - 1]
    (never the last sample's) and its ratio compares greater than 1.25.  The
    entries are written in the order of the indices, which are at least two
    apart, and only the first [out_cap] jumps are written. *)
Theorem detect_boundaries_reports (samples : list Sample) (out_cap : Z) :
  Z.of_nat (length samples) < 2 ^ 31 -> 0 <= out_cap ->
  exists idxs,
    fst (detect_boundaries samples out_cap) = Z.of_nat (length idxs)
    /\ spaced 0 idxs
    /\ Forall (fun j => 2 <= j < Z.of_nat (length samples)) idxs
    /\ Forall2 (boundary_at samples) (take (Z.to_nat out_cap) idxs)
         (snd (detect_boundaries samples out_cap)).
Proof.
  intros Hn Hcap.
  destruct (detect_boundaries_inv samples out_cap Hn Hcap) as (idxs & E & Hsp & Hlt & Hout).
  exists idxs. split; [done|]. split; [done|]. split; [|done].
  pose proof (spaced_ge idxs 0 Hsp) as Hge.
  rewrite Forall_forall in Hlt, Hge |- *. intros j Hj.
  specialize (Hlt j Hj). specialize (Hge j Hj). simpl in Hge. lia.
Qed.

Lemma detect_boundaries_reports_witness :
  exists idxs,
    fst (detect_boundaries synthetic_curve 8) = Z.of_nat (length idxs)
    /\ spaced 0 idxs
    /\ Forall (fun j => 2 <= j < Z.of_nat (length synthetic_curve)) idxs
    /\ Forall2 (boundary_at synthetic_curve) (take (Z.to_nat 8) idxs)
         (snd (detect_boundaries synthetic_curve 8)).
Proof.
  assert (H1 : Z.of_nat (length synthetic_curve) < 2 ^ 31) by (vm_compute; reflexivity).
  assert (H2 : 0 <= 8) by lia.
  exact (detect_boundaries_reports synthetic_curve 8 H1 H2).
Defined.

(** X3: when [main] has measured at most 18 sizes, its summary loop reads
    only entries of [bounds] that [detect_boundaries] wrote, one per boundary
    counted. *)
Theorem main_summary_reads_in_bounds (samples : list Sample) :
  (length samples <= 18)%nat ->
  Forall is_Some (main_summary_reads samples)
  /\ Z.of_nat (length (main_summary_reads samples))
     = fst (detect_boundaries samples main_bounds_cap)
  /\ fst (detect_boundaries samples main_bounds_cap) <= main_bounds_cap.
Proof.
  intros Hlen. unfold main_summary_reads.
  destruct (detect_boundaries_inv samples main_bounds_cap) as (idxs & E & Hsp & Hlt & Hout);
    [lia|unfold main_bounds_cap; lia|].
  pose proof (spaced_in_range idxs _ Hsp Hlt) as Hb.
  destruct (detect_boundaries samples main_bounds_cap) as [nb bounds]. cbn [fst snd] in *.
  apply Forall2_length in Hout. rewrite length_take in Hout.
  unfold main_bounds_cap in *.
  split; [|split].
  - apply Forall_forall. intros r Hr. apply list_elem_of_fmap in Hr as (i & -> & Hi).
    apply elem_of_seq in Hi. destruct (nth_error bounds i) eqn:En; [by eexists|].
    apply nth_error_None in En. lia.
  - rewrite length_map, length_seq. lia.
  - lia.
Qed.

Lemma main_summary_reads_in_bounds_witness :
  Forall is_Some (main_summary_reads synthetic_curve).
Proof.
  assert (H : (length synthetic_curve <= 18)%nat) by (vm_compute; lia).
  exact (proj1 (main_summary_reads_in_bounds synthetic_curve H)).
Defined.

(** *** The generator: period, outputs, rejection *)

Lemma run_calls_next k : forall s, run_calls (replicate k CallNext) s = Some (orbit k s).
Proof.
  induction k as [|k IH]; intros s; [done|].
  cbn [replicate run_calls run_call]. rewrite rng_next_state, IH.
  by rewrite orbit_succ_r.
Qed.

Lemma orbit_period s :
  Word.in_range s -> s <> 0 ->
  orbit (Pos.to_nat period) s = s
  /\ forall d, (0 < d < Pos.to_nat period)%nat -> orbit d s <> s.
Proof.
  intros Hs Hs0. destruct (orbit_covers s Hs Hs0) as (j & Hj & <-).
  pose proof one_in_range as H1. split.
  - rewrite <- orbit_add, Nat.add_comm, orbit_add. by rewrite orbit_period_one.
  - intros d Hd E. rewrite <- orbit_add, Nat.add_comm, orbit_add in E.
    apply orbit_inj in E; [|by apply orbit_range|done].
    by apply (orbit_no_short_period d).
Qed.

(** X4: [rng_next] has period exactly [2^64 - 1]: from every nonzero state,
    [2^64 - 1] calls lead back to it, no smaller positive number of calls
    does, and every nonzero 64-bit state is met on the way. *)
Theorem rng_next_full_period (s : Z) :
  Word.in_range s -> s <> 0 ->
  Z.pos period = 2 ^ 64 - 1
  /\ (forall k, run_calls (replicate k CallNext) s = Some (orbit k s))
  /\ orbit (Pos.to_nat period) s = s
  /\ (forall d, (0 < d < Pos.to_nat period)%nat -> orbit d s <> s)
  /\ (forall u, Word.in_range u -> u <> 0 ->
        exists k, (k < Pos.to_nat period)%nat /\ orbit k s = u).
Proof.
  intros Hs Hs0. destruct (orbit_period s Hs Hs0) as [Hp Hshort].
  split; [reflexivity|]. split; [intros k; apply run_calls_next|].
  split; [done|]. split; [done|].
  intros u Hu Hu0. destruct (orbit_reaches s u Hs Hs0 Hu Hu0) as (k & Hk & E).
  destruct (decide (k = Pos.to_nat period)) as [->|Hne].
  - exists 0%nat. split; [lia|]. rewrite Hp in E. done.
  - exists k. split; [lia|done].
Qed.

Lemma rng_next_full_period_witness :
  orbit (Pos.to_nat period) 1 = 1
  /\ forall d, (0 < d < Pos.to_nat period)%nat -> orbit d 1 <> 1.
Proof.
  assert (H1 : Word.in_range 1) by (unfold Word.in_range, Word.modulus; lia).
  assert (H2 : 1 <> 0) by lia.
  pose proof (rng_next_full_period 1 H1 H2) as (_ & _ & Hp & Hd & _).
  exact (conj Hp Hd).
Defined.

Lemma mul_inverse_cancel y :
  Word.in_range y -> Word.mul (Word.mul y 2685821657736338717) mult_inverse = y.
Proof.
  intros Hy. unfold Word.mul, Word.wrap.
  rewrite Z.mul_mod_idemp_l by (unfold Word.modulus; lia).
  rewrite <- Z.mul_assoc, <- Z.mul_mod_idemp_r by (unfold Word.modulus; lia).
  replace ((2685821657736338717 * mult_inverse) mod Word.modulus) with 1
    by (vm_compute; reflexivity).
  rewrite Z.mul_1_r. apply Z.mod_small. exact Hy.
Qed.

(** X5: the value that [rng_next] returns determines the state it leaves and
    the state it started from: the multiplier is invertible modulo [2^64].
    So two different states never return the same value, and the value is 0
    only from the state 0. *)
Theorem rng_next_output_reveals_state (s : Z) :
  Word.in_range s ->
  let x := fst (rng_next s) in
  Word.in_range x
  /\ snd (rng_next s) = Word.mul x mult_inverse
  /\ s = unxorshift (Word.mul x mult_inverse)
  /\ (x = 0 <-> s = 0)
  /\ (forall s2, Word.in_range s2 -> fst (rng_next s2) = x -> s2 = s).
Proof.
  intros Hs x. subst x. cbn [rng_next fst snd].
  pose proof (xorshift_range s Hs) as Hx.
  assert (Hinv : Word.mul (Word.mul (xorshift s) 2685821657736338717) mult_inverse
                 = xorshift s) by (by apply mul_inverse_cancel).
  split; [apply wrap_range|]. split; [done|].
  split; [by rewrite Hinv, unxorshift_xorshift|]. split.
  - split.
    + intros E. rewrite E in Hinv. change (Word.mul 0 mult_inverse) with 0 in Hinv.
      destruct (Z.eq_dec s 0) as [|Hne]; [done|].
      by destruct (xorshift_nonzero s Hs Hne).
    + intros ->. reflexivity.
  - intros s2 Hs2 E. apply xorshift_inj; [done|done|].
    rewrite <- Hinv, <- E. symmetry. apply mul_inverse_cancel. by apply xorshift_range.
Qed.

Lemma rng_next_output_reveals_state_witness :
  snd (rng_next 1) = Word.mul (fst (rng_next 1)) mult_inverse.
Proof.
  assert (H1 : Word.in_range 1) by (unfold Word.in_range, Word.modulus; lia).
  exact (proj1 (proj2 (rng_next_output_reveals_state 1 H1))).
Defined.







(** *** [rotl64] *)

Lemma testbit_rotl64 x k i :
  Word.in_range x -> 0 < k < 64 -> 0 <= i < 64 ->
  Z.testbit (rotl64 x k) i = Z.testbit x ((i - k) mod 64).
Proof.
  intros Hx Hk Hi. unfold rotl64, Word.shl, Word.shr.
  rewrite Z.lor_spec, testbit_wrap, testbit_shl, Z.shiftr_spec by lia.
  replace (i <? 64) with true by lia. cbn [andb].
  destruct (Z.lt_ge_cases i k) as [Hlt|Hge].
  - rewrite (Z.testbit_neg_r x (i - k)) by lia. cbn [orb].
    f_equal. symmetry. rewrite <- (Z.mod_add _ 1) by lia. rewrite Z.mod_small; lia.
  - rewrite (testbit_high x (i + (64 - k))) by (done || lia). rewrite orb_false_r.
    f_equal. symmetry. apply Z.mod_small. lia.
Qed.

Lemma rotl64_range x k : Word.in_range x -> 0 < k < 64 -> Word.in_range (rotl64 x k).
Proof.
  intros Hx Hk. unfold Word.in_range, Word.modulus.
  apply (lt_pow2_of_bits _ 64); [lia|].
  intros j Hj. unfold rotl64, Word.shl, Word.shr.
  rewrite Z.lor_spec, testbit_wrap, Z.shiftr_spec by lia.
  destruct (Z.ltb_spec j 64); [done|]. cbn [andb orb].
  by rewrite (testbit_high x (j + (64 - k))) by (done || lia).
Qed.

(** X7: for [0 < k < 64], [rotl64] rotates the 64 bits of a word to the left
    by [k]: bit [i] of the result is bit [(i - k) mod 64] of the argument.
    Rotating by [64 - k] afterwards gives the word back. *)
Theorem rotl64_rotates (x k : Z) :
  Word.in_range x -> 0 < k < 64 ->
  Word.in_range (rotl64 x k)
  /\ (forall i, 0 <= i < 64 -> Z.testbit (rotl64 x k) i = Z.testbit x ((i - k) mod 64))
  /\ rotl64 (rotl64 x k) (64 - k) = x.
Proof.
  intros Hx Hk. pose proof (rotl64_range x k Hx Hk) as Hr.
  split; [done|]. split; [intros i Hi; by apply testbit_rotl64|].
  apply Z.bits_inj'. intros i Hi.
  destruct (Z.lt_ge_cases i 64) as [Hlt|Hge].
  - rewrite testbit_rotl64 by (done || lia).
    rewrite testbit_rotl64 by (done || apply Z.mod_pos_bound; lia).
    f_equal. rewrite Zminus_mod_idemp_l.
    replace (i - (64 - k) - k) with (i + (-1) * 64) by lia.
    rewrite Z.mod_add by lia. apply Z.mod_small. lia.
  - rewrite !testbit_high; [done|done|lia| |lia].
    apply rotl64_range; [done|lia].
Qed.

Lemma rotl64_rotates_witness :
  rotl64 (rotl64 0x0123456789abcdef 12) (64 - 12) = 0x0123456789abcdef.
Proof.
  assert (H1 : Word.in_range 0x0123456789abcdef).
  { unfold Word.in_range. vm_compute. split; [discriminate|reflexivity]. }
  assert (H2 : 0 < 12 < 64) by lia.
  exact (proj2 (proj2 (rotl64_rotates 0x0123456789abcdef 12 H1 H2))).
Defined.

(** *** How often each residue is accepted *)

(** X27: of the [2^64] values a draw can take, [rng_uniform] accepts for the
    residue [r] exactly the values [first + i n], where [first] is the least
    value not below the threshold [t = (2^64 - 1) mod n] with that residue
    and [i] runs below [q = (2^64 - 1) / n], or up to [q] when [r = t].  So
    the residue [t] has one accepted value more than each of the others. *)
Theorem uniform_accept_residue_values (n r x : Z) :
  0 < n -> 0 <= r < n -> Word.in_range x ->
  let t := uniform_threshold n in
  let q := Word.SIZE_MAX / n in
  let first := t + (r - t) mod n in
  Word.SIZE_MAX = q * n + t /\ 0 <= t < n
  /\ (uniform_accept n x = Some r <->
      exists i, 0 <= i < q + (if r =? t then 1 else 0) /\ x = first + i * n).
Proof.
  intros Hn Hr Hx t q first.
  pose proof (Z.div_mod Word.SIZE_MAX n ltac:(lia)) as Hdm.
  pose proof (Z.mod_pos_bound Word.SIZE_MAX n Hn) as Ht.
  fold (uniform_threshold n) in Hdm, Ht. fold t in Hdm, Ht. fold q in Hdm.
  split; [lia|]. split; [done|].
  pose proof (Z.mod_pos_bound (r - t) n Hn) as Hd.
  pose proof (Z.div_mod (r - t) n ltac:(lia)) as Hdd.
  assert (Hzero : (r - t) mod n = 0 <-> r = t).
  { split; [|intros ->; by rewrite Z.sub_diag].
    intros E. rewrite E in Hdd.
    assert ((r - t) / n = 0) by nia. lia. }
  assert (Hx' : x <= Word.SIZE_MAX) by word_lia.
  unfold uniform_accept. fold t. split.
  - destruct (Z.leb_spec t x) as [Hle|Hlt]; [|done]. intros [= Hxr].
    pose proof (Z.div_mod (x - t) n ltac:(lia)) as Hxd.
    assert (Hmod : (x - t) mod n = (r - t) mod n).
    { rewrite <- Hxr. rewrite (Zminus_mod x t), (Zminus_mod (x mod n) t).
      by rewrite Z.mod_mod by lia. }
    assert (0 <= (x - t) / n) by (apply Z.div_pos; lia).
    exists ((x - t) / n). split; [|unfold first; lia].
    split; [done|].
    destruct (Z.eqb_spec r t) as [->|Hne].
    + rewrite Z.sub_diag, Zmod_0_l in Hmod. nia.
    + assert ((r - t) mod n <> 0) by (intros E; by apply Hne, Hzero). nia.
  - intros (i & Hi & ->).
    assert (Hfirst : t <= first) by (unfold first; lia).
    replace (t <=? first + i * n) with true by (symmetry; apply Z.leb_le; nia).
    f_equal. rewrite Z.mod_add by lia. unfold first.
    rewrite Zplus_mod_idemp_r. replace (t + (r - t)) with r by lia.
    apply Z.mod_small. lia.
Qed.

Lemma uniform_accept_residue_values_witness :
  uniform_accept 7 1 = Some 1 <->
  exists i, 0 <= i < Word.SIZE_MAX / 7 + (if 1 =? uniform_threshold 7 then 1 else 0)
            /\ 1 = uniform_threshold 7 + (1 - uniform_threshold 7) mod 7 + i * 7.
Proof.
  assert (H : Word.in_range 1) by (unfold Word.in_range, Word.modulus; lia).
  exact (proj2 (proj2 (uniform_accept_residue_values 7 1 1 ltac:(lia) ltac:(lia) H))).
Defined.

(** *** The deterministic orders in closed form *)

Lemma reverse_seqZ n :
  0 <= n -> reverse (seqZ 0 n) = (fun i => n - 1 - i) <$> seqZ 0 n.
Proof.
  intros Hn. apply list_eq. intros i.
  destruct (decide (i < Z.to_nat n)%nat) as [Hi|Hi].
  - rewrite reverse_lookup by (rewrite length_seqZ; lia).
    rewrite length_seqZ, list_lookup_fmap, !lookup_seqZ_lt by lia.
    cbn [fmap option_fmap option_map]. f_equal. lia.
  - rewrite !lookup_ge_None_2; [done| |].
    + rewrite length_fmap, length_seqZ. lia.
    + rewrite length_reverse, length_seqZ. lia.
Qed.

(** X8: [build_order_sequential] writes [0, 1, ..., n - 1] and
    [build_order_reverse] writes the same list backwards: entry [i] is
    [n - 1 - i]. *)
Theorem build_order_reverse_closed (n : Z) :
  Word.in_range n ->
  build_order_sequential n = seqZ 0 n
  /\ build_order_reverse n = reverse (build_order_sequential n)
  /\ (forall i, 0 <= i < n -> order_at (build_order_reverse n) i = n - 1 - i).
Proof.
  intros Hn. split; [apply build_order_sequential_eq|].
  assert (E : build_order_reverse n = (fun i => n - 1 - i) <$> seqZ 0 n).
  { unfold build_order_reverse, for_upto. rewrite for_loop_snoc. cbn [app].
    rewrite Z2Nat.id by word_lia. apply fmap_seqZ_ext.
    intros x Hx. rewrite (sub_small n 1) by word_lia. apply sub_small; word_lia. }
  split.
  - rewrite build_order_sequential_eq, E.
    rewrite reverse_seqZ by word_lia. done.
  - intros i Hi. rewrite E. unfold order_at.
    rewrite list_lookup_fmap, lookup_seqZ_lt by lia. simpl. lia.
Qed.

Lemma build_order_reverse_closed_witness :
  build_order_reverse 5 = reverse (build_order_sequential 5).
Proof.
  assert (H : Word.in_range 5) by (unfold Word.in_range, Word.modulus; lia).
  exact (proj1 (proj2 (build_order_reverse_closed 5 H))).
Defined.

Lemma bind_pair_lookup (f g : Z -> Z) (l : list Z) : forall j x,
  l !! j = Some x ->
  (l ≫= fun i => [f i; g i]) !! (2 * j)%nat = Some (f x)
  /\ (l ≫= fun i => [f i; g i]) !! (2 * j + 1)%nat = Some (g x).
Proof.
  induction l as [|a l IH]; intros j x Hj; [done|].
  rewrite bind_cons. destruct j as [|j].
  - injection Hj as ->. done.
  - cbn [lookup list_lookup] in Hj. destruct (IH j x Hj) as [H1 H2].
    replace (2 * S j)%nat with (S (S (2 * j))) by lia.
    replace (S (S (2 * j)) + 1)%nat with (S (S (2 * j + 1))) by lia.
    done.
Qed.

Lemma bind_pair_length (f g : Z -> Z) (l : list Z) :
  length (l ≫= fun i => [f i; g i]) = (2 * length l)%nat.
Proof.
  rewrite (Permutation_length (bind_pair_perm f g l)).
  rewrite length_app, !length_fmap. lia.
Qed.

(** X9: [build_order_interleave] alternates between the two halves: for
    [i < n / 2], entry [2 i] is [i] and entry [2 i + 1] is [i + n / 2]; when
    [n] is odd the last entry is [n - 1]. *)
Theorem build_order_interleave_closed (n : Z) :
  Word.in_range n ->
  length (build_order_interleave n) = Z.to_nat n
  /\ (forall i, 0 <= i < n / 2 ->
        order_at (build_order_interleave n) (2 * i) = i
        /\ order_at (build_order_interleave n) (2 * i + 1) = i + n / 2)
  /\ (n mod 2 = 1 -> order_at (build_order_interleave n) (n - 1) = n - 1).
Proof.
  intros Hn.
  assert (Hh : 0 <= n / 2) by (apply Z.div_pos; word_lia).
  pose proof (Z.div_mod n 2 ltac:(lia)) as Hdm.
  pose proof (Z.mod_pos_bound n 2 ltac:(lia)) as Hmb.
  set (body := seqZ 0 (n / 2) ≫= fun i => [i; Word.add i (n / 2)]).
  assert (Hlen : length body = (2 * Z.to_nat (n / 2))%nat).
  { unfold body. rewrite (bind_pair_length (fun i => i)), length_seqZ. done. }
  assert (E : build_order_interleave n
              = body ++ (if n mod 2 =? 0 then [] else [n - 1])).
  { unfold build_order_interleave, for_upto.
    rewrite (for_loop_snoc2 (fun i => i)). cbn [app]. rewrite Z2Nat.id by done.
    replace (Z.land n 1) with (n mod 2) by (symmetry; apply (Z.land_ones n 1); lia).
    fold body. destruct (Z.eqb_spec (n mod 2) 0); cbn [negb].
    - by rewrite app_nil_r.
    - by rewrite sub_small by word_lia. }
  rewrite E. split; [|split].
  - rewrite length_app, Hlen. destruct (Z.eqb_spec (n mod 2) 0); simpl; lia.
  - intros i Hi.
    destruct (bind_pair_lookup (fun i => i) (fun i => Word.add i (n / 2))
                (seqZ 0 (n / 2)) (Z.to_nat i) i) as [H1 H2].
    { rewrite lookup_seqZ_lt by lia. f_equal. lia. }
    fold body in H1, H2. unfold order_at.
    replace (Z.to_nat (2 * i)) with (2 * Z.to_nat i)%nat by lia.
    replace (Z.to_nat (2 * i + 1)) with (2 * Z.to_nat i + 1)%nat by lia.
    rewrite !lookup_app_l by lia. rewrite H1, H2. cbn [default].
    split; [done|]. apply add_small; word_lia.
  - intros Hodd. unfold order_at.
    rewrite lookup_app_r by lia. replace (n mod 2 =? 0) with false by lia.
    replace (Z.to_nat (n - 1) - length body)%nat with 0%nat by lia. done.
Qed.

Lemma build_order_interleave_closed_witness :
  order_at (build_order_interleave 7) (2 * 1) = 1
  /\ order_at (build_order_interleave 7) (2 * 1 + 1) = 1 + 7 / 2.
Proof.
  assert (H : Word.in_range 7) by (unfold Word.in_range, Word.modulus; lia).
  assert (H1 : 0 <= 1 < 7 / 2) by (vm_compute; split; [discriminate|reflexivity]).
  exact (proj1 (proj2 (build_order_interleave_closed 7 H)) 1 H1).
Defined.

(** *** Gray order *)

Lemma lxor_succ_ones i : 0 <= i -> exists t, 0 <= t /\ Z.lxor i (i + 1) = Z.ones (t + 1).
Proof.
  intros Hi. revert Hi. pattern i. apply (well_founded_induction (Z.lt_wf 0)).
  clear i. intros i IH Hi.
  pose proof (Z.div_mod i 2 ltac:(lia)) as Hdm.
  pose proof (Z.mod_pos_bound i 2 ltac:(lia)) as Hmb.
  set (j := i / 2) in *.
  destruct (Z.eq_dec (i mod 2) 0) as [E0|E1].
  - exists 0. split; [lia|]. replace i with (2 * j) by lia.
    apply Z.bits_inj'. intros m Hm. rewrite Z.lxor_spec.
    change (Z.ones (0 + 1)) with 1. rewrite testbit_one by done.
    destruct (Z.eq_dec m 0) as [->|Hm0].
    + by rewrite Z.testbit_even_0, Z.testbit_odd_0.
    + replace m with (Z.succ (m - 1)) by lia.
      rewrite Z.testbit_even_succ, Z.testbit_odd_succ by lia.
      rewrite xorb_nilpotent. symmetry. apply Z.eqb_neq. lia.
  - destruct (IH j) as (t & Ht & Et); [lia|lia|].
    exists (t + 1). split; [lia|].
    replace i with (2 * j + 1) by lia. replace (2 * j + 1 + 1) with (2 * (j + 1)) by lia.
    apply Z.bits_inj'. intros m Hm. rewrite Z.lxor_spec.
    rewrite Z.testbit_ones_nonneg by lia.
    destruct (Z.eq_dec m 0) as [->|Hm0].
    + rewrite Z.testbit_even_0, Z.testbit_odd_0. symmetry. apply Z.ltb_lt. lia.
    + replace m with (Z.succ (m - 1)) at 1 2 by lia.
      rewrite Z.testbit_even_succ, Z.testbit_odd_succ by lia.
      rewrite <- Z.lxor_spec, Et, Z.testbit_ones_nonneg by lia.
      destruct (Z.ltb_spec (m - 1) (t + 1)), (Z.ltb_spec m (t + 1 + 1)); lia || done.
Qed.

Lemma gray_ones t : 0 <= t -> xsr 1 (Z.ones (t + 1)) = 2 ^ t.
Proof.
  intros Ht. apply Z.bits_inj'. intros m Hm.
  rewrite testbit_xsr by done. rewrite !Z.testbit_ones_nonneg by lia.
  rewrite Z.pow2_bits_eqb by done.
  destruct (Z.ltb_spec m (t + 1)), (Z.ltb_spec (m + 1) (t + 1)), (Z.eqb_spec t m);
    lia || done.
Qed.

Lemma gray_adjacent i :
  0 <= i -> exists t, 0 <= t /\ Z.lxor (xsr 1 i) (xsr 1 (i + 1)) = 2 ^ t.
Proof.
  intros Hi. destruct (lxor_succ_ones i Hi) as (t & Ht & E).
  exists t. split; [done|]. by rewrite <- xsr_lxor, E, gray_ones.
Qed.

Lemma gray_lt_pow2 x e : 0 <= e -> 0 <= x < 2 ^ e -> 0 <= xsr 1 x < 2 ^ e.
Proof. intros He Hx. unfold xsr. apply lxor_lt_pow2; [done|done|by apply shr1_bound]. Qed.

(** X10: for [0 < n < 2^64], [build_order_gray] writes the reflected Gray
    code of [0 .. m - 1], where [m] is the largest power of two not above
    [n], followed by [m .. n - 1] unchanged.  Neighbouring entries of the
    Gray part differ in exactly one bit, and so do its last and its first
    entry. *)
Theorem build_order_gray_closed (n : Z) :
  0 < n < Word.modulus ->
  exists e,
    0 <= e <= 63 /\ 2 ^ e <= n /\ (e = 63 \/ n < 2 ^ (e + 1))
    /\ build_order_gray n = Some ((xsr 1 <$> seqZ 0 (2 ^ e)) ++ seqZ (2 ^ e) (n - 2 ^ e))
    /\ (forall i, 0 <= i -> i + 1 < 2 ^ e ->
          exists t, 0 <= t < e /\ Z.lxor (xsr 1 i) (xsr 1 (i + 1)) = 2 ^ t)
    /\ (1 <= e -> Z.lxor (xsr 1 (2 ^ e - 1)) (xsr 1 0) = 2 ^ (e - 1)).
Proof.
  intros Hn. unfold build_order_gray. replace (n =? 0) with false by lia.
  destruct (pow2_floor_loop_spec loop_fuel 0 n) as (e & E & He & Hle & Hmax);
    [lia|unfold loop_fuel; lia|simpl; lia|].
  change (2 ^ 0) with 1 in E. rewrite E. cbn [mbind option_bind].
  exists e. split; [lia|]. split; [done|]. split; [done|].
  assert (Hpos : 0 < 2 ^ e) by (apply Z.pow_pos_nonneg; lia).
  split; [|split].
  - unfold for_upto. rewrite (for_loop_snoc (fun i => i)), for_loop_snoc. cbn [app].
    rewrite list_fmap_id, !Z2Nat.id by lia. done.
  - intros i Hi Hlt. destruct (gray_adjacent i Hi) as (t & Ht & Et).
    exists t. split; [|done]. split; [lia|].
    assert (Hb : 0 <= Z.lxor (xsr 1 i) (xsr 1 (i + 1)) < 2 ^ e).
    { apply lxor_lt_pow2; [lia| |]; apply gray_lt_pow2; lia. }
    rewrite Et in Hb. destruct Hb as [_ Hb]. apply Z.pow_lt_mono_r_iff in Hb; lia.
  - intros He1. change (xsr 1 0) with 0. rewrite Z.lxor_0_r.
    replace (2 ^ e - 1) with (Z.ones (e - 1 + 1)).
    + apply gray_ones. lia.
    + rewrite Z.ones_equiv. replace (e - 1 + 1) with e by lia. lia.
Qed.

Lemma build_order_gray_closed_witness :
  exists e,
    build_order_gray 6 = Some ((xsr 1 <$> seqZ 0 (2 ^ e)) ++ seqZ (2 ^ e) (6 - 2 ^ e))
    /\ 2 ^ e <= 6.
Proof.
  assert (H : 0 < 6 < Word.modulus) by (unfold Word.modulus; lia).
  destruct (build_order_gray_closed 6 H) as (e & _ & Hle & _ & E & _).
  exact (ex_intro _ e (conj E Hle)).
Defined.

(** *** Bit-reversed order *)

Lemma bit_count_loop_exact fuel : forall k bits tmp,
  0 <= k <= Z.of_nat fuel -> 0 <= tmp < 2 ^ k ->
  exists b, bit_count_loop fuel bits tmp = Some (bits + b)
            /\ 0 <= b <= k /\ tmp < 2 ^ b /\ (0 < b -> 2 ^ (b - 1) <= tmp).
Proof.
  induction fuel as [|fuel IH]; intros k bits tmp Hk Ht; rewrite bit_count_loop_eq.
  - assert (k = 0) as -> by lia. change (2 ^ 0) with 1 in Ht.
    replace (0 <? tmp) with false by lia. exists 0. rewrite Z.add_0_r.
    split; [done|]. simpl. lia.
  - destruct (Z.ltb_spec 0 tmp).
    + assert (k <> 0) by (intros ->; change (2 ^ 0) with 1 in Ht; lia).
      assert (E : 2 ^ k = 2 * 2 ^ (k - 1)).
      { rewrite <- Z.pow_succ_r by lia. f_equal. lia. }
      assert (Hshr : Word.shr tmp 1 = tmp / 2).
      { unfold Word.shr. rewrite Z.shiftr_div_pow2 by lia. done. }
      destruct (IH (k - 1) (bits + 1) (Word.shr tmp 1)) as (b & Eb & Hb & Hlt & Hge); [lia| |].
      * rewrite Hshr. split; [apply Z.div_pos; lia|]. apply Z.div_lt_upper_bound; lia.
      * exists (b + 1). rewrite Eb. split; [f_equal; lia|]. split; [lia|].
        rewrite Hshr in Hlt, Hge. rewrite Z.pow_add_r by lia. change (2 ^ 1) with 2.
        split; [word_lia|]. intros _. replace (b + 1 - 1) with b by lia.
        destruct (Z.eq_dec b 0) as [->|Hb0]; [simpl; lia|].
        specialize (Hge ltac:(lia)).
        replace (2 ^ b) with (2 * 2 ^ (b - 1)).
        -- word_lia.
        -- rewrite <- Z.pow_succ_r by lia. f_equal. lia.
    + exists 0. rewrite Z.add_0_r. split; [done|]. simpl. lia.
Qed.

Lemma filter_all (P : Z -> Prop) `{!forall x, Decision (P x)} (l : list Z) :
  Forall P l -> filter P l = l.
Proof.
  induction 1 as [|x l Hx Hl IH]; [done|].
  rewrite filter_cons. rewrite decide_True by done. by rewrite IH.
Qed.

(** X11: for [0 < n <= 2^63], with [b] the number of bits of [n - 1],
    [build_order_bitrev] writes the [b]-bit reversals of [0, 1, ..., 2^b - 1]
    in that order, leaving out those that are not below [n].  When [n] is
    the power of two [2^b], entry [i] is the reversal of [i], and the order
    is its own inverse. *)
Theorem build_order_bitrev_closed (n : Z) :
  0 < n <= 2 ^ 63 ->
  exists b order,
    0 <= b <= 63 /\ n <= 2 ^ b /\ (0 < b -> 2 ^ (b - 1) < n)
    /\ build_order_bitrev n = Some order
    /\ order = filter (fun y => y < n)
                 ((fun x => reverse_bits_limited x b) <$> seqZ 0 (2 ^ b))
    /\ (n = 2 ^ b -> forall i, 0 <= i < n ->
          order_at order i = reverse_bits_limited i b
          /\ order_at order (order_at order i) = i).
Proof.
  intros Hn. unfold build_order_bitrev. replace (n =? 0) with false by lia.
  rewrite sub_small by word_lia.
  destruct (bit_count_loop_exact loop_fuel 63 0 (n - 1)) as (b & E & Hb & Hlt & Hge);
    [unfold loop_fuel; lia|lia|].
  rewrite Z.add_0_l in E. rewrite E. cbn [mbind option_bind].
  assert (Hlim : Word.shl 1 b = 2 ^ b).
  { unfold Word.shl, Word.wrap, Word.modulus. rewrite Z.shiftl_1_l.
    apply Z.mod_small. split; [lia|]. apply Z.pow_lt_mono_r; lia. }
  rewrite Hlim. assert (0 < 2 ^ b) by (apply Z.pow_pos_nonneg; lia).
  rewrite bitrev_loop_take by (simpl; lia). cbn [app length]. rewrite Z2Nat.id by lia.
  set (revs := (fun x => reverse_bits_limited x b) <$> seqZ 0 (2 ^ b)).
  assert (P : filter (fun y => y < n) revs ≡ₚ seqZ 0 n).
  { unfold revs. rewrite perm_fmap_range.
    - apply filter_lt_seqZ. lia.
    - intros x Hx. apply rbl_range. lia.
    - intros x y Hx Hy Exy. rewrite <- (rbl_involutive x b), <- (rbl_involutive y b) by lia.
      by rewrite Exy. }
  rewrite Nat.sub_0_r. rewrite take_ge by (rewrite (Permutation_length P), length_seqZ; lia).
  exists b, (filter (fun y => y < n) revs).
  split; [lia|]. split; [lia|]. split; [intros Hb0; specialize (Hge Hb0); lia|].
  split; [done|]. split; [done|].
  intros -> i Hi.
  assert (Hall : filter (fun y => y < 2 ^ b) revs = revs).
  { apply filter_all. unfold revs. apply Forall_fmap, Forall_forall. intros x _.
    simpl. apply rbl_range. lia. }
  rewrite Hall.
  assert (Hat : forall j, 0 <= j < 2 ^ b -> order_at revs j = reverse_bits_limited j b).
  { intros j Hj. unfold order_at, revs.
    rewrite list_lookup_fmap, lookup_seqZ_lt by lia. simpl. f_equal. lia. }
  rewrite (Hat i Hi). split; [done|].
  rewrite Hat by (apply rbl_range; lia). apply rbl_involutive; lia.
Qed.

Lemma build_order_bitrev_closed_witness :
  exists b order,
    build_order_bitrev 8 = Some order
    /\ order = filter (fun y => y < 8)
                 ((fun x => reverse_bits_limited x b) <$> seqZ 0 (2 ^ b)).
Proof.
  assert (H : 0 < 8 <= 2 ^ 63) by lia.
  destruct (build_order_bitrev_closed 8 H) as (b & order & _ & _ & _ & E1 & E2 & _).
  exact (ex_intro _ b (ex_intro _ order (conj E1 E2))).
Defined.

(** *** Stride order *)

Section StrideClosed.

(** [g] divides [n] and [k], with coprime quotients [m] and [k']. *)
Variables n k g m k' : Z.
Hypothesis Hg : 0 < g.
Hypothesis Hm : 0 < m.
Hypothesis Hng : n = m * g.
Hypothesis Hkg : k = k' * g.
Hypothesis Hrp : Z.gcd m k' = 1.

Local Abbreviation f := (fun t => (t / m + (t mod m) * k) mod n).

Lemma stride_n_pos : 0 < n.
Proof. nia. Qed.

Lemma stride_orbit_closes : (m * k) mod n = 0.
Proof.
  replace (m * k) with (k' * n) by (rewrite Hkg, Hng; lia).
  apply Z.mod_mul. pose proof stride_n_pos. lia.
Qed.

Lemma stride_quot t : 0 <= t < n -> 0 <= t / m < g.
Proof.
  intros Ht. split; [apply Z.div_pos; lia|].
  apply Z.div_lt_upper_bound; [lia|]. lia.
Qed.

Lemma stride_entry_class t : 0 <= t < n -> f t mod g = t / m.
Proof.
  intros Ht. cbv beta.
  rewrite Z.mod_mod_divide by (by exists m).
  replace (t / m + t mod m * k) with (t / m + (t mod m * k') * g) by (rewrite Hkg; lia).
  rewrite Z.mod_add by lia. apply Z.mod_small. by apply stride_quot.
Qed.

Lemma stride_entry_inj t t' : 0 <= t < n -> 0 <= t' < n -> f t = f t' -> t = t'.
Proof.
  intros Ht Ht' E. pose proof stride_n_pos as Hn.
  assert (Eq : t / m = t' / m).
  { rewrite <- (stride_entry_class t), <- (stride_entry_class t') by done. by rewrite E. }
  assert (Er : t mod m = t' mod m).
  { cbv beta in E. rewrite Eq in E.
    assert (Hd : (n | (t mod m - t' mod m) * k)).
    { apply Z.mod_divide; [lia|].
      replace ((t mod m - t' mod m) * k)
        with ((t' / m + t mod m * k) - (t' / m + t' mod m * k)) by lia.
      rewrite Zminus_mod, E, Z.sub_diag. done. }
    assert (Hd' : (m | k' * (t mod m - t' mod m))).
    { destruct Hd as [c Hc]. exists c.
      apply (Z.mul_cancel_r _ _ g); [lia|]. rewrite Hkg, Hng in Hc. lia. }
    apply Z.gauss in Hd'; [|done].
    pose proof (Z.mod_pos_bound t m Hm). pose proof (Z.mod_pos_bound t' m Hm).
    destruct Hd' as [c Hc]. assert (c = 0) by nia. nia. }
  rewrite (Z.div_mod t m), (Z.div_mod t' m) by lia. by rewrite Eq, Er.
Qed.

Lemma stride_entry_start q : 0 <= q < g -> f (q * m) = q.
Proof.
  intros Hq. cbv beta.
  rewrite Z.div_mul, Z.mod_mul by lia. rewrite Z.mul_0_l, Z.add_0_r.
  apply Z.mod_small. nia.
Qed.

Lemma stride_entry_next t :
  0 <= t -> (t + 1) mod m <> 0 -> (f t + k) mod n = f (t + 1).
Proof.
  intros Ht Hne. cbv beta.
  pose proof (Z.div_mod t m ltac:(lia)) as Hdm.
  pose proof (Z.mod_pos_bound t m Hm) as Hb.
  assert (Hr : t mod m + 1 < m).
  { destruct (Z.eq_dec (t mod m + 1) m) as [E|E]; [|lia]. exfalso. apply Hne.
    replace (t + 1) with ((t / m + 1) * m) by lia. apply Z.mod_mul. lia. }
  assert (E1 : (t + 1) / m = t / m).
  { symmetry. apply (Z.div_unique _ _ _ (t mod m + 1)); lia. }
  assert (E2 : (t + 1) mod m = t mod m + 1).
  { symmetry. apply (Z.mod_unique _ _ (t / m)); lia. }
  rewrite E1, E2, Zplus_mod_idemp_l. f_equal. lia.
Qed.

Lemma stride_entry_wrap t :
  0 <= t < n -> (t + 1) mod m = 0 ->
  (f t + k) mod n = f ((t / m) * m) /\ (t + 1) / m = t / m + 1.
Proof.
  intros Ht He. cbv beta.
  pose proof (Z.div_mod t m ltac:(lia)) as Hdm.
  pose proof (Z.mod_pos_bound t m Hm) as Hb.
  pose proof (Z.div_mod (t + 1) m ltac:(lia)) as Hdm1.
  rewrite He in Hdm1.
  assert (Hq : (t + 1) / m = t / m + 1).
  { assert (0 < (t + 1) / m - t / m) by nia.
    assert ((t + 1) / m - t / m < 2) by nia. lia. }
  assert (Hr : t mod m + 1 = m) by nia.
  split; [|done].
  rewrite Zplus_mod_idemp_l.
  replace (t / m + t mod m * k + k) with (t / m + m * k) by nia.
  rewrite <- Zplus_mod_idemp_r, stride_orbit_closes, Z.add_0_r.
  rewrite Z.div_mul, Z.mod_mul by lia. by rewrite Z.mul_0_l, Z.add_0_r.
Qed.

(** The walk that the specification words follows the closed form. *)
Lemma stride_walk_closed T : forall j i,
  0 <= j -> j + Z.of_nat T = n -> ((0 < T)%nat -> i = f j) ->
  stride_walk T (fun i => (i + k) mod n) n i (f <$> seqZ 0 j) = f <$> seqZ 0 n.
Proof.
  pose proof stride_n_pos as Hn.
  induction T as [|T IH]; intros j i Hj HT Hi; cbn [stride_walk].
  - by replace n with j by lia.
  - rewrite (Hi ltac:(lia)).
    assert (Hacc : (f <$> seqZ 0 j) ++ [f j] = f <$> seqZ 0 (j + 1)).
    { rewrite seqZ_app by lia. rewrite fmap_app. done. }
    rewrite Hacc. apply IH; [lia|lia|]. intros HT'.
    assert (Hj1 : j + 1 < n) by lia.
    destruct (Z.eq_dec ((j + 1) mod m) 0) as [He|Hne].
    + destruct (stride_entry_wrap j ltac:(lia) He) as [Ec Eq].
      pose proof (stride_quot j ltac:(lia)) as Hq.
      pose proof (stride_quot (j + 1) ltac:(lia)) as Hq1.
      pose proof (Z.div_mod j m ltac:(lia)) as Hdm.
      pose proof (Z.mod_pos_bound j m Hm) as Hb.
      rewrite decide_True.
      2:{ rewrite Ec. apply list_elem_of_fmap. exists (j / m * m). split; [done|].
          apply elem_of_seqZ. nia. }
      pose proof (first_unvisited_spec (f <$> seqZ 0 (j + 1)) n ltac:(lia)) as Hfu.
      cbv zeta in Hfu. destruct Hfu as (Hr & Hbelow & Hnot).
      set (r := first_unvisited (f <$> seqZ 0 (j + 1)) n) in *.
      assert (Hin : forall x, 0 <= x <= j / m -> x ∈ f <$> seqZ 0 (j + 1)).
      { intros x Hx. apply list_elem_of_fmap. exists (x * m). split.
        - symmetry. apply stride_entry_start. lia.
        - apply elem_of_seqZ. nia. }
      assert (Hout : j / m + 1 ∉ f <$> seqZ 0 (j + 1)).
      { intros (t & Et & Htin)%list_elem_of_fmap. apply elem_of_seqZ in Htin.
        pose proof (stride_entry_class t ltac:(lia)) as Hc. cbv beta in Hc, Et.
        rewrite <- Et in Hc. rewrite Z.mod_small in Hc by lia.
        assert (t / m <= j / m) by (apply Z.div_le_mono; lia). lia. }
      assert (Hgn : g <= n) by nia.
      assert (Er : r = j / m + 1).
      { destruct (Z.lt_trichotomy r (j / m + 1)) as [Hlt|[E|Hgt]]; [|done|].
        - exfalso. apply Hnot; [lia|]. apply Hin. lia.
        - exfalso. apply Hout. apply Hbelow. lia. }
      rewrite Er, <- Eq. symmetry.
      assert (Ej : (j + 1) / m * m = j + 1).
      { pose proof (Z.div_mod (j + 1) m ltac:(lia)). lia. }
      pose proof (stride_entry_start ((j + 1) / m) ltac:(lia)) as Hs.
      rewrite Ej in Hs. exact Hs.
    + pose proof (stride_entry_next j ltac:(lia) Hne) as Ec. cbv beta in Ec.
      rewrite decide_False; [exact Ec|].
      rewrite Ec. intros (t & Et & Htin)%list_elem_of_fmap. apply elem_of_seqZ in Htin.
      apply stride_entry_inj in Et; lia.
Qed.

End StrideClosed.

(** X12: when the visited array is allocated and [n + k] does not wrap, the
    stride order has the closed form [stride_entry]: with [g = gcd(n, k)] and
    [m = n / g], entry [t] is [(t / m + (t mod m) k) mod n]; there are [g]
    orbits of [m] entries, orbit [q] starting at index [q].  For [k] coprime
    to [n] entry [t] is [t k mod n]; for [k] a multiple of [n] the order is
    the sequential one. *)
Theorem build_order_stride_closed (n k : Z) :
  0 < n -> 0 < k -> n + k <= Word.modulus ->
  build_order_stride true n k = Some (stride_entry n k <$> seqZ 0 n)
  /\ (Z.gcd n k = 1 -> forall t, 0 <= t < n -> stride_entry n k t = (t * k) mod n)
  /\ ((n | k) -> forall t, 0 <= t < n -> stride_entry n k t = t).
Proof.
  intros Hn Hk Hnk.
  pose proof (Z.gcd_nonneg n k) as Hg0.
  assert (Hg : 0 < Z.gcd n k).
  { destruct (Z.eq_dec (Z.gcd n k) 0) as [E|E]; [|lia]. apply Z.gcd_eq_0_l in E. lia. }
  destruct (Z.gcd_divide_l n k) as [m Em]. destruct (Z.gcd_divide_r n k) as [k' Ek].
  assert (Hdiv : n / Z.gcd n k = m) by (rewrite Em at 1; apply Z.div_mul; lia).
  assert (Hdivk : k / Z.gcd n k = k') by (rewrite Ek at 1; apply Z.div_mul; lia).
  assert (Hm : 0 < m) by nia.
  assert (Hrp : Z.gcd m k' = 1).
  { rewrite <- Hdiv, <- Hdivk. apply Z.gcd_div_gcd; [lia|done]. }
  split; [|split].
  - rewrite build_order_stride_spec by done. f_equal. unfold stride_spec.
    change (stride_entry n k) with (fun t => (t / (n / Z.gcd n k)
                                             + (t mod (n / Z.gcd n k)) * k) mod n).
    rewrite Hdiv.
    apply (stride_walk_closed n k (Z.gcd n k) m k' Hg Hm Em Ek Hrp (Z.to_nat n) 0 0);
      [lia|lia|].
    intros _. reflexivity.
  - intros E1 t Ht. unfold stride_entry. rewrite E1, Z.div_1_r.
    rewrite (Z.div_small t n), (Z.mod_small t n) by lia. done.
  - intros Hd t Ht. unfold stride_entry.
    apply Z.divide_gcd_iff in Hd; [|lia]. rewrite Hd, Z.div_same by lia.
    rewrite Z.div_1_r, Z.mod_1_r. cbn [Z.mul]. rewrite Z.add_0_r. apply Z.mod_small. lia.
Qed.

Lemma build_order_stride_closed_witness :
  build_order_stride true 12 8 = Some (stride_entry 12 8 <$> seqZ 0 12)
  /\ stride_entry 12 8 <$> seqZ 0 12 = [0; 8; 4; 1; 9; 5; 2; 10; 6; 3; 11; 7].
Proof.
  assert (H : 12 + 8 <= Word.modulus) by (unfold Word.modulus; lia).
  split; [|vm_compute; reflexivity].
  exact (proj1 (build_order_stride_closed 12 8 ltac:(lia) ltac:(lia) H)).
Defined.

(** *** The chase over the graph *)

(** X13: over the graph built from a permutation, [k] steps of [chase] from
    the node [order[i]] end at the node [order[(i + k) mod n]].  So a chase
    from a node never leaves the nodes, whatever the number of steps, and
    any number of whole laps ends where it started, as the warm-up chases
    of [nodes] steps do. *)
Theorem chase_position (base n node_stride : Z) (order : list Z) (mem : gmap Z Z) :
  2 <= n -> order ≡ₚ seqZ 0 n ->
  8 <= node_stride -> 0 <= base -> base + n * node_stride <= Word.modulus ->
  let addr := node_addr base node_stride in
  let graph := build_cycle_from_order base n node_stride order mem in
  addr 0 = base
  /\ (forall i k, 0 <= i < n ->
        chase graph (addr (order_at order i)) k
        = Some (addr (order_at order ((i + Z.of_nat k) mod n))))
  /\ (forall x k, 0 <= x < n ->
        exists y, 0 <= y < n /\ chase graph (addr x) k = Some (addr y))
  /\ (forall x laps, 0 <= x < n ->
        chase graph (addr x) (laps * Z.to_nat n) = Some (addr x)).
Proof.
  intros Hn Hp Hs Hb Hfit addr graph.
  assert (Hsteps : forall i k, 0 <= i < n ->
            chase graph (addr (order_at order i)) k
            = Some (addr (order_at order ((i + Z.of_nat k) mod n)))).
  { intros i k Hi. by apply chase_steps. }
  split; [|split; [done|split]].
  - unfold addr, node_addr, Word.mul, Word.add, Word.wrap. cbn [Z.mul].
    rewrite Zmod_0_l, Z.add_0_r. apply Z.mod_small. nia.
  - intros x k Hx.
    destruct (order_at_surj n order Hn Hp x Hx) as (i & Hi & <-).
    rewrite Hsteps by done. eexists. split; [|done].
    apply (order_at_range n node_stride order Hn Hp Hs). apply Z.mod_pos_bound. lia.
  - intros x laps Hx.
    destruct (order_at_surj n order Hn Hp x Hx) as (i & Hi & <-).
    rewrite Hsteps by done. do 3 f_equal.
    rewrite Nat2Z.inj_mul, Z2Nat.id by lia. rewrite Z.mod_add by lia.
    apply Z.mod_small. lia.
Qed.

Lemma chase_position_witness :
  chase (build_cycle_from_order 4096 3 256 [2; 0; 1] ∅)
    (node_addr 4096 256 (order_at [2; 0; 1] 0)) 7
  = Some (node_addr 4096 256 (order_at [2; 0; 1] ((0 + Z.of_nat 7) mod 3))).
Proof.
  assert (Hp : [2; 0; 1] ≡ₚ seqZ 0 3).
  { change (seqZ 0 3) with ([0; 1] ++ [2]). apply Permutation_cons_append. }
  assert (Hfit : 4096 + 3 * 256 <= Word.modulus) by (unfold Word.modulus; lia).
  exact (proj1 (proj2 (chase_position 4096 3 256 [2; 0; 1] ∅
                         ltac:(lia) Hp ltac:(lia) ltac:(lia) Hfit)) 0 7%nat ltac:(lia)).
Defined.



(** X15: [build_cycle], the builder that the program no longer calls, does
    what the random pattern does: from a nonzero generator state it returns,
    [perm] is a permutation of [0, n), the state stays nonzero, and the
    memory holds one cycle through all [n] nodes: from every node the chase
    is back after exactly [n] steps and not before. *)
Theorem build_cycle_single_cycle (base n node_stride state : Z) (mem : gmap Z Z) :
  2 <= n -> 8 <= node_stride -> 0 <= base -> base + n * node_stride <= Word.modulus ->
  Word.in_range state -> state <> 0 ->
  exists perm state' mem',
    build_cycle base n node_stride state mem = Some (perm, state', mem')
    /\ perm ≡ₚ seqZ 0 n
    /\ Word.in_range state' /\ state' <> 0
    /\ mem' = build_cycle_from_order base n node_stride perm mem
    /\ forall x, 0 <= x < n ->
         chase mem' (node_addr base node_stride x) (Z.to_nat n)
         = Some (node_addr base node_stride x)
         /\ forall k, (0 < k < Z.to_nat n)%nat ->
              chase mem' (node_addr base node_stride x) k
              <> Some (node_addr base node_stride x).
Proof.
  intros Hn Hs Hb Hfit Hst Hst0.
  assert (Hlt : n < Word.modulus) by nia.
  unfold build_cycle.
  fold (build_order_sequential n). rewrite build_order_sequential_eq.
  rewrite sub_small by word_lia.
  destruct (shuffle_loop_perm n (Z.to_nat (n - 1)) (n - 1) (seqZ 0 n) state)
    as (perm & state' & -> & Hperm & Hs' & Hs0'); [done|lia|lia|done|done|done|].
  cbn [mbind option_bind].
  exists perm, state', (build_cycle_from_order base n node_stride perm mem).
  split; [done|]. split; [done|]. split; [done|]. split; [done|]. split; [done|].
  intros x Hx.
  destruct (graph_single_cycle base n node_stride perm Hn Hperm Hs Hb Hfit mem x Hx)
    as (H1 & H2 & _).
  split; [exact H1|exact H2].
Qed.

Lemma build_cycle_single_cycle_witness :
  exists perm state' mem',
    build_cycle 4096 4 256 (main_seed 0) ∅ = Some (perm, state', mem')
    /\ perm ≡ₚ seqZ 0 4.
Proof.
  assert (Hfit : 4096 + 4 * 256 <= Word.modulus) by (unfold Word.modulus; lia).
  assert (H1 : Word.in_range (main_seed 0)).
  { unfold Word.in_range. vm_compute. split; [discriminate|reflexivity]. }
  assert (H2 : main_seed 0 <> 0) by (vm_compute; discriminate).
  destruct (build_cycle_single_cycle 4096 4 256 (main_seed 0) ∅
              ltac:(lia) ltac:(lia) ltac:(lia) Hfit H1 H2)
    as (perm & state' & mem' & E & Hperm & _).
  exact (ex_intro _ perm (ex_intro _ state' (ex_intro _ mem' (conj E Hperm)))).
Defined.

(** *** Command line *)

Lemma streq_eq a b : streq a b = true <-> a = b.
Proof. unfold streq. apply String.eqb_eq. Qed.

(** X16: [parse_pattern] returns one of the seven enumerators, whatever the
    string; [pattern_name] followed by [parse_pattern] gives back each of the
    seven and sends every other value to [PATTERN_RANDOM]; and the name of a
    parsed pattern parses to the same pattern, so the aliases and the unknown
    strings lose nothing but their spelling. *)
Theorem parse_pattern_name_round_trip :
  (forall s, 0 <= parse_pattern s <= 6)
  /\ (forall p, parse_pattern (pattern_name p)
               = if (0 <=? p) && (p <=? 6) then p else PATTERN_RANDOM)
  /\ (forall s, parse_pattern (pattern_name (parse_pattern s)) = parse_pattern s)
  /\ (forall s, is_random (parse_pattern s) = true <-> parse_pattern s = PATTERN_RANDOM).
Proof.
  assert (H1 : forall s, 0 <= parse_pattern s <= 6).
  { intros s. unfold parse_pattern, PATTERN_RANDOM, PATTERN_SEQUENTIAL, PATTERN_REVERSE,
      PATTERN_STRIDE, PATTERN_INTERLEAVE, PATTERN_GRAY, PATTERN_BITREVERSE.
    repeat match goal with |- context [if ?c then _ else _] => destruct c end; lia. }
  assert (H2 : forall p, parse_pattern (pattern_name p)
                         = if (0 <=? p) && (p <=? 6) then p else PATTERN_RANDOM).
  { intros p. unfold pattern_name, PATTERN_RANDOM, PATTERN_SEQUENTIAL, PATTERN_REVERSE,
      PATTERN_STRIDE, PATTERN_INTERLEAVE, PATTERN_GRAY, PATTERN_BITREVERSE.
    destruct (Z.eqb_spec p 0) as [->|?]; [reflexivity|].
    destruct (Z.eqb_spec p 1) as [->|?]; [reflexivity|].
    destruct (Z.eqb_spec p 2) as [->|?]; [reflexivity|].
    destruct (Z.eqb_spec p 3) as [->|?]; [reflexivity|].
    destruct (Z.eqb_spec p 4) as [->|?]; [reflexivity|].
    destruct (Z.eqb_spec p 5) as [->|?]; [reflexivity|].
    destruct (Z.eqb_spec p 6) as [->|?]; [reflexivity|].
    destruct (Z.leb_spec 0 p), (Z.leb_spec p 6); cbn [andb]; try reflexivity. lia. }
  split; [done|]. split; [done|]. split.
  - intros s. rewrite H2. specialize (H1 s).
    destruct (Z.leb_spec 0 (parse_pattern s)), (Z.leb_spec (parse_pattern s) 6);
      cbn [andb]; lia || done.
  - intros s. specialize (H1 s). unfold is_random, PATTERN_RANDOM.
    destruct (Z.leb_spec 1 (parse_pattern s)), (Z.leb_spec (parse_pattern s) 6);
      cbn [andb negb]; split; intros; lia || done.
Qed.

Lemma clamp_size_cases v lo hi :
  (v < lo /\ clamp_size v lo hi = lo)
  \/ (lo <= v /\ hi < v /\ clamp_size v lo hi = hi)
  \/ (lo <= v <= hi /\ clamp_size v lo hi = v).
Proof.
  unfold clamp_size. destruct (Z.ltb_spec v lo); [by left|].
  destruct (Z.ltb_spec hi v); [right; left|right; right]; lia || (split; [lia|done]).
Qed.

Section ParseArgsProofs.

Variables strtoull strtoul : string -> Z.
Hypothesis strtoull_range : forall s, Word.in_range (strtoull s).

Lemma to_unsigned_range v : 0 <= to_unsigned v < 2 ^ 32.
Proof. unfold to_unsigned. apply Z.mod_pos_bound. lia. Qed.

Lemma parse_flag_spec a next o :
  options_in_range o ->
  match parse_flag strtoull strtoul a next o with
  | inl (o', taken) => options_in_range o' /\ (taken = true -> is_Some next)
  | inr status => status = 0 /\ (a = "-h" \/ a = "--help")%string
  end.
Proof.
  intros (H1 & H2 & H3 & H4 & H5 & H6 & H7 & H8).
  pose proof (proj1 parse_pattern_name_round_trip) as Hpat.
  pose proof to_unsigned_range as Hu.
  assert (Hclip : forall s, Word.in_range
            (if Word.SIZE_MAX <? strtoull s then Word.SIZE_MAX else strtoull s)).
  { intros s. pose proof (strtoull_range s).
    destruct (Z.ltb_spec Word.SIZE_MAX (strtoull s)); [word_lia|done]. }
  unfold parse_flag, flag_value.
  repeat match goal with
  | |- context [match (if ?c then next else None) with _ => _ end] =>
      destruct c; [destruct next as [s|];
        [cbv zeta; split; [unfold options_in_range; cbn; auto 10|by eexists]|]|]
  end.
  all: repeat match goal with
  | |- context [if streq ?x ?y then _ else _] => destruct (streq x y) eqn:?
  | |- context [if ?c || ?d then _ else _] => destruct c eqn:?; destruct d eqn:?; cbn [orb]
  end.
  all: try (split; [unfold options_in_range; cbn; auto 10|done]).
  all: try (split; [done|]).
  all: try (left; by apply streq_eq).
  all: try (right; by apply streq_eq).
Qed.

Lemma parse_loop_spec (len : nat) : forall args o,
  (length args <= len)%nat -> options_in_range o ->
  match parse_loop strtoull strtoul args o with
  | inl o' => options_in_range o'
  | inr status => status = 0 /\ exists a, a ∈ args /\ (a = "-h" \/ a = "--help")%string
  end.
Proof.
  induction len as [|len IH]; intros args o Hlen Ho.
  - destruct args; [done|simpl in Hlen; lia].
  - destruct args as [|a rest]; [done|]. cbn [parse_loop].
    pose proof (parse_flag_spec a (head rest) o Ho) as Hf.
    destruct (parse_flag strtoull strtoul a (head rest) o) as [[o' taken]|status].
    + destruct Hf as [Ho' _]. destruct rest as [|v after]; [done|].
      cbn [length] in Hlen.
      assert (Hsub : forall l, (length l <= len)%nat ->
                (forall x, x ∈ l -> x ∈ a :: v :: after) ->
                match parse_loop strtoull strtoul l o' with
                | inl o'' => options_in_range o''
                | inr status =>
                    status = 0 /\ exists x, x ∈ a :: v :: after /\ (x = "-h" \/ x = "--help")%string
                end).
      { intros l Hl Hin. pose proof (IH l o' Hl Ho') as H.
        destruct (parse_loop strtoull strtoul l o'); [done|].
        destruct H as (-> & x & Hx & Hh). split; [done|]. exists x. split; [by apply Hin|done]. }
      destruct taken.
      * apply Hsub; [lia|]. intros x Hx. rewrite !elem_of_cons. auto.
      * apply Hsub; [cbn [length]; lia|]. intros x Hx. rewrite elem_of_cons. auto.
    + destruct Hf as [-> Hh]. split; [done|]. exists a. split; [apply elem_of_cons; by left|done].
Qed.

End ParseArgsProofs.

Lemma sanity_bounds_spec o :
  options_in_range o ->
  let o' := sanity_bounds o in
  options_in_range o'
  /\ node_stride o' = node_stride o
  /\ (min_bytes o' <= GiB4 -> min_bytes o' <= max_bytes o' <= GiB4)
  /\ (Word.mul (node_stride o) 2 <= max_bytes o ->
      Word.mul (node_stride o) 2 <= min_bytes o' <= max_bytes o)
  /\ (max_bytes o < Word.mul (node_stride o) 2 <= min_bytes o ->
      min_bytes o' = max_bytes o).
Proof.
  intros (H1 & H2 & H3 & H4 & H5 & H6 & H7 & H8). cbv zeta.
  unfold sanity_bounds, set_min_bytes, set_max_bytes, options_in_range.
  cbn [min_bytes max_bytes node_stride warmup_iters target_ms repeats print_table
         pattern pattern_arg].
  replace (Word.SIZE_MAX <? GiB4) with false by (vm_compute; reflexivity).
  pose proof (wrap_range (node_stride o * 2)) as Hlo. fold (Word.mul (node_stride o) 2) in Hlo.
  set (lo := Word.mul (node_stride o) 2) in *.
  assert (HG : GiB4 = 2 ^ 32) by reflexivity.
  destruct (clamp_size_cases (min_bytes o) lo (max_bytes o)) as [[Ha ->]|[(Ha & Hb & ->)|[Ha ->]]].
  - destruct (clamp_size_cases (max_bytes o) lo GiB4) as [[Hc ->]|[(Hc & Hd & ->)|[Hc ->]]];
      repeat split; try done; word_lia.
  - destruct (clamp_size_cases (max_bytes o) (max_bytes o) GiB4)
      as [[Hc ->]|[(Hc & Hd & ->)|[Hc ->]]];
      repeat split; try done; word_lia.
  - destruct (clamp_size_cases (max_bytes o) (min_bytes o) GiB4)
      as [[Hc ->]|[(Hc & Hd & ->)|[Hc ->]]];
      repeat split; try done; word_lia.
Qed.

(** X17: whatever the arguments, when [parse_args] returns the options are
    in range: [warmup_iters] is 3, [target_ms] and [repeats] are below
    [2^32], the pattern is one of the seven enumerators, and unless
    [min_bytes] ends above 4 GiB, [min_bytes <= max_bytes <= 4 GiB].  It
    exits, with status 0, only if [-h] or [--help] is among the arguments. *)
Theorem parse_args_postcondition (strtoull strtoul : string -> Z) (argv : list string) :
  (forall s, Word.in_range (strtoull s)) ->
  match parse_args strtoull strtoul argv with
  | inl o =>
      options_in_range o
      /\ (min_bytes o <= GiB4 -> min_bytes o <= max_bytes o <= GiB4)
  | inr status =>
      status = 0 /\ exists a, a ∈ tail argv /\ (a = "-h" \/ a = "--help")%string
  end.
Proof.
  intros Hull. unfold parse_args.
  assert (Hd : options_in_range default_options).
  { unfold options_in_range, default_options, Word.in_range, Word.modulus, PATTERN_RANDOM.
    cbn. lia. }
  pose proof (parse_loop_spec strtoull strtoul Hull (length (tail argv)) (tail argv)
                default_options ltac:(lia) Hd) as H.
  destruct (parse_loop strtoull strtoul (tail argv) default_options) as [o|status]; [|done].
  destruct (sanity_bounds_spec o H) as (Ho & _ & Hb & _). done.
Qed.

Lemma parse_args_postcondition_witness :
  match parse_args (fun _ => 65536) (fun _ => 5)
          ["prog"; "--min-bytes"; "65536"; "--repeats"; "5"; "-p"; "gray"]%string with
  | inl o => options_in_range o /\ (min_bytes o <= GiB4 -> min_bytes o <= max_bytes o <= GiB4)
  | inr status => status = 0 /\ exists a,
      a ∈ tail ["prog"; "--min-bytes"; "65536"; "--repeats"; "5"; "-p"; "gray"]%string
      /\ (a = "-h" \/ a = "--help")%string
  end.
Proof.
  assert (H1 : forall s : string, Word.in_range ((fun _ => 65536) s)).
  { intros _. unfold Word.in_range, Word.modulus. lia. }
  exact (parse_args_postcondition (fun _ => 65536) (fun _ => 5)
           ["prog"; "--min-bytes"; "65536"; "--repeats"; "5"; "-p"; "gray"]%string H1).
Defined.

(** *** Sizes, allocation and the buffer *)

Lemma cmp_size_t_le a b : cmp_size_t a b <= 0 <-> a <= b.
Proof.
  unfold cmp_size_t. destruct (Z.ltb_spec a b); [lia|]. destruct (Z.ltb_spec b a); lia.
Qed.

Lemma Sorted_weaken (R R' : Z -> Z -> Prop) (l : list Z) :
  (forall x y, R x y -> R' x y) -> Sorted R l -> Sorted R' l.
Proof.
  intros HR. induction 1 as [|x l Hs IH Hhd]; constructor; [done|].
  destruct Hhd; constructor. by apply HR.
Qed.

(** X18: [cmp_size_t] is a three-way comparison of the values: negative,
    zero or positive as [a] is below, equal to or above [b], and
    antisymmetric.  Any arrangement of an array that is in order for it is
    the one that the model's [qsort] returns, so the result of the C [qsort]
    does not depend on how the library sorts. *)
Theorem cmp_size_t_orders (a b : Z) (l l' : list Z) :
  (cmp_size_t a b < 0 <-> a < b)
  /\ (cmp_size_t a b = 0 <-> a = b)
  /\ (0 < cmp_size_t a b <-> b < a)
  /\ cmp_size_t a b = - cmp_size_t b a
  /\ (l' ≡ₚ l -> Sorted (fun x y => cmp_size_t x y <= 0) l' -> l' = qsort l).
Proof.
  assert (H : forall x y, (cmp_size_t x y < 0 <-> x < y) /\ (cmp_size_t x y = 0 <-> x = y)
                          /\ (0 < cmp_size_t x y <-> y < x)).
  { intros x y. unfold cmp_size_t.
    destruct (Z.ltb_spec x y); [lia|]. destruct (Z.ltb_spec y x); lia. }
  destruct (H a b) as (H1 & H2 & H3). destruct (H b a) as (H4 & H5 & H6).
  split; [done|]. split; [done|]. split; [done|]. split.
  - destruct (Z.lt_trichotomy a b) as [Hlt|[Heq|Hgt]].
    + unfold cmp_size_t. replace (a <? b) with true by lia.
      replace (b <? a) with false by lia. done.
    + subst. unfold cmp_size_t. by rewrite Z.ltb_irrefl.
    + unfold cmp_size_t. replace (a <? b) with false by lia.
      replace (b <? a) with true by lia. done.
  - intros Hperm Hsorted.
    assert (Hs : Sorted Z.le l').
    { eapply Sorted_weaken; [|exact Hsorted]. intros x y. apply cmp_size_t_le. }
    apply (Sorted_unique Z.le); [done|apply Sorted_merge_sort; apply _|].
    rewrite Hperm. symmetry. apply merge_sort_Permutation.
Qed.

Lemma cmp_size_t_orders_witness :
  [1024; 1536; 2048] = qsort [2048; 1024; 1536].
Proof.
  assert (Hp : [1024; 1536; 2048] ≡ₚ [2048; 1024; 1536]).
  { change [2048; 1024; 1536] with ([2048] ++ [1024; 1536]).
    rewrite (Permutation_app_comm [2048]). done. }
  assert (Hs : Sorted (fun x y => cmp_size_t x y <= 0) [1024; 1536; 2048]).
  { repeat constructor; vm_compute; discriminate. }
  exact (proj2 (proj2 (proj2 (proj2 (cmp_size_t_orders 0 0 [2048; 1024; 1536]
                                         [1024; 1536; 2048])))) Hp Hs).
Defined.

Lemma alloc_retry_spec f sizes : forall idx calls ok idx' ok',
  alloc_retry f sizes idx calls ok = (idx', ok') ->
  if ok' then
    ((ok = true /\ idx' = idx)
     \/ (ok = false /\ (idx' < idx)%nat
         /\ f (calls + (idx - 1 - idx'))%nat (nth idx' sizes 0) = true))
    /\ forall j, (idx' < j < idx)%nat -> f (calls + (idx - 1 - j))%nat (nth j sizes 0) = false
  else
    ok = false /\ idx' = 0%nat
    /\ forall j, (j < idx)%nat -> f (calls + (idx - 1 - j))%nat (nth j sizes 0) = false.
Proof.
  induction idx as [|idx IH]; intros calls ok idx' ok'; cbn [alloc_retry].
  - destruct ok; intros [= <- <-].
    + split; [by left|]. intros; lia.
    + split; [done|]. split; [done|]. intros; lia.
  - destruct ok.
    + intros [= <- <-]. split; [by left|]. intros; lia.
    + intros E. apply IH in E. destruct ok'.
      * destruct E as [Hfound Hfail]. split.
        -- right. split; [done|].
           destruct Hfound as [[Hok ->]|(Hok & Hlt & Hf)].
           ++ split; [lia|]. by replace (calls + (S idx - 1 - idx))%nat with calls by lia.
           ++ split; [lia|].
              by replace (calls + (S idx - 1 - idx'))%nat
                with (S calls + (idx - 1 - idx'))%nat by lia.
        -- intros j Hj. destruct (decide (j = idx)) as [->|Hne].
           ++ destruct Hfound as [[Hok ->]|(Hok & Hlt & Hf)]; [lia|].
              by replace (calls + (S idx - 1 - idx))%nat with calls by lia.
           ++ specialize (Hfail j ltac:(lia)).
              by replace (calls + (S idx - 1 - j))%nat
                with (S calls + (idx - 1 - j))%nat by lia.
      * destruct E as (Hok & -> & Hfail). split; [done|]. split; [done|].
        intros j Hj. destruct (decide (j = idx)) as [->|Hne].
        -- by replace (calls + (S idx - 1 - idx))%nat with calls by lia.
        -- specialize (Hfail j ltac:(lia)).
           by replace (calls + (S idx - 1 - j))%nat
             with (S calls + (idx - 1 - j))%nat by lia.
Qed.

Lemma trim_sizes_prefix (l r : list Z) b : forall k,
  (k <= length l)%nat -> trim_sizes (l ++ r) k b = trim_sizes l k b.
Proof.
  induction k as [|k IH]; intros Hk; [done|]. cbn [trim_sizes].
  rewrite app_nth1 by lia. rewrite IH by lia. done.
Qed.

Lemma trim_sizes_le l b k : (trim_sizes l k b <= k)%nat.
Proof.
  induction k as [|k IH]; [done|]. cbn [trim_sizes].
  destruct (b <? nth k l 0); lia.
Qed.

Lemma trim_sizes_filter (l : list Z) b :
  StronglySorted Z.le l ->
  take (trim_sizes l (length l) b) l = filter (fun ws => ws <= b) l.
Proof.
  induction l as [|x l IH] using rev_ind; intros Hs; [done|].
  apply StronglySorted_app in Hs as (Hle & Hs & _).
  rewrite length_app. cbn [length]. rewrite Nat.add_1_r. cbn [trim_sizes].
  rewrite app_nth2 by lia. rewrite Nat.sub_diag. cbn [nth].
  rewrite filter_app, filter_cons, filter_nil.
  destruct (Z.ltb_spec b x) as [Hlt|Hge].
  - rewrite decide_False by lia. rewrite app_nil_r.
    rewrite trim_sizes_prefix by lia.
    rewrite take_app_le by apply trim_sizes_le. by apply IH.
  - rewrite decide_True by lia.
    rewrite (filter_all (fun ws => ws <= b) l).
    + replace (S (length l)) with (length (l ++ [x])) by (rewrite length_app; simpl; lia).
      by rewrite firstn_all.
    + apply Forall_forall. intros y Hy.
      specialize (Hle y x Hy ltac:(apply list_elem_of_singleton; done)). lia.
Qed.

(** X19: [main] ends up with the largest size whose [posix_memalign]
    succeeds, trying the sizes from the largest down, one call each; it
    keeps exactly the sizes that fit in that buffer and gives [perm] one
    entry per [node_stride] bytes of it.  It returns 1 only when there is no
    size or every call fails. *)
Theorem main_alloc_spec (memalign_ok : nat -> Z -> bool) (node_stride : Z) (sizes : list Z) :
  StronglySorted Z.le sizes ->
  match main_alloc memalign_ok node_stride sizes with
  | Some (alloc_bytes, kept, max_nodes) =>
      (exists idx,
         sizes !! idx = Some alloc_bytes
         /\ memalign_ok (length sizes - 1 - idx)%nat alloc_bytes = true
         /\ forall j s, (idx < j)%nat -> sizes !! j = Some s ->
              memalign_ok (length sizes - 1 - j)%nat s = false)
      /\ kept = filter (fun ws => ws <= alloc_bytes) sizes
      /\ max_nodes = alloc_bytes / node_stride
  | None =>
      forall j s, sizes !! j = Some s -> memalign_ok (length sizes - 1 - j)%nat s = false
  end.
Proof.
  intros Hs. unfold main_alloc.
  destruct (Nat.eqb_spec (length sizes) 0) as [E0|E0].
  { intros j s Hj. apply lookup_lt_Some in Hj. lia. }
  destruct (alloc_retry memalign_ok sizes (length sizes - 1) 1
              (memalign_ok 0%nat (nth (length sizes - 1) sizes 0))) as [idx ok] eqn:E.
  apply alloc_retry_spec in E. destruct ok.
  - destruct E as [Hfound Hfail]. split; [|split; [by apply trim_sizes_filter|done]].
    exists idx.
    assert (Hidx : (idx < length sizes)%nat).
    { destruct Hfound as [[_ ->]|(_ & Hlt & _)]; lia. }
    destruct (lookup_lt_is_Some_2 sizes idx Hidx) as [b Hb].
    assert (Enth : nth idx sizes 0 = b) by (by rewrite nth_lookup, Hb).
    rewrite Enth. split; [done|]. split.
    + destruct Hfound as [[Hok ->]|(_ & Hlt & Hf)].
      * rewrite Enth in Hok. by replace (length sizes - 1 - (length sizes - 1))%nat with 0%nat by lia.
      * rewrite Enth in Hf.
        by replace (length sizes - 1 - idx)%nat with (1 + (length sizes - 1 - 1 - idx))%nat by lia.
    + intros j s Hj Hjs. pose proof (lookup_lt_Some _ _ _ Hjs) as Hjl.
      assert (Es : nth j sizes 0 = s) by (by rewrite nth_lookup, Hjs).
      destruct (decide (j = length sizes - 1)%nat) as [->|Hne].
      * destruct Hfound as [[_ ->]|(Hok & _ & _)]; [lia|].
        rewrite Es in Hok. by replace (length sizes - 1 - (length sizes - 1))%nat with 0%nat by lia.
      * specialize (Hfail j ltac:(lia)). rewrite Es in Hfail.
        by replace (length sizes - 1 - j)%nat with (1 + (length sizes - 1 - 1 - j))%nat by lia.
  - destruct E as (Hok & -> & Hfail). intros j s Hjs.
    pose proof (lookup_lt_Some _ _ _ Hjs) as Hjl.
    assert (Es : nth j sizes 0 = s) by (by rewrite nth_lookup, Hjs).
    destruct (decide (j = length sizes - 1)%nat) as [->|Hne].
    + rewrite Es in Hok. by replace (length sizes - 1 - (length sizes - 1))%nat with 0%nat by lia.
    + specialize (Hfail j ltac:(lia)). rewrite Es in Hfail.
      by replace (length sizes - 1 - j)%nat with (1 + (length sizes - 1 - 1 - j))%nat by lia.
Qed.

Lemma main_alloc_spec_witness :
  main_alloc (fun _ size => size <=? 6000) 256 [4096; 5120; 6144; 8192]
  = Some (5120, [4096; 5120], 20)
  /\ match main_alloc (fun _ size => size <=? 6000) 256 [4096; 5120; 6144; 8192] with
     | Some (alloc_bytes, kept, max_nodes) =>
         kept = filter (fun ws => ws <= alloc_bytes) [4096; 5120; 6144; 8192]
         /\ max_nodes = alloc_bytes / 256
     | None => False
     end.
Proof.
  assert (Hs : StronglySorted Z.le [4096; 5120; 6144; 8192]).
  { repeat constructor; lia. }
  split; [vm_compute; reflexivity|].
  pose proof (main_alloc_spec (fun _ size => size <=? 6000) 256 [4096; 5120; 6144; 8192] Hs)
    as H.
  destruct (main_alloc (fun _ size => size <=? 6000) 256 [4096; 5120; 6144; 8192])
    as [[[b kept] maxn]|].
  - exact (proj2 H).
  - discriminate (H 0%nat 4096 eq_refl).
Defined.

Lemma sizes_body_range min_bytes max_bytes out_cap p out v :
  p <= max_bytes ->
  v ∈ sizes_body min_bytes max_bytes out_cap p out ->
  v ∈ out \/ min_bytes <= v <= max_bytes.
Proof.
  intros Hp. unfold sizes_body.
  destruct (p <=? 2 ^ 20), (p <=? 128 * 2 ^ 10); intros H;
    repeat match type of H with
    | _ ∈ emit _ _ _ _ =>
        apply emit_elem in H as [H|[-> Hc]];
          [|right; first [by apply in_bounds_true | lia]]
    end; by left.
Qed.

Lemma sizes_loop_range min_bytes max_bytes out_cap fuel : forall p out out',
  sizes_loop fuel min_bytes max_bytes out_cap p out = Some out' ->
  forall v, v ∈ out' -> v ∈ out \/ min_bytes <= v <= max_bytes.
Proof.
  induction fuel as [|fuel IH]; intros p out out'; rewrite sizes_loop_eq.
  - destruct (p <=? max_bytes); [done|]. intros [= <-] v Hv. by left.
  - destruct (Z.leb_spec p max_bytes) as [Hp|Hp]; [|intros [= <-] v Hv; by left].
    cbv zeta. destruct (Word.shr Word.SIZE_MAX 1 <? p).
    + intros [= <-] v Hv. by eapply sizes_body_range.
    + intros E v Hv. destruct (IH _ _ _ E v Hv) as [H|H]; [|by right].
      by eapply sizes_body_range.
Qed.

(** What [generate_sizes] returns is in ascending order and inside the
    bounds, for all arguments. *)
Lemma generate_sizes_range min_bytes max_bytes out_cap sizes :
  generate_sizes min_bytes max_bytes out_cap = Some sizes ->
  StronglySorted Z.le sizes /\ forall v, v ∈ sizes -> min_bytes <= v <= max_bytes.
Proof.
  unfold generate_sizes.
  destruct (pow2_floor_loop loop_fuel 1 min_bytes) as [p|]; [|done]. cbn [mbind option_bind].
  destruct (sizes_loop _ _ _ _ _ _) as [out|] eqn:E; [|done]. cbn [mbind option_bind].
  intros [= <-]. split.
  - apply StronglySorted_merge_sort; apply _.
  - intros v Hv. unfold qsort in Hv. rewrite merge_sort_Permutation in Hv.
    destruct (sizes_loop_range _ _ _ _ _ _ _ E v Hv) as [H|H]; [|done].
    by apply elem_of_nil in H.
Qed.

Lemma measure_nodes_fit ws stride :
  0 < stride -> 2 * stride <= ws ->
  measure_nodes ws stride = ws / stride
  /\ 2 <= measure_nodes ws stride /\ measure_nodes ws stride * stride <= ws.
Proof.
  intros Hs Hws. unfold measure_nodes.
  assert (2 <= ws / stride) by (apply Z.div_le_lower_bound; lia).
  replace (ws / stride <? 2) with false by lia.
  split; [done|]. split; [done|]. rewrite Z.mul_comm. apply Z.mul_div_le. lia.
Qed.

(** X20: when the command line leaves [2 * node_stride <= max_bytes], every
    measurement stays inside what [main] allocated: each size [ws] that
    [main] keeps holds at least two nodes, and its [ws / node_stride] nodes
    take no more than [ws] bytes, which is at most the buffer, and no more
    entries of [perm] than [perm] has. *)
Theorem main_measurements_fit (memalign_ok : nat -> Z -> bool) (o : Options)
    (sizes kept : list Z) (alloc_bytes max_nodes : Z) :
  options_in_range o -> 0 < node_stride o ->
  2 * node_stride o <= max_bytes o ->
  let o' := sanity_bounds o in
  generate_sizes (min_bytes o') (max_bytes o') max_samples = Some sizes ->
  main_alloc memalign_ok (node_stride o') sizes = Some (alloc_bytes, kept, max_nodes) ->
  forall ws, ws ∈ kept ->
    let nodes := measure_nodes ws (node_stride o') in
    2 * node_stride o' <= ws <= alloc_bytes
    /\ nodes = ws / node_stride o'
    /\ 2 <= nodes <= max_nodes
    /\ nodes * node_stride o' <= alloc_bytes.
Proof.
  intros Ho Hs Hmax o' Hgen Halloc ws Hws nodes.
  destruct (sanity_bounds_spec o Ho) as (_ & Estride & _ & Hmin & _).
  fold o' in Estride, Hmin.
  assert (Hmul : Word.mul (node_stride o) 2 = 2 * node_stride o).
  { unfold Word.mul, Word.wrap. rewrite Z.mul_comm. apply Z.mod_small.
    destruct Ho as (_ & H2 & _). word_lia. }
  rewrite Hmul in Hmin. specialize (Hmin Hmax).
  destruct (generate_sizes_range _ _ _ _ Hgen) as [Hsorted Hrange].
  pose proof (main_alloc_spec memalign_ok (node_stride o') sizes Hsorted) as Hspec.
  rewrite Halloc in Hspec. destruct Hspec as (_ & -> & ->).
  apply list_elem_of_filter in Hws as [Hle Hin]. specialize (Hrange ws Hin).
  subst nodes. rewrite Estride in *.
  destruct (measure_nodes_fit ws (node_stride o) Hs ltac:(lia)) as (En & Hn2 & Hfit).
  split; [lia|]. split; [done|]. split; [|lia].
  split; [done|]. rewrite En. apply Z.div_le_mono; lia.
Qed.

Lemma main_measurements_fit_witness :
  exists sizes kept alloc_bytes max_nodes,
    generate_sizes (min_bytes (sanity_bounds default_options))
      (max_bytes (sanity_bounds default_options)) max_samples = Some sizes
    /\ main_alloc (fun _ size => size <=? 8192) (node_stride (sanity_bounds default_options))
         sizes = Some (alloc_bytes, kept, max_nodes)
    /\ kept = [4096; 4608; 5120; 5632; 6144; 6656; 7168; 7680; 8192]
    /\ Forall (fun ws =>
         2 <= measure_nodes ws (node_stride (sanity_bounds default_options)) <= max_nodes
         /\ measure_nodes ws (node_stride (sanity_bounds default_options))
            * node_stride (sanity_bounds default_options) <= alloc_bytes) kept.
Proof.
  assert (Ho : options_in_range default_options).
  { unfold options_in_range, default_options, Word.in_range, Word.modulus, PATTERN_RANDOM.
    cbn. lia. }
  assert (Hs : 0 < node_stride default_options) by (vm_compute; reflexivity).
  assert (Hm : 2 * node_stride default_options <= max_bytes default_options)
    by (vm_compute; discriminate).
  destruct (generate_sizes (min_bytes (sanity_bounds default_options))
              (max_bytes (sanity_bounds default_options)) max_samples) as [sizes|] eqn:Hgen;
    [|vm_compute in Hgen; discriminate Hgen].
  destruct (main_alloc (fun _ size => size <=? 8192)
              (node_stride (sanity_bounds default_options)) sizes)
    as [[[alloc_bytes kept] max_nodes]|] eqn:Halloc;
    [|vm_compute in Hgen; injection Hgen as <-; vm_compute in Halloc; discriminate Halloc].
  exists sizes, kept, alloc_bytes, max_nodes. split; [done|]. split; [done|].
  pose proof (main_measurements_fit (fun _ size => size <=? 8192) default_options
                sizes kept alloc_bytes max_nodes Ho Hs Hm Hgen Halloc) as Hfit.
  split.
  - vm_compute in Hgen. injection Hgen as <-. vm_compute in Halloc.
    injection Halloc as _ <- _. reflexivity.
  - apply Forall_forall. intros ws Hws. destruct (Hfit ws Hws) as (_ & _ & H1 & H2).
    split; [exact H1|exact H2].
Defined.

(** X21: the sanity bounds of [parse_args] do not keep two nodes inside the
    buffer when [max_bytes < 2 * node_stride <= min_bytes]: [min_bytes]
    becomes [max_bytes], so every size that [main] then measures is below
    [2 * node_stride]; [measure_ns_per_access] still builds two nodes, which
    take [2 * node_stride] bytes, more than the buffer has, and [perm] has
    fewer than two entries. *)
Theorem sanity_bounds_two_nodes_overrun (memalign_ok : nat -> Z -> bool) (o : Options)
    (sizes kept : list Z) (alloc_bytes max_nodes : Z) :
  options_in_range o -> 0 < node_stride o -> 2 * node_stride o < Word.modulus ->
  max_bytes o < 2 * node_stride o -> 2 * node_stride o <= min_bytes o ->
  let o' := sanity_bounds o in
  generate_sizes (min_bytes o') (max_bytes o') max_samples = Some sizes ->
  main_alloc memalign_ok (node_stride o') sizes = Some (alloc_bytes, kept, max_nodes) ->
  min_bytes o' = max_bytes o
  /\ max_bytes o' <= max_bytes o
  /\ alloc_bytes < 2 * node_stride o'
  /\ max_nodes < 2
  /\ forall ws, ws ∈ kept ->
       measure_nodes ws (node_stride o') = 2
       /\ alloc_bytes < measure_nodes ws (node_stride o') * node_stride o'.
Proof.
  intros Ho Hs Hnw Hmax Hmin o' Hgen Halloc.
  destruct (sanity_bounds_spec o Ho) as (_ & Estride & _ & _ & Hesc).
  fold o' in Estride, Hesc.
  assert (Hmul : Word.mul (node_stride o) 2 = 2 * node_stride o).
  { unfold Word.mul, Word.wrap. rewrite Z.mul_comm. apply Z.mod_small. lia. }
  rewrite Hmul in Hesc. specialize (Hesc ltac:(lia)).
  assert (Hmax' : max_bytes o' <= max_bytes o).
  { unfold o', sanity_bounds, set_max_bytes, set_min_bytes.
    cbn [max_bytes min_bytes node_stride].
    destruct (clamp_size_cases (max_bytes o)
                (clamp_size (min_bytes o) (Word.mul (node_stride o) 2) (max_bytes o))
                (if Word.SIZE_MAX <? GiB4 then Word.SIZE_MAX else GiB4))
      as [[Ha ->]|[(Ha & Hb & ->)|[Ha ->]]]; [|lia|lia].
    change (clamp_size (min_bytes o) (Word.mul (node_stride o) 2) (max_bytes o))
      with (min_bytes o'). lia. }
  destruct (generate_sizes_range _ _ _ _ Hgen) as [Hsorted Hrange].
  pose proof (main_alloc_spec memalign_ok (node_stride o') sizes Hsorted) as Hspec.
  rewrite Halloc in Hspec. destruct Hspec as ((idx & Hidx & _) & -> & ->).
  apply list_elem_of_lookup_2 in Hidx. specialize (Hrange _ Hidx) as Ha.
  rewrite Estride.
  split; [done|]. split; [done|]. split; [lia|].
  split; [apply Z.div_lt_upper_bound; lia|].
  intros ws Hws. apply list_elem_of_filter in Hws as [Hle Hin].
  assert (E2 : measure_nodes ws (node_stride o) = 2).
  { unfold measure_nodes.
    assert (ws / node_stride o < 2) by (apply Z.div_lt_upper_bound; lia).
    by replace (ws / node_stride o <? 2) with true by lia. }
  rewrite E2. split; [done|lia].
Qed.

Lemma sanity_bounds_two_nodes_overrun_witness :
  exists sizes,
    generate_sizes (min_bytes (sanity_bounds small_max_options))
      (max_bytes (sanity_bounds small_max_options)) max_samples = Some sizes
    /\ main_alloc (fun _ _ => true) (node_stride (sanity_bounds small_max_options)) sizes
       = Some (4096, [4096], 1)
    /\ measure_nodes 4096 (node_stride (sanity_bounds small_max_options)) = 2
    /\ 4096 < measure_nodes 4096 (node_stride (sanity_bounds small_max_options))
              * node_stride (sanity_bounds small_max_options).
Proof.
  assert (Ho : options_in_range small_max_options).
  { unfold options_in_range, small_max_options, default_options, Word.in_range,
      Word.modulus, PATTERN_RANDOM. cbn. lia. }
  assert (Hgen : generate_sizes (min_bytes (sanity_bounds small_max_options))
                   (max_bytes (sanity_bounds small_max_options)) max_samples
                 = Some [4096]) by (vm_compute; reflexivity).
  assert (Halloc : main_alloc (fun _ _ => true)
                     (node_stride (sanity_bounds small_max_options)) [4096]
                   = Some (4096, [4096], 1)) by (vm_compute; reflexivity).
  exists [4096]. split; [done|]. split; [done|].
  assert (H1 : 0 < node_stride small_max_options) by (vm_compute; reflexivity).
  assert (H2 : 2 * node_stride small_max_options < Word.modulus)
    by (vm_compute; reflexivity).
  assert (H3 : max_bytes small_max_options < 2 * node_stride small_max_options)
    by (vm_compute; reflexivity).
  assert (H4 : 2 * node_stride small_max_options <= min_bytes small_max_options)
    by (vm_compute; discriminate).
  pose proof (sanity_bounds_two_nodes_overrun (fun _ _ => true) small_max_options
                [4096] [4096] 4096 1 Ho H1 H2 H3 H4 Hgen Halloc) as (_ & _ & _ & _ & Hall).
  exact (Hall 4096 ltac:(apply list_elem_of_singleton; reflexivity)).
Defined.

(** *** Which sizes are generated *)

Lemma emit_all_sub cap tries : forall out x, x ∈ out -> x ∈ emit_all cap tries out.
Proof.
  induction tries as [|[c v] tries IH]; intros out x Hx; [done|].
  cbn [emit_all]. apply IH. by apply emit_sub.
Qed.

Lemma emit_all_length cap tries : forall out, (length out <= length (emit_all cap tries out))%nat.
Proof.
  induction tries as [|[c v] tries IH]; intros out; [done|].
  cbn [emit_all]. pose proof (emit_length cap c v out). specialize (IH (emit cap c v out)). lia.
Qed.

Lemma emit_all_elem cap tries : forall out x,
  x ∈ emit_all cap tries out -> x ∈ out \/ (true, x) ∈ tries.
Proof.
  induction tries as [|[c v] tries IH]; intros out x Hx; [by left|].
  cbn [emit_all] in Hx. apply IH in Hx as [Hx|Hx].
  - apply emit_elem in Hx as [Hx|[-> ->]]; [by left|]. right. apply elem_of_cons. by left.
  - right. apply elem_of_cons. by right.
Qed.

Lemma emit_all_pushed cap tries : forall out v,
  Z.of_nat (length (emit_all cap tries out)) < cap -> (true, v) ∈ tries ->
  v ∈ emit_all cap tries out.
Proof.
  induction tries as [|[c x] tries IH]; intros out v Hlen Hv; [by apply elem_of_nil in Hv|].
  cbn [emit_all] in *. apply elem_of_cons in Hv as [[= <- <-]|Hv].
  - apply emit_all_sub, emit_pushed.
    pose proof (emit_all_length cap tries (emit cap true v out)). lia.
  - by apply IH.
Qed.

Lemma sizes_body_emit_all min_bytes max_bytes out_cap p out :
  sizes_body min_bytes max_bytes out_cap p out
  = emit_all out_cap
      ([(min_bytes <=? p, p);
        (in_bounds min_bytes max_bytes (Word.add p (p / 2)), Word.add p (p / 2))]
       ++ (if p <=? 2 ^ 20 then
             [(in_bounds min_bytes max_bytes (Word.add p (p / 4)), Word.add p (p / 4));
              (in_bounds min_bytes max_bytes (Word.add p (Word.mul p 3 / 4)),
               Word.add p (Word.mul p 3 / 4))]
           else [])
       ++ (if p <=? 128 * 2 ^ 10 then
             [(in_bounds min_bytes max_bytes (Word.add p (p / 8)), Word.add p (p / 8));
              (in_bounds min_bytes max_bytes (Word.add p (Word.mul p 3 / 8)),
               Word.add p (Word.mul p 3 / 8));
              (in_bounds min_bytes max_bytes (Word.add p (Word.mul p 5 / 8)),
               Word.add p (Word.mul p 5 / 8));
              (in_bounds min_bytes max_bytes (Word.add p (Word.mul p 7 / 8)),
               Word.add p (Word.mul p 7 / 8))]
           else []))
      out.
Proof. unfold sizes_body. by destruct (p <=? 2 ^ 20), (p <=? 128 * 2 ^ 10). Qed.

Lemma sizes_body_members min_bytes max_bytes out_cap e out :
  10 <= e <= 63 -> 2 ^ e <= max_bytes -> max_bytes < Word.modulus ->
  let out' := sizes_body min_bytes max_bytes out_cap (2 ^ e) out in
  (forall v, v ∈ out' ->
     v ∈ out \/ (min_bytes <= v <= max_bytes
                 /\ exists j, size_choice e j /\ v = size_value e j))
  /\ (Z.of_nat (length out') < out_cap ->
      forall j, size_choice e j -> min_bytes <= size_value e j <= max_bytes ->
                size_value e j ∈ out')
  /\ (forall v, v ∈ out -> v ∈ out')
  /\ (length out <= length out')%nat.
Proof.
  intros He Hmax Hmod out'. subst out'. rewrite sizes_body_emit_all.
  set (p := 2 ^ e) in *. set (q := 2 ^ (e - 3)).
  assert (Hp : p = 8 * q).
  { unfold p, q. change 8 with (2 ^ 3). rewrite <- Z.pow_add_r by lia. f_equal. lia. }
  assert (Hq : 128 <= q).
  { unfold q. change 128 with (2 ^ 7). apply Z.pow_le_mono_r; lia. }
  assert (Hp63 : p <= 2 ^ 63) by (apply Z.pow_le_mono_r; lia).
  assert (Hval : forall j, size_value e j = p + j * q) by done.
  assert (E15 : Word.add p (p / 2) = p + 4 * q) by (rewrite add_small; word_lia).
  assert (E125 : Word.add p (p / 4) = p + 2 * q) by (rewrite add_small; word_lia).
  assert (E1125 : Word.add p (p / 8) = p + 1 * q) by (rewrite add_small; word_lia).
  assert (Emul : forall c, 0 <= c <= 7 -> p <= 2 ^ 20 -> Word.mul p c = p * c).
  { intros c Hc Hle. unfold Word.mul, Word.wrap, Word.modulus. apply Z.mod_small. nia. }
  assert (H20 : p <= 2 ^ 20 <-> e <= 20).
  { split; intros H.
    - apply pow2_le_inv; [lia|lia|done].
    - apply Z.pow_le_mono_r; lia. }
  assert (H17 : p <= 128 * 2 ^ 10 <-> e <= 17).
  { change (128 * 2 ^ 10) with (2 ^ 17). split; intros H.
    - apply pow2_le_inv; [lia|lia|done].
    - apply Z.pow_le_mono_r; lia. }
  assert (E175 : p <= 2 ^ 20 -> Word.add p (Word.mul p 3 / 4) = p + 6 * q).
  { intros. rewrite Emul by lia. rewrite add_small; word_lia. }
  assert (E1375 : p <= 2 ^ 20 -> Word.add p (Word.mul p 3 / 8) = p + 3 * q).
  { intros. rewrite Emul by lia. rewrite add_small; word_lia. }
  assert (E1625 : p <= 2 ^ 20 -> Word.add p (Word.mul p 5 / 8) = p + 5 * q).
  { intros. rewrite Emul by lia. rewrite add_small; word_lia. }
  assert (E1875 : p <= 2 ^ 20 -> Word.add p (Word.mul p 7 / 8) = p + 7 * q).
  { intros. rewrite Emul by lia. rewrite add_small; word_lia. }
  assert (Hin : forall x, in_bounds min_bytes max_bytes x = true <-> min_bytes <= x <= max_bytes).
  { intros x. unfold in_bounds. rewrite andb_true_iff. lia. }
  rewrite E15, E125, E1125.
  set (tries := _ ++ _ ++ _).
  assert (Htries : forall v, (true, v) ∈ tries <->
            min_bytes <= v <= max_bytes /\ exists j, size_choice e j /\ v = p + j * q).
  { intros v. unfold tries, size_choice.
    destruct (Z.leb_spec p (2 ^ 20)) as [Hs|Hs];
      destruct (Z.leb_spec p (128 * 2 ^ 10)) as [Ht|Ht];
      rewrite ?E175, ?E1375, ?E1625, ?E1875 by lia;
      rewrite ?elem_of_app, ?elem_of_cons, ?elem_of_nil; split.
    all: try (intros H;
      repeat match goal with
      | H : _ \/ _ |- _ => destruct H as [H|H]
      | H : False |- _ => destruct H
      | H : (true, _) = (_, _) |- _ => injection H as H ->
      end;
      symmetry in H; first [apply Hin in H | apply Z.leb_le in H];
      (split; [lia|]); eexists; (split; [|reflexivity || (instantiate (1 := 0); lia)]); lia).
    all: intros (Hr & j & Hj & ->);
      assert (j = 0 \/ j = 1 \/ j = 2 \/ j = 3 \/ j = 4 \/ j = 5 \/ j = 6 \/ j = 7)
        as [->|[->|[->|[->|[->|[->|[->| ->]]]]]]] by lia;
      try lia;
      try (replace (p + 0 * q) with p in * by lia;
           replace (min_bytes <=? p) with true by lia; auto 12);
      rewrite (proj2 (Hin _) Hr); auto 12. }
  split; [|split; [|split]].
  - intros v Hv. apply emit_all_elem in Hv as [Hv|Hv]; [by left|]. right.
    apply Htries in Hv as (Hr & j & Hj & ->). split; [done|]. by exists j.
  - intros Hlen j Hj Hr. apply emit_all_pushed; [done|]. apply Htries.
    split; [done|]. by exists j.
  - intros v. apply emit_all_sub.
  - apply emit_all_length.
Qed.

Lemma size_value_bounds e j : 3 <= e -> 0 <= j <= 7 -> 2 ^ e <= size_value e j < 2 ^ (e + 1).
Proof.
  intros He Hj. unfold size_value.
  assert (Hq : 2 ^ e = 8 * 2 ^ (e - 3)).
  { change 8 with (2 ^ 3). rewrite <- Z.pow_add_r by lia. f_equal. lia. }
  assert (0 < 2 ^ (e - 3)) by (apply Z.pow_pos_nonneg; lia).
  rewrite Z.pow_add_r by lia. nia.
Qed.

Lemma size_choice_range e j : size_choice e j -> 0 <= j <= 7.
Proof. unfold size_choice. lia. Qed.

Lemma sizes_loop_members min_bytes max_bytes out_cap fuel : forall e out out',
  max_bytes < Word.modulus -> 10 <= e <= 63 ->
  sizes_loop fuel min_bytes max_bytes out_cap (2 ^ e) out = Some out' ->
  (forall v, v ∈ out' ->
     v ∈ out \/ (min_bytes <= v <= max_bytes
                 /\ exists e' j, e <= e' <= 63 /\ size_choice e' j /\ v = size_value e' j))
  /\ (Z.of_nat (length out') < out_cap ->
      forall e' j, e <= e' <= 63 -> size_choice e' j ->
        min_bytes <= size_value e' j <= max_bytes -> size_value e' j ∈ out')
  /\ (forall v, v ∈ out -> v ∈ out')
  /\ (length out <= length out')%nat.
Proof.
  induction fuel as [|fuel IH]; intros e out out' Hmod He; rewrite sizes_loop_eq.
  - destruct (Z.leb_spec (2 ^ e) max_bytes) as [Hle|Hgt]; [done|].
    intros [= <-]. split; [by left|]. split; [|done].
    intros _ e' j He' Hj Hr. exfalso.
    pose proof (size_value_bounds e' j ltac:(lia) (size_choice_range _ _ Hj)).
    assert (2 ^ e <= 2 ^ e') by (apply Z.pow_le_mono_r; lia). lia.
  - destruct (Z.leb_spec (2 ^ e) max_bytes) as [Hle|Hgt].
    + destruct (sizes_body_members min_bytes max_bytes out_cap e out He Hle Hmod)
        as (HA & HB & HS & HL).
      cbv zeta in *. set (out1 := sizes_body _ _ _ _ _) in *.
      change (Word.shr Word.SIZE_MAX 1) with (2 ^ 63 - 1).
      destruct (Z.ltb_spec (2 ^ 63 - 1) (2 ^ e)) as [Htop|Htop].
      * intros [= <-].
        assert (e = 63).
        { assert (63 <= e); [|lia]. apply pow2_le_inv; lia. }
        subst e. split; [|split; [|done]].
        -- intros v Hv. destruct (HA v Hv) as [?|(Hr & j & Hj & ->)]; [by left|].
           right. split; [done|]. exists 63, j. split; [lia|done].
        -- intros Hlen e' j He' Hj Hr. assert (e' = 63) as -> by lia. by apply HB.
      * assert (e < 63).
        { destruct (Z.eq_dec e 63) as [->|]; lia. }
        rewrite shl1_pow2 by lia. intros E.
        destruct (IH (e + 1) out1 out' Hmod ltac:(lia) E) as (IA & IB & IS & IL).
        split; [|split; [|split]].
        -- intros v Hv. destruct (IA v Hv) as [Hv1|(Hr & e' & j & He' & Hj & ->)].
           ++ destruct (HA v Hv1) as [?|(Hr & j & Hj & ->)]; [by left|].
              right. split; [done|]. exists e, j. split; [lia|done].
           ++ right. split; [done|]. exists e', j. split; [lia|done].
        -- intros Hlen e' j He' Hj Hr. destruct (Z.eq_dec e' e) as [->|Hne].
           ++ apply IS. apply HB; [lia|done|done].
           ++ apply IB; [done|lia|done|done].
        -- intros v Hv. by apply IS, HS.
        -- lia.
    + intros [= <-]. split; [by left|]. split; [|done].
      intros _ e' j He' Hj Hr. exfalso.
      pose proof (size_value_bounds e' j ltac:(lia) (size_choice_range _ _ Hj)).
      assert (2 ^ e <= 2 ^ e') by (apply Z.pow_le_mono_r; lia). lia.
Qed.

Lemma generate_sizes_start_le min_bytes :
  0 <= min_bytes < Word.modulus ->
  exists e1 e0,
    pow2_floor_loop loop_fuel 1 min_bytes = Some (2 ^ e1)
    /\ (if 2 ^ e1 <? 1024 then 1024 else 2 ^ e1) = 2 ^ e0
    /\ 10 <= e0 <= 63
    /\ (e0 = 10 \/ 2 ^ e0 <= min_bytes).
Proof.
  intros Hmin. destruct (Z.eq_dec min_bytes 0) as [->|Hne].
  - exists 0, 10. split; [reflexivity|]. split; [reflexivity|]. split; [lia|by left].
  - destruct (pow2_floor_loop_spec loop_fuel 0 min_bytes) as (e1 & E & He1 & Hle & Hhi);
      [lia|unfold loop_fuel; lia|simpl; lia|].
    change (2 ^ 0) with 1 in E.
    destruct (Z.ltb_spec (2 ^ e1) 1024) as [Hsmall|Hbig].
    + exists e1, 10. split; [done|]. replace (2 ^ e1 <? 1024) with true by lia.
      split; [reflexivity|]. split; [lia|by left].
    + exists e1, e1. split; [done|]. replace (2 ^ e1 <? 1024) with false by lia.
      split; [done|]. split; [|by right].
      split; [|lia]. apply pow2_le_inv; [lia|lia|done].
Qed.

(** X22: for [0 <= min_bytes <= max_bytes < 2^64], [generate_sizes] returns,
    and a value is in its list exactly when it lies in
    [min_bytes, max_bytes] and is [2^e (8 + j) / 8] for some [e] from 10 to
    63 and a [j] that the generator tries at [2^e]: 0 and 4 always, 2 and 6
    up to 1 MiB, the odd ones up to 128 KiB.  The second half needs the
    capacity not to be reached, which a capacity above 432 ensures. *)
Theorem generate_sizes_members (min_bytes max_bytes out_cap : Z) :
  0 <= min_bytes <= max_bytes -> max_bytes < Word.modulus -> 0 <= out_cap ->
  exists sizes,
    generate_sizes min_bytes max_bytes out_cap = Some sizes
    /\ (forall v, v ∈ sizes ->
          min_bytes <= v <= max_bytes
          /\ exists e j, 10 <= e <= 63 /\ size_choice e j /\ v = size_value e j)
    /\ (Z.of_nat (length sizes) < out_cap ->
        forall e j, 10 <= e <= 63 -> size_choice e j ->
          min_bytes <= size_value e j <= max_bytes -> size_value e j ∈ sizes)
    /\ (432 < out_cap -> Z.of_nat (length sizes) < out_cap).
Proof.
  intros Hmin Hmax Hcap.
  destruct (generate_sizes_start_le min_bytes) as (e1 & e0 & E1 & Ep & He0 & Hlow); [lia|].
  destruct (sizes_loop_spec min_bytes max_bytes out_cap e0 Hmax ltac:(lia) loop_fuel e0 [])
    as (out & Eloop & Hnd & Hall & Hlen & Hc & Hpow); [lia|unfold loop_fuel; lia| |].
  { split; [apply NoDup_nil_2|]. split; [by intros v ?%elem_of_nil|]. simpl.
    split; [lia|]. split; [done|]. intros _ e' He'. lia. }
  destruct (sizes_loop_members min_bytes max_bytes out_cap loop_fuel e0 [] out Hmax
              ltac:(lia) Eloop) as (HA & HB & _ & _).
  unfold generate_sizes. rewrite E1. cbn [mbind option_bind]. rewrite Ep, Eloop.
  cbn [mbind option_bind]. eexists. split; [done|].
  pose proof (merge_sort_Permutation Z.le out) as Hperm. fold (qsort out) in Hperm.
  split; [|split].
  - intros v Hv. rewrite Hperm in Hv.
    destruct (HA v Hv) as [H|(Hr & e & j & He & Hj & ->)]; [by apply elem_of_nil in H|].
    split; [done|]. exists e, j. split; [lia|done].
  - rewrite (Permutation_length Hperm). intros Hlt e j He Hj Hr. rewrite Hperm.
    apply HB; [done| |done|done]. split; [|lia].
    destruct Hlow as [->|Hlow]; [lia|].
    pose proof (size_value_bounds e j ltac:(lia) (size_choice_range _ _ Hj)) as Hb.
    assert (2 ^ e0 < 2 ^ (e + 1)) by lia.
    assert (e0 < e + 1); [|lia].
    apply Z.pow_lt_mono_r_iff in H; lia.
  - rewrite (Permutation_length Hperm). lia.
Qed.

Lemma generate_sizes_members_witness :
  exists sizes,
    generate_sizes 5000 6200 max_samples = Some sizes
    /\ sizes = [5120; 5632; 6144]
    /\ (Z.of_nat (length sizes) < max_samples ->
        forall e j, 10 <= e <= 63 -> size_choice e j ->
          5000 <= size_value e j <= 6200 -> size_value e j ∈ sizes).
Proof.
  assert (H1 : 0 <= 5000 <= 6200) by lia.
  assert (H2 : 6200 < Word.modulus) by (vm_compute; reflexivity).
  assert (H3 : 0 <= max_samples) by (vm_compute; discriminate).
  destruct (generate_sizes_members 5000 6200 max_samples H1 H2 H3)
    as (sizes & E & _ & Hall & _).
  exists sizes. split; [exact E|]. split; [|exact Hall].
  vm_compute in E. injection E as <-. reflexivity.
Defined.

(** *** What a measurement costs and returns *)

Lemma count_events_app f evs1 evs2 :
  count_events f (evs1 ++ evs2) = (count_events f evs1 + count_events f evs2)%nat.
Proof. unfold count_events. by rewrite List.filter_app, length_app. Qed.

Lemma adapt_steps_cost clock target_ns fuel : forall steps w,
  1 <= steps <= 2 * steps_cap -> (0 < fuel)%nat ->
  steps_cap < steps * 2 ^ (Z.of_nat fuel - 1) ->
  exists steps' w' evs (d : nat),
    adapt_steps fuel clock target_ns steps w = (Some steps', w')
    /\ trace w' = trace w ++ evs
    /\ count_events is_probe evs = S d /\ length evs = S d
    /\ steps' = steps * 2 ^ Z.of_nat d /\ steps' <= 2 * steps_cap
    /\ clock_reads w' = (clock_reads w + 2 * S d)%nat.
Proof.
  induction fuel as [|fuel IH]; intros steps w Hs Hfuel Hbound; [lia|].
  cbn [adapt_steps]. destruct (timed_chase clock w) as [dt w1] eqn:Et.
  pose proof (timed_chase_trace clock w) as [Htr Hck]. rewrite Et in Htr, Hck.
  cbn [snd] in Htr, Hck.
  destruct ((target_ns / 2 <=? dt) || (steps_cap <? steps)) eqn:Hbreak.
  - exists steps, (log_event (EvProbe steps dt) w1), [EvProbe steps dt], 0%nat.
    split; [done|]. split; [by cbn; rewrite Htr|]. split; [done|]. split; [done|].
    split; [cbn; lia|]. split; [lia|]. cbn. lia.
  - apply orb_false_iff in Hbreak as [Hdt Hcap].
    assert (Hle : steps <= steps_cap) by lia.
    rewrite mul2_small by lia.
    destruct fuel as [|fuel'].
    { simpl in Hbound. lia. }
    destruct (IH (2 * steps) (log_event (EvProbe steps dt) w1))
      as (steps' & w' & evs & d & E & Htr' & Hcnt & Hlen & Hst & Hle' & Hck').
    { lia. }
    { lia. }
    { replace (Z.of_nat (S (S fuel')) - 1) with (Z.succ (Z.of_nat (S fuel') - 1)) in Hbound by lia.
      rewrite Z.pow_succ_r in Hbound by lia. lia. }
    exists steps', w', (EvProbe steps dt :: evs), (S d). split; [done|].
    split; [rewrite Htr'; cbn; rewrite Htr; by rewrite <- app_assoc|].
    split; [unfold count_events in *; cbn; lia|]. split; [cbn; lia|].
    split; [|split; [done|]].
    + rewrite Hst, Nat2Z.inj_succ, Z.pow_succ_r by lia. lia.
    + rewrite Hck'. cbn [log_event clock_reads]. lia.
Qed.

Lemma repeat_loop_cost clock target_ns todo : forall steps best w,
  1000 <= steps <= 2 * steps_cap ->
  exists best' w' evs (D : nat),
    repeat_loop todo clock target_ns steps best w = (Some best', w')
    /\ trace w' = trace w ++ evs
    /\ count_events is_measure evs = todo
    /\ count_events is_probe evs = (todo + D)%nat
    /\ length evs = (2 * todo + D)%nat
    /\ steps * 2 ^ Z.of_nat D <= 2 * steps_cap
    /\ clock_reads w' = (clock_reads w + 2 * (2 * todo + D))%nat
    /\ (best' = best \/ exists ev, ev ∈ evs /\ measured_ns ev = Some best').
Proof.
  induction todo as [|todo IH]; intros steps best w Hs.
  - exists best, w, [], 0%nat. split; [done|]. split; [by rewrite app_nil_r|].
    split; [done|]. split; [done|]. split; [done|]. split; [cbn; lia|].
    split; [lia|by left].
  - cbn [repeat_loop].
    destruct (adapt_steps_cost clock target_ns loop_fuel steps w)
      as (steps1 & w1 & evs1 & d & E1 & Htr1 & Hcnt1 & Hlen1 & Hst1 & Hle1 & Hck1).
    { lia. }
    { unfold loop_fuel. lia. }
    { unfold loop_fuel, steps_cap in *. simpl. lia. }
    rewrite E1. destruct (timed_chase clock w1) as [dt w2] eqn:Et.
    pose proof (timed_chase_trace clock w1) as [Htr2 Hck2]. rewrite Et in Htr2, Hck2.
    cbn [snd] in Htr2, Hck2.
    set (ns := PrimFloat.div (Dbl.of_Z dt) (Dbl.of_Z steps1)).
    set (best1 := if Dbl.lt ns best then ns else best).
    assert (0 < 2 ^ Z.of_nat d) by (apply Z.pow_pos_nonneg; lia).
    destruct (IH steps1 best1 (log_event (EvMeasure steps1 dt) w2))
      as (best' & w' & evs & D & E & Htr' & Hm & Hp & Hlen & Hst & Hck & Hbest); [nia|].
    assert (Hm1 : count_events is_measure evs1 = 0%nat).
    { unfold count_events in *. clear -Hcnt1 Hlen1.
      revert d Hcnt1 Hlen1. induction evs1 as [|ev evs1 IHe]; intros d Hc Hl; [done|].
      destruct ev; cbn in *; try lia.
      - pose proof (List.filter_length_le is_probe evs1). lia.
      - destruct d as [|d].
        + destruct evs1; [done|cbn in Hl; lia].
        + injection Hc as Hc. injection Hl as Hl. by apply (IHe d).
      - pose proof (List.filter_length_le is_probe evs1). lia. }
    exists best', w', (evs1 ++ EvMeasure steps1 dt :: evs), (d + D)%nat. split; [done|].
    split; [rewrite Htr'; cbn; rewrite Htr2, Htr1; by rewrite <- !app_assoc|].
    split; [rewrite count_events_app, Hm1; unfold count_events in *; cbn; lia|].
    split; [rewrite count_events_app, Hcnt1; unfold count_events in *; cbn; lia|].
    split; [rewrite length_app; cbn; lia|].
    split.
    { rewrite Nat2Z.inj_add, Z.pow_add_r by lia. rewrite Hst1 in Hst. lia. }
    split.
    { rewrite Hck. cbn [log_event clock_reads]. lia. }
    destruct Hbest as [->|(ev & Hev & Hns)].
    + unfold best1. destruct (Dbl.lt ns best); [|by left].
      right. exists (EvMeasure steps1 dt). split; [|done].
      apply elem_of_app. right. apply elem_of_cons. by left.
    + right. exists ev. split; [|done].
      apply elem_of_app. right. apply elem_of_cons. by right.
Qed.

Lemma measure_timing_trace clock nodes opt w :
  0 <= nodes < 2 ^ 59 ->
  exists best w' evs (D : nat),
    measure_timing clock nodes opt w = (Some best, w')
    /\ trace w' = trace w ++ replicate (Z.to_nat (warmup_iters opt)) (EvWarmup nodes) ++ evs
    /\ count_events is_measure evs = Z.to_nat (repeats opt)
    /\ count_events is_probe evs = (Z.to_nat (repeats opt) + D)%nat
    /\ length evs = (2 * Z.to_nat (repeats opt) + D)%nat
    /\ (D <= 53)%nat
    /\ clock_reads w' = (clock_reads w + 2 * length evs)%nat
    /\ (best = sentinel \/ exists ev, ev ∈ evs /\ measured_ns ev = Some best).
Proof.
  intros Hn. unfold measure_timing, for_upto.
  destruct (warmup_loop_spec nodes (Z.to_nat (warmup_iters opt)) 0 w) as [Hck0 Htr0].
  cbv zeta in Hck0, Htr0.
  set (w0 := for_loop _ _ _ w) in *.
  destruct (initial_steps_eq nodes Hn) as [_ Hinit].
  destruct (repeat_loop_cost clock (Word.mul (target_ms opt) 1000000)
              (Z.to_nat (repeats opt)) (initial_steps nodes) sentinel w0 Hinit)
    as (best & w' & evs & D & E & Htr & Hm & Hp & Hlen & Hst & Hck & Hbest).
  exists best, w', evs, D. split; [done|].
  split; [by rewrite Htr, Htr0, <- app_assoc|]. split; [done|]. split; [done|].
  split; [done|]. split.
  - destruct (Nat.le_gt_cases D 53) as [|Hgt]; [done|]. exfalso.
    assert (2 ^ 54 <= 2 ^ Z.of_nat D) by (apply Z.pow_le_mono_r; lia).
    unfold steps_cap in *. nia.
  - split; [rewrite Hck, Hck0, Hlen; lia|done].
Qed.

(** X23: for fewer than [2^59] nodes a measurement runs the warm-up chases
    first, then exactly [repeats] measured chases and [repeats + D] probes,
    where [D <= 53] is the number of times the step count was doubled; the
    count is never reset between repeats, so the doublings are shared by
    all of them.  The clock is read twice for every timed chase and never
    during warm-up. *)
Theorem measure_timing_cost (clock : nat -> Z) (nodes : Z) (opt : Options) (w : World) :
  0 <= nodes < 2 ^ 59 ->
  exists best w' evs (D : nat),
    measure_timing clock nodes opt w = (Some best, w')
    /\ trace w' = trace w ++ replicate (Z.to_nat (warmup_iters opt)) (EvWarmup nodes) ++ evs
    /\ count_events is_measure evs = Z.to_nat (repeats opt)
    /\ count_events is_probe evs = (Z.to_nat (repeats opt) + D)%nat
    /\ length evs = (2 * Z.to_nat (repeats opt) + D)%nat
    /\ (D <= 53)%nat
    /\ clock_reads w' = (clock_reads w + 2 * length evs)%nat.
Proof.
  intros Hn.
  destruct (measure_timing_trace clock nodes opt w Hn)
    as (best & w' & evs & D & E & Htr & Hm & Hp & Hlen & HD & Hck & _).
  exists best, w', evs, D. done.
Qed.

Lemma measure_timing_cost_witness :
  exists best w' evs (D : nat),
    measure_timing frozen_clock 2 default_options fresh_world = (Some best, w')
    /\ trace w' = trace fresh_world
                  ++ replicate (Z.to_nat (warmup_iters default_options)) (EvWarmup 2) ++ evs
    /\ count_events is_measure evs = Z.to_nat (repeats default_options)
    /\ count_events is_probe evs = (Z.to_nat (repeats default_options) + D)%nat
    /\ length evs = (2 * Z.to_nat (repeats default_options) + D)%nat
    /\ (D <= 53)%nat
    /\ clock_reads w' = (clock_reads fresh_world + 2 * length evs)%nat.
Proof.
  assert (H : 0 <= 2 < 2 ^ 59) by lia.
  exact (measure_timing_cost frozen_clock 2 default_options fresh_world H).
Defined.

(** X24: for fewer than [2^59] nodes the latency that a measurement returns
    is either the initial [1e300] or [(double)dt / (double)steps] of one of
    its measured chases; warm-up chases and probes never contribute. *)
Theorem measure_timing_result (clock : nat -> Z) (nodes : Z) (opt : Options) (w : World) :
  0 <= nodes < 2 ^ 59 ->
  exists best w' evs,
    measure_timing clock nodes opt w = (Some best, w')
    /\ trace w' = trace w ++ replicate (Z.to_nat (warmup_iters opt)) (EvWarmup nodes) ++ evs
    /\ (best = sentinel
        \/ exists steps dt,
             EvMeasure steps dt ∈ evs
             /\ best = PrimFloat.div (Dbl.of_Z dt) (Dbl.of_Z steps)).
Proof.
  intros Hn.
  destruct (measure_timing_trace clock nodes opt w Hn)
    as (best & w' & evs & D & E & Htr & _ & _ & _ & _ & _ & Hbest).
  exists best, w', evs. split; [done|]. split; [done|].
  destruct Hbest as [->|(ev & Hev & Hns)]; [by left|]. right.
  destruct ev as [s|s dt|s dt]; try done. injection Hns as <-. by exists s, dt.
Qed.

Lemma measure_timing_result_witness :
  exists best w' evs,
    measure_timing frozen_clock 2 default_options fresh_world = (Some best, w')
    /\ trace w' = trace fresh_world
                  ++ replicate (Z.to_nat (warmup_iters default_options)) (EvWarmup 2) ++ evs
    /\ (best = sentinel
        \/ exists steps dt,
             EvMeasure steps dt ∈ evs
             /\ best = PrimFloat.div (Dbl.of_Z dt) (Dbl.of_Z steps)).
Proof.
  assert (H : 0 <= 2 < 2 ^ 59) by lia.
  exact (measure_timing_result frozen_clock 2 default_options fresh_world H).
Defined.




Lemma adapt_steps_zero_target clock fuel steps w :
  adapt_steps (S fuel) clock 0 steps w
  = (Some steps,
     log_event (EvProbe steps (fst (timed_chase clock w))) (snd (timed_chase clock w))).
Proof.
  cbn [adapt_steps]. destruct (timed_chase clock w) as [dt w1] eqn:Et. cbn [fst snd].
  assert (0 <= dt).
  { unfold timed_chase, now_ns in Et. injection Et as <- _.
    apply Z.mod_pos_bound. unfold Word.modulus. lia. }
  change (0 / 2) with 0. by replace (0 <=? dt) with true by lia.
Qed.

Lemma repeat_loop_zero_target clock todo : forall steps best w,
  exists best' w' evs,
    repeat_loop todo clock 0 steps best w = (Some best', w')
    /\ trace w' = trace w ++ evs
    /\ timed_steps evs = replicate (2 * todo) steps.
Proof.
  induction todo as [|todo IH]; intros steps best w.
  - exists best, w, []. split; [done|]. split; [by rewrite app_nil_r|done].
  - cbn [repeat_loop]. unfold loop_fuel. rewrite adapt_steps_zero_target.
    destruct (timed_chase clock w) as [dt1 w1] eqn:Et1. cbn [fst snd].
    destruct (timed_chase clock (log_event (EvProbe steps dt1) w1)) as [dt2 w2] eqn:Et2.
    pose proof (timed_chase_trace clock w) as [Htr1 _]. rewrite Et1 in Htr1.
    pose proof (timed_chase_trace clock (log_event (EvProbe steps dt1) w1)) as [Htr2 _].
    rewrite Et2 in Htr2. cbn [snd log_event trace] in Htr1, Htr2.
    set (best1 := if Dbl.lt _ best then _ else _).
    destruct (IH steps best1 (log_event (EvMeasure steps dt2) w2))
      as (best' & w' & evs & E & Htr & Hsteps).
    exists best', w', (EvProbe steps dt1 :: EvMeasure steps dt2 :: evs).
    split; [done|]. split.
    + rewrite Htr. cbn [log_event trace]. rewrite Htr2, Htr1.
      rewrite <- !app_assoc. done.
    + replace (2 * S todo)%nat with (S (S (2 * todo))) by lia.
      cbn [replicate]. unfold timed_steps in *. cbn. by rewrite Hsteps.
Qed.

(** X26: with [target_ms = 0], which [--target-ms 0] sets, no probe is ever
    too short: each repeat makes one probe and one measured chase, and all
    of them run the initial [max(1000, 16 * nodes)] steps. *)
Theorem measure_timing_zero_target (clock : nat -> Z) (nodes : Z) (opt : Options)
    (w : World) :
  target_ms opt = 0 ->
  exists best w' evs,
    measure_timing clock nodes opt w = (Some best, w')
    /\ trace w' = trace w ++ replicate (Z.to_nat (warmup_iters opt)) (EvWarmup nodes) ++ evs
    /\ timed_steps evs = replicate (2 * Z.to_nat (repeats opt)) (initial_steps nodes).
Proof.
  intros Ht. unfold measure_timing, for_upto. rewrite Ht.
  change (Word.mul 0 1000000) with 0.
  destruct (warmup_loop_spec nodes (Z.to_nat (warmup_iters opt)) 0 w) as [_ Htr0].
  cbv zeta in Htr0. set (w0 := for_loop _ _ _ w) in *.
  destruct (repeat_loop_zero_target clock (Z.to_nat (repeats opt)) (initial_steps nodes)
              sentinel w0) as (best & w' & evs & E & Htr & Hsteps).
  exists best, w', evs. split; [done|]. split; [|done].
  by rewrite Htr, Htr0, <- app_assoc.
Qed.

Lemma measure_timing_zero_target_witness :
  exists best w' evs,
    measure_timing frozen_clock 100 (set_target_ms 0 default_options) fresh_world
    = (Some best, w')
    /\ trace w' = trace fresh_world
         ++ replicate (Z.to_nat (warmup_iters (set_target_ms 0 default_options)))
              (EvWarmup 100) ++ evs
    /\ timed_steps evs
       = replicate (2 * Z.to_nat (repeats (set_target_ms 0 default_options)))
           (initial_steps 100).
Proof.
  exact (measure_timing_zero_target frozen_clock 100 (set_target_ms 0 default_options)
           fresh_world eq_refl).
Defined.
